(** * react-docs-mcp: the ranking engine, embedded and verified

    A shallow embedding of [src/searchEngine.ts], [src/embeddingService.ts]
    and [src/config.ts], followed by the properties C1 to C10 of the
    specification, each proved of the embedding or refuted on it and proved
    in the form the code has.  The parser [src/markdownParser.ts], the
    manager of the corpus [src/docsManager.ts] and the resource handler of
    [src/index.ts] are embedded as well, and the further properties, named
    X1 and on, say more of what the code does: they are read off the code.

    Conventions of the embedding.
    - JavaScript strings are [string]s of 8-bit code units; case mapping and
      the whitespace class are those of JavaScript on the ASCII range, so
      the texts meant are ASCII texts.
    - In the engine JavaScript numbers are exact rationals ([Q]): rounding,
      NaN and the infinities are outside that part of the embedding, and
      [Math.sqrt] is a function of the runtime, taken as a parameter.  What
      is proved there of scores and similarities holds of the exact values.
      Module [Binary64] embeds [cosineSimilarity] once more on the binary64
      numbers themselves (the kernel's primitive floats), and the property
      C4 is settled there.
    - A [Promise] that rejects and a [throw] are the outcome [Throw]; the
      engine's fields live in an explicit state that survives a throw.
    - The collaborators (corpus, parser, model pipeline) are a record of
      oracles, the [World], given to every operation. *)

From Stdlib Require Import List Bool Arith ZArith QArith Qround Qminmax Lia Lqa.
From Stdlib Require Import Sorted Permutation.
From Stdlib Require Import Ascii String.
From Stdlib Require Floats.
Import ListNotations.

Local Open Scope string_scope.
Local Open Scope list_scope.

(** ** The JavaScript runtime the engine relies on *)

Module JS.

(** *** Characters *)

Definition isUpper (c : ascii) : bool :=
  let n := nat_of_ascii c in (65 <=? n)%nat && (n <=? 90)%nat.

Definition isLower (c : ascii) : bool :=
  let n := nat_of_ascii c in (97 <=? n)%nat && (n <=? 122)%nat.

Definition lowerChar (c : ascii) : ascii :=
  if isUpper c then ascii_of_nat (nat_of_ascii c + 32) else c.

Definition upperChar (c : ascii) : ascii :=
  if isLower c then ascii_of_nat (nat_of_ascii c - 32) else c.

(** The class [\s] (and the characters [trim] strips): TAB, LF, VT, FF,
    CR and SPACE. *)
Definition isWhitespace (c : ascii) : bool :=
  let n := nat_of_ascii c in
  ((9 <=? n)%nat && (n <=? 13)%nat) || (n =? 32)%nat.

(** LF and CR, the characters [.] refuses. *)
Definition isLineTerminator (c : ascii) : bool :=
  let n := nat_of_ascii c in (n =? 10)%nat || (n =? 13)%nat.

(** *** Strings *)

Fixpoint toLowerCase (s : string) : string :=
  match s with
  | EmptyString => EmptyString
  | String c s' => String (lowerChar c) (toLowerCase s')
  end.

(** [s.indexOf(t)]: the first position of [t] in [s], or [-1]. *)
Definition indexOf (s t : string) : Z :=
  match index 0 t s with
  | Some i => Z.of_nat i
  | None => (-1)%Z
  end.

(** [s.includes(t)]. *)
Definition includes (s t : string) : bool :=
  match index 0 t s with
  | Some _ => true
  | None => false
  end.

(** [s.slice(from, to)] for [0 <= from], [0 <= to]; the engine calls it
    with no other arguments. *)
Definition slice (s : string) (from to : nat) : string :=
  substring from (to - from) s.

Fixpoint trimStart (s : string) : string :=
  match s with
  | EmptyString => EmptyString
  | String c s' => if isWhitespace c then trimStart s' else s
  end.

Fixpoint trimEnd (s : string) : string :=
  match s with
  | EmptyString => EmptyString
  | String c s' =>
      match trimEnd s' with
      | EmptyString => if isWhitespace c then EmptyString else String c EmptyString
      | t => String c t
      end
  end.

(** [s.trim()]. *)
Definition trim (s : string) : string := trimEnd (trimStart s).

(** Truthiness of a string: non-empty. *)
Definition truthy (s : string) : bool :=
  match s with EmptyString => false | _ => true end.

Definition startsWithSpace (s : string) : bool :=
  match s with
  | EmptyString => false
  | String c _ => isWhitespace c
  end.

(** [s.split(/\s+/)]: the pieces between the maximal runs of whitespace;
    the list is never empty, and a separator at either end leaves an empty
    piece there. *)
Fixpoint splitSpaces (s : string) : list string :=
  match s with
  | EmptyString => [EmptyString]
  | String c s' =>
      if isWhitespace c then
        if startsWithSpace s' then splitSpaces s'
        else EmptyString :: splitSpaces s'
      else
        match splitSpaces s' with
        | t :: rest => String c t :: rest
        | [] => [String c EmptyString]
        end
  end.

(** [s.endsWith(t)], the test behind the pattern [/\.md$/]. *)
Definition endsWith (s t : string) : bool :=
  (length t <=? length s)%nat
  && (substring (length s - length t) (length t) s =? t).

(** [s.replace(/\.md$/, '')]: one trailing [.md] is removed. *)
Definition stripMd (s : string) : string :=
  if endsWith s ".md" then substring 0 (length s - 3) s else s.

(** *** Numbers *)

(** [ToIntegerOrInfinity]: truncation towards zero. *)
Definition toInteger (q : Q) : Z :=
  if Qle_bool 0 q then Qfloor q else Qceiling q.

(** *** Arrays *)

(** [a.slice(0, to)]: a negative [to] counts from the end. *)
Definition arraySlice0 {A : Type} (a : list A) (to : Q) : list A :=
  let len := Z.of_nat (List.length a) in
  let rel := toInteger to in
  let final := if (rel <? 0)%Z then Z.max (len + rel) 0 else Z.min rel len in
  firstn (Z.to_nat final) a.

(** [a.sort(cmp)]: the sort is stable; [x] stays before [y] unless
    [cmp x y > 0].  Insertion from the right end gives exactly that
    order when [cmp] is a consistent comparator. *)
Section Sort.
Context {A : Type} (cmp : A -> A -> Q).

Fixpoint insert (x : A) (l : list A) : list A :=
  match l with
  | [] => [x]
  | y :: l' =>
      if Qle_bool (cmp x y) 0 then x :: l else y :: insert x l'
  end.

Definition sort (l : list A) : list A := fold_right insert [] l.
End Sort.

End JS.

(** ** Outcomes of a call *)

(** What a JavaScript function can throw here: an [Error] made by the
    engine's own code, or the [SyntaxError] of the [RegExp] constructor. *)
Inductive error : Type :=
| Error (message : string)
| SyntaxError (message : string).

Definition message (e : error) : string :=
  match e with Error m => m | SyntaxError m => m end.

(** A call returns, throws, or leaves the part of JavaScript that is
    embedded here ([Beyond]: the pattern language of [RegExp] is embedded
    only in part, see [RegExp.parse]). *)
Inductive outcome (A : Type) : Type :=
| Ok (a : A)
| Throw (e : error)
| Beyond.

Arguments Ok {A} a.
Arguments Throw {A} e.
Arguments Beyond {A}.

(** ** Regular expressions, as far as query terms reach them

    [new RegExp(term, 'gi')] reads the term as a pattern.  The embedding
    covers pattern characters, [.], [|], groups and the greedy quantifiers
    [*], [+], [?]; a pattern that uses anything else (escapes, classes,
    anchors, braces, lazy quantifiers, group specifiers) is [Unsupported]
    and nothing is said about it. *)

Module RegExp.

Inductive node : Type :=
| Empty
| Char (c : ascii)
| Dot
| Seq (a b : node)
| Alt (a b : node)
| Star (a : node)
| Plus (a : node)
| Opt (a : node)
| Group (a : node).

(** The fourteen syntax characters of the pattern grammar. *)
Definition isSyntaxChar (c : ascii) : bool :=
  existsb (Ascii.eqb c)
    ["^"; "$"; "\"; "."; "*"; "+"; "?"; "("; ")"; "["; "]"; "{"; "}"; "|"]%char.

(** One open disjunction: the alternatives already closed and the terms
    of the current one, both latest first; a term carries whether it
    already has a quantifier. *)
Record frame : Type := mkFrame {
  alts : list node;
  terms : list (node * bool)
}.

Definition emptyFrame : frame := mkFrame [] [].

Definition alternative (ts : list (node * bool)) : node :=
  fold_left (fun acc t => Seq (fst t) acc) ts Empty.

Definition disjunction (f : frame) : node :=
  fold_left (fun acc a => Alt a acc) (alts f) (alternative (terms f)).

Definition pushTerm (f : frame) (n : node) : frame :=
  mkFrame (alts f) ((n, false) :: terms f).

Definition newAlternative (f : frame) : frame :=
  mkFrame (alternative (terms f) :: alts f) [].

Definition quantify (c : ascii) (n : node) : node :=
  if Ascii.eqb c "*" then Star n
  else if Ascii.eqb c "+" then Plus n
  else Opt n.

(** What the constructor makes of a pattern: a tree, a syntax error with
    the reason the engine names in its message, or a pattern outside the
    embedding. *)
Inductive parsed : Type :=
| Pattern (n : node)
| Invalid (reason : string)
| Unsupported.

(** One pass over the pattern, with the stack of the groups still open. *)
Fixpoint parse (p : string) (cur : frame) (stack : list frame) : parsed :=
  match p with
  | EmptyString =>
      match stack with
      | [] => Pattern (disjunction cur)
      | _ :: _ => Invalid "Unterminated group"
      end
  | String c p' =>
      if Ascii.eqb c "(" then
        match p' with
        | String "?" _ => Unsupported
        | _ => parse p' emptyFrame (cur :: stack)
        end
      else if Ascii.eqb c ")" then
        match stack with
        | [] => Invalid "Unmatched ')'"
        | parent :: stack' =>
            parse p' (pushTerm parent (Group (disjunction cur))) stack'
        end
      else if Ascii.eqb c "|" then parse p' (newAlternative cur) stack
      else if Ascii.eqb c "*" || Ascii.eqb c "+" || Ascii.eqb c "?" then
        match terms cur with
        | [] => Invalid "Nothing to repeat"
        | (_, true) :: _ =>
            if Ascii.eqb c "?" then Unsupported
            else Invalid "Nothing to repeat"
        | (t, false) :: ts =>
            parse p' (mkFrame (alts cur) ((quantify c t, true) :: ts)) stack
        end
      else if Ascii.eqb c "." then parse p' (pushTerm cur Dot) stack
      else if isSyntaxChar c then Unsupported
      else parse p' (pushTerm cur (Char c)) stack
  end.

(** [new RegExp(pattern, 'gi')]. *)
Definition create (pattern : string) : outcome node :=
  match parse pattern emptyFrame [] with
  | Pattern n => Ok n
  | Invalid reason => Throw (SyntaxError reason)
  | Unsupported => Beyond
  end.

(** What remains to be matched behind a node: a continuation takes the
    rest of the input and answers with what is left after the whole match,
    or fails. *)
Definition continuation : Type := string -> option string.

Definition orElse (a b : option string) : option string :=
  match a with Some r => Some r | None => b end.

(** A greedy loop whose every round must consume input; [fuel] is the
    length of the input, which bounds the number of rounds. *)
Fixpoint repeat (ma : string -> continuation -> option string)
    (fuel : nat) (s : string) (k : continuation) : option string :=
  match fuel with
  | O => k s
  | S fuel' =>
      orElse
        (ma s (fun s1 =>
           if (length s1 <? length s)%nat then repeat ma fuel' s1 k
           else None))
        (k s)
  end.

(** The backtracking matcher: [m n s k] matches [n] at the front of [s]
    and hands the rest to the continuation [k]; the first success in the
    order of the pattern wins.  Flag [i]: characters are compared after
    [upperChar]. *)
Fixpoint m (n : node) (s : string) (k : continuation) : option string :=
  match n with
  | Empty => k s
  | Char c =>
      match s with
      | String d s' =>
          if Ascii.eqb (JS.upperChar d) (JS.upperChar c) then k s' else None
      | EmptyString => None
      end
  | Dot =>
      match s with
      | String d s' => if JS.isLineTerminator d then None else k s'
      | EmptyString => None
      end
  | Seq a b => m a s (fun s1 => m b s1 k)
  | Alt a b => orElse (m a s k) (m b s k)
  | Star a => repeat (m a) (length s) s k
  | Plus a => m a s (fun s1 => repeat (m a) (length s1) s1 k)
  | Opt a =>
      orElse
        (m a s (fun s1 => if (length s1 <? length s)%nat then k s1 else None))
        (k s)
  | Group a => m a s k
  end.

(** A match at the front of [s]: what is left of [s] after it. *)
Definition matchAt (n : node) (s : string) : option string :=
  m n s (fun rest => Some rest).

(** [s.match(regex)] with flag [g]: the matches from left to right.  After
    a match of length [len] the search resumes [len] characters on, and
    one character on after an empty match; [skip] counts the characters
    still to pass over.  The empty list stands for [null]. *)
Fixpoint matchAll (n : node) (s : string) (skip : nat) : list string :=
  match skip with
  | S skip' =>
      match s with
      | String _ s' => matchAll n s' skip'
      | EmptyString => []
      end
  | O =>
      match matchAt n s with
      | Some rest =>
          let len := (length s - length rest)%nat in
          substring 0 len s ::
            match s with
            | String _ s' => matchAll n s' (len - 1)
            | EmptyString => []
            end
      | None =>
          match s with
          | String _ s' => matchAll n s' 0
          | EmptyString => []
          end
      end
  end.

Definition stringMatch (s : string) (regex : node) : list string :=
  matchAll regex s 0.

End RegExp.

(** ** [config.ts] *)

Module Config.

(** [CONFIG.search] *)
Definition defaultLimit : Q := 10.
Definition maxLimit : Q := 50.
Definition minScore : Q := 1 # 10.
Definition semanticSearchEnabled : bool := true.
Definition semanticMinSimilarity : Q := 3 # 10.
Definition hybridKeywordWeight : Q := 3 # 10.
Definition hybridSemanticWeight : Q := 7 # 10.

(** [CONFIG.sections] *)
Definition sections : list string := ["learn"; "reference"; "blog"; "community"].

End Config.

(** ** [types.ts] *)

Record DocMetadata : Type := mkDocMetadata {
  title : string;
  description : option string
}.

Record ParsedDoc : Type := mkParsedDoc {
  path : string;
  section : string;
  metadata : DocMetadata;
  content : string;
  plainText : string;
  embedding : option (list Q)
}.

Record SearchResult : Type := mkSearchResult {
  doc : ParsedDoc;
  score : Q;
  snippet : string
}.

Module SearchOptions.

Record t : Type := make {
  section : option string;
  limit : option Q;
  minScore : option Q;
  useSemanticSearch : option bool
}.

End SearchOptions.

(** [doc.embedding = embedding]: the assignment of [generateEmbeddings]. *)
Definition setEmbedding (d : ParsedDoc) (e : list Q) : ParsedDoc :=
  mkParsedDoc (path d) (section d) (metadata d) (content d) (plainText d) (Some e).

(** ** The [Map] behind [documentIndex]

    A JavaScript [Map] keeps its keys in the order of their first insertion:
    [set] on a key already there replaces the value where it stands. *)

Module JSMap.

Definition t : Type := list (string * ParsedDoc).

Fixpoint set (key : string) (v : ParsedDoc) (mp : t) : t :=
  match mp with
  | [] => [(key, v)]
  | (k, v0) :: mp' =>
      if (k =? key)%string then (k, v) :: mp' else (k, v0) :: set key v mp'
  end.

Fixpoint get (key : string) (mp : t) : option ParsedDoc :=
  match mp with
  | [] => None
  | (k, v) :: mp' => if (k =? key)%string then Some v else get key mp'
  end.

Definition values (mp : t) : list ParsedDoc := map snd mp.

Definition size (mp : t) : nat := List.length mp.

End JSMap.

(** ** The collaborators and the state of the engine *)

(** What a collaborator answers: a value, or a rejection. *)
Inductive answer (A : Type) : Type :=
| Resolved (a : A)
| Rejected (e : error).

Arguments Resolved {A} a.
Arguments Rejected {A} e.

(** The world outside the engine, fixed for the length of one operation:
    [docsManager.getAllDocs()], [docsManager.readDoc(path)],
    [parseMarkdown(content, path)], the factory [pipeline(...)] of the model,
    the loaded pipeline applied to a text (with its tensor turned into an
    array), and [Math.sqrt]. *)
Record World : Type := mkWorld {
  getAllDocs : answer (list string);
  readDoc : string -> answer string;
  parseMarkdown : string -> string -> answer ParsedDoc;
  loadPipeline : answer unit;
  runPipeline : string -> answer (list Q);
  sqrt : Q -> Q
}.

(** What the engine does that can be seen from outside: its calls to the
    collaborators and what it writes with [console.warn] and
    [console.error].  ([console.log] lines are progress messages and are
    left out.) *)
Inductive event : Type :=
| CallGetAllDocs
| CallReadDoc (docPath : string)
| CallParseMarkdown (docPath : string)
| CallLoadPipeline
| CallRunPipeline (text : string)
| ConsoleWarn (text : string) (e : error)
| ConsoleError (text : string) (e : error).

(** The fields of [SearchEngine] and of its [EmbeddingService], and the
    events so far, latest first. *)
Record state : Type := mkState {
  documentIndex : JSMap.t;
  indexed : bool;
  embeddingsGenerated : bool;
  initialized : bool;
  trace : list event
}.

(** [new SearchEngine(docsManager)] *)
Definition newEngine : state := mkState [] false false false [].

(** *** The monad of the engine's methods *)

Definition M (A : Type) : Type := state -> outcome A * state.

Definition ret {A : Type} (a : A) : M A := fun st => (Ok a, st).

Definition bind {A B : Type} (c : M A) (k : A -> M B) : M B :=
  fun st =>
    match c st with
    | (Ok a, st') => k a st'
    | (Throw e, st') => (Throw e, st')
    | (Beyond, st') => (Beyond, st')
    end.

Declare Scope engine_scope.
Delimit Scope engine_scope with engine.
Notation "x <- c ;; k" := (bind c (fun x => k))
  (at level 61, c at next level, right associativity) : engine_scope.
Notation "c ;; k" := (bind c (fun _ => k))
  (at level 61, right associativity) : engine_scope.
Local Open Scope engine_scope.

Definition throw {A : Type} (e : error) : M A := fun st => (Throw e, st).

(** [try { body } catch (error) { handler }]: the state the body reached is
    the one the handler starts from. *)
Definition tryCatch {A : Type} (body : M A) (handler : error -> M A) : M A :=
  fun st =>
    match body st with
    | (Throw e, st') => handler e st'
    | r => r
    end.

Definition liftOutcome {A : Type} (o : outcome A) : M A := fun st => (o, st).

Definition emit (e : event) : M unit :=
  fun st =>
    (Ok tt, mkState (documentIndex st) (indexed st) (embeddingsGenerated st)
              (initialized st) (e :: trace st)).

(** [await] on a collaborator: the call is recorded, a rejection throws. *)
Definition await {A : Type} (e : event) (a : answer A) : M A :=
  emit e ;;
  match a with
  | Resolved v => ret v
  | Rejected err => throw err
  end.

Definition setDocumentIndex (mp : JSMap.t) : M unit :=
  fun st =>
    (Ok tt, mkState mp (indexed st) (embeddingsGenerated st)
              (initialized st) (trace st)).

Definition setIndexed (b : bool) : M unit :=
  fun st =>
    (Ok tt, mkState (documentIndex st) b (embeddingsGenerated st)
              (initialized st) (trace st)).

Definition setEmbeddingsGenerated (b : bool) : M unit :=
  fun st =>
    (Ok tt, mkState (documentIndex st) (indexed st) b
              (initialized st) (trace st)).

Definition setInitialized (b : bool) : M unit :=
  fun st =>
    (Ok tt, mkState (documentIndex st) (indexed st) (embeddingsGenerated st)
              b (trace st)).

Definition read {A : Type} (f : state -> A) : M A := fun st => (Ok (f st), st).

(** [for (const x of xs) { body }] *)
Fixpoint forEach {A : Type} (xs : list A) (body : A -> M unit) : M unit :=
  match xs with
  | [] => ret tt
  | x :: xs' => body x ;; forEach xs' body
  end.

(** ** [embeddingService.ts] *)

Module EmbeddingService.

(** [initialize()] *)
Definition initialize (w : World) : M unit :=
  isInit <- read initialized ;;
  if isInit then ret tt
  else
    tryCatch
      (await CallLoadPipeline (loadPipeline w) ;;
       setInitialized true)
      (fun e =>
         emit (ConsoleError "Failed to initialize embedding model:" e) ;;
         throw (Error ("Embedding initialization failed: " ++ message e)%string)).

(** [generateEmbedding(text)] *)
Definition generateEmbedding (w : World) (text : string) : M (list Q) :=
  isInit <- read initialized ;;
  (if isInit then ret tt else initialize w) ;;
  tryCatch
    (let truncated := JS.slice text 0 2000 in
     await (CallRunPipeline truncated) (runPipeline w truncated))
    (fun e =>
       emit (ConsoleError "Failed to generate embedding:" e) ;;
       throw (Error ("Embedding generation failed: " ++ message e)%string)).

(** The three accumulators of the loop of [cosineSimilarity]. *)
Record sums : Type := mkSums {
  dotProduct : Q;
  normA : Q;
  normB : Q
}.

(** One round of [for (let i = 0; i < a.length; i++)]. *)
Definition step (a b : list Q) (acc : sums) (i : nat) : sums :=
  mkSums (dotProduct acc + nth i a 0 * nth i b 0)
         (normA acc + nth i a 0 * nth i a 0)
         (normB acc + nth i b 0 * nth i b 0).

Definition loop (a b : list Q) : sums :=
  fold_left (step a b) (seq 0 (List.length a)) (mkSums 0 0 0).

(** [cosineSimilarity(a, b)], on exact numbers: the value the code's sums and
    quotient round.  [Binary64.cosineSimilarity] is the same function on
    the numbers of JavaScript. *)
Definition cosineSimilarity (w : World) (a b : list Q) : outcome Q :=
  if negb (List.length a =? List.length b)%nat then
    Throw (Error "Vectors must have same length")
  else
    let s := loop a b in
    let magnitude := sqrt w (normA s) * sqrt w (normB s) in
    if Qeq_bool magnitude 0 then Ok 0
    else Ok (dotProduct s / magnitude).

(** The loop of [generateEmbeddings(texts)]; [embeddings] is the array it
    pushes to. *)
Fixpoint embedTexts (w : World) (texts : list string) (embeddings : list (list Q))
    : M (list (list Q)) :=
  match texts with
  | [] => ret embeddings
  | text :: rest =>
      embedding <- generateEmbedding w text ;;
      embedTexts w rest (embeddings ++ [embedding])
  end.

(** [generateEmbeddings(texts)] *)
Definition generateEmbeddings (w : World) (texts : list string) : M (list (list Q)) :=
  embedTexts w texts [].

(** An element of [docEmbeddings]. *)
Module DocEmbedding.

Record t : Type := make {
  embedding : list Q;
  index : Q
}.

End DocEmbedding.

(** An element of the array [findMostSimilar] returns. *)
Module Similarity.

Record t : Type := make {
  index : Q;
  similarity : Q
}.

End Similarity.

(** [docEmbeddings.map(({ embedding, index }) => ({ index, similarity:
    this.cosineSimilarity(queryEmbedding, embedding) }))]: the first call
    that throws ends the map. *)
Fixpoint similaritiesOf (w : World) (queryEmbedding : list Q)
    (docEmbeddings : list DocEmbedding.t) : outcome (list Similarity.t) :=
  match docEmbeddings with
  | [] => Ok []
  | d :: rest =>
      match cosineSimilarity w queryEmbedding (DocEmbedding.embedding d) with
      | Ok s =>
          match similaritiesOf w queryEmbedding rest with
          | Ok l => Ok (Similarity.make (DocEmbedding.index d) s :: l)
          | Throw e => Throw e
          | Beyond => Beyond
          end
      | Throw e => Throw e
      | Beyond => Beyond
      end
  end.

(** [(a, b) => b.similarity - a.similarity] *)
Definition bySimilarityDescending (a b : Similarity.t) : Q :=
  Similarity.similarity b - Similarity.similarity a.

(** [findMostSimilar(queryEmbedding, docEmbeddings, topK)] *)
Definition findMostSimilar (w : World) (queryEmbedding : list Q)
    (docEmbeddings : list DocEmbedding.t) (topK : Q) : outcome (list Similarity.t) :=
  match similaritiesOf w queryEmbedding docEmbeddings with
  | Ok similarities =>
      Ok (JS.arraySlice0 (JS.sort bySimilarityDescending similarities) topK)
  | Throw e => Throw e
  | Beyond => Beyond
  end.

End EmbeddingService.

(** ** [searchEngine.ts] *)

Module SearchEngine.

(** The body of the loop of [indexDocuments], for one [docPath]. *)
Definition indexOne (w : World) (docPath : string) : M unit :=
  tryCatch
    (content <- await (CallReadDoc docPath) (readDoc w docPath) ;;
     parsedDoc <- await (CallParseMarkdown docPath)
                    (parseMarkdown w content docPath) ;;
     mp <- read documentIndex ;;
     setDocumentIndex (JSMap.set (path parsedDoc) parsedDoc mp))
    (fun e =>
       emit (ConsoleWarn ("Failed to index document " ++ docPath ++ ":")%string e)).

(** [indexDocuments()] *)
Definition indexDocuments (w : World) : M unit :=
  setDocumentIndex [] ;;
  allDocs <- await CallGetAllDocs (getAllDocs w) ;;
  forEach allDocs (indexOne w) ;;
  setIndexed true.

(** The text a document is embedded from. *)
Definition embeddingText (d : ParsedDoc) : string :=
  (title (metadata d) ++ ". "
   ++ match description (metadata d) with
      | Some s => if JS.truthy s then s else ""
      | None => ""
      end
   ++ ". " ++ JS.slice (plainText d) 0 1000)%string.

(** The loop of [generateEmbeddings] over [documentIndex.values()]: the
    records are objects held by the map, so each assignment shows in the
    index at once.  [before] are the entries already passed. *)
Fixpoint embedEach (w : World) (before after : JSMap.t) : M unit :=
  match after with
  | [] => ret tt
  | (key, d) :: rest =>
      embedding <- EmbeddingService.generateEmbedding w (embeddingText d) ;;
      let d' := setEmbedding d embedding in
      setDocumentIndex (before ++ (key, d') :: rest) ;;
      embedEach w (before ++ [(key, d')]) rest
  end.

(** [generateEmbeddings()] *)
Definition generateEmbeddings (w : World) : M unit :=
  done <- read embeddingsGenerated ;;
  if done then ret tt
  else
    tryCatch
      (EmbeddingService.initialize w ;;
       mp <- read documentIndex ;;
       embedEach w [] mp ;;
       setEmbeddingsGenerated true)
      (fun e =>
         emit (ConsoleError "Failed to generate embeddings:" e) ;;
         throw e).

(** The loop of [scoreDocument] over the query terms, [score] being the
    variable it adds to. *)
Fixpoint scoreTerms (d : ParsedDoc) (titleLower plainTextLower pathLower : string)
    (queryTerms : list string) (score : Q) : outcome Q :=
  match queryTerms with
  | [] => Ok score
  | term :: rest =>
      let score := if JS.includes titleLower term then score + 10 else score in
      let score := if JS.includes pathLower term then score + 5 else score in
      match RegExp.create term with
      | Ok regex =>
          let matches := RegExp.stringMatch plainTextLower regex in
          let score :=
            match matches with
            | [] => score
            | _ :: _ => score + inject_Z (Z.of_nat (List.length matches)) * (1 # 2)
            end in
          let score :=
            match description (metadata d) with
            | Some s =>
                if JS.includes (JS.toLowerCase s) term then score + 3 else score
            | None => score
            end in
          scoreTerms d titleLower plainTextLower pathLower rest score
      | Throw e => Throw e
      | Beyond => Beyond
      end
  end.

(** [scoreDocument(doc, queryTerms)] *)
Definition scoreDocument (d : ParsedDoc) (queryTerms : list string) : outcome Q :=
  let titleLower := JS.toLowerCase (title (metadata d)) in
  let plainTextLower := JS.toLowerCase (plainText d) in
  let pathLower := JS.toLowerCase (path d) in
  scoreTerms d titleLower plainTextLower pathLower queryTerms 0.

(** The loop of [generateSnippet]: [firstMatchIndex] and [matchedTerm]. *)
Fixpoint firstMatch (text : string) (queryTerms : list string)
    (firstMatchIndex : Z) (matchedTerm : string) : Z * string :=
  match queryTerms with
  | [] => (firstMatchIndex, matchedTerm)
  | term :: rest =>
      let index := JS.indexOf (JS.toLowerCase text) term in
      if negb (index =? -1)%Z
         && ((firstMatchIndex =? -1)%Z || (index <? firstMatchIndex)%Z)
      then firstMatch text rest index term
      else firstMatch text rest firstMatchIndex matchedTerm
  end.

Definition contextRadius : Z := 75.

(** [generateSnippet(doc, queryTerms)] *)
Definition generateSnippet (d : ParsedDoc) (queryTerms : list string) : string :=
  let text := plainText d in
  let '(firstMatchIndex, matchedTerm) := firstMatch text queryTerms (-1) "" in
  if (firstMatchIndex =? -1)%Z then
    match description (metadata d) with
    | Some s => if JS.truthy s then s else (JS.slice text 0 150 ++ "...")%string
    | None => (JS.slice text 0 150 ++ "...")%string
    end
  else
    let len := Z.of_nat (length text) in
    let start := Z.max 0 (firstMatchIndex - contextRadius) in
    let stop :=
      Z.min len (firstMatchIndex + Z.of_nat (length matchedTerm) + contextRadius) in
    let snippet := JS.slice text (Z.to_nat start) (Z.to_nat stop) in
    let snippet := if (0 <? start)%Z then ("..." ++ snippet)%string else snippet in
    let snippet := if (stop <? len)%Z then (snippet ++ "...")%string else snippet in
    JS.trim snippet.

(** [options?.limit || CONFIG.search.defaultLimit], clamped by
    [Math.min(..., CONFIG.search.maxLimit)]. *)
Definition effectiveLimit (options : option SearchOptions.t) : Q :=
  let requested :=
    match options with
    | Some o =>
        match SearchOptions.limit o with
        | Some q => if Qeq_bool q 0 then Config.defaultLimit else q
        | None => Config.defaultLimit
        end
    | None => Config.defaultLimit
    end in
  Qmin requested Config.maxLimit.

(** [options?.section?.toLowerCase()] *)
Definition sectionFilterOf (options : option SearchOptions.t) : option string :=
  match options with
  | Some o => option_map JS.toLowerCase (SearchOptions.section o)
  | None => None
  end.

(** [sectionFilter && doc.section.toLowerCase() !== sectionFilter] *)
Definition filteredOut (sectionFilter : option string) (d : ParsedDoc) : bool :=
  match sectionFilter with
  | Some f => JS.truthy f && negb (JS.toLowerCase (section d) =? f)%string
  | None => false
  end.

(** [query.toLowerCase().split(/\s+/).filter(Boolean)] *)
Definition queryTermsOf (query : string) : list string :=
  filter JS.truthy (JS.splitSpaces (JS.toLowerCase query)).

(** [(a, b) => b.score - a.score] *)
Definition byScoreDescending (a b : SearchResult) : Q := score b - score a.

(** The scoring loop of [keywordSearch]; [results] is the array it pushes
    to. *)
Fixpoint keywordLoop (docs : list ParsedDoc) (sectionFilter : option string)
    (queryTerms : list string) (minScore : Q) (results : list SearchResult)
    : outcome (list SearchResult) :=
  match docs with
  | [] => Ok results
  | d :: rest =>
      if filteredOut sectionFilter d then
        keywordLoop rest sectionFilter queryTerms minScore results
      else
        match scoreDocument d queryTerms with
        | Ok sc =>
            if Qle_bool minScore sc then
              keywordLoop rest sectionFilter queryTerms minScore
                (results ++ [mkSearchResult d sc (generateSnippet d queryTerms)])
            else keywordLoop rest sectionFilter queryTerms minScore results
        | Throw e => Throw e
        | Beyond => Beyond
        end
  end.

(** [options?.minScore ?? CONFIG.search.minScore] *)
Definition minScoreOf (options : option SearchOptions.t) : Q :=
  match options with
  | Some o =>
      match SearchOptions.minScore o with
      | Some q => q
      | None => Config.minScore
      end
  | None => Config.minScore
  end.

(** [keywordSearch(query, options)] *)
Definition keywordSearch (query : string) (options : option SearchOptions.t)
    : M (list SearchResult) :=
  let limit := effectiveLimit options in
  let minScore := minScoreOf options in
  let sectionFilter := sectionFilterOf options in
  let queryTerms := queryTermsOf query in
  mp <- read documentIndex ;;
  results <- liftOutcome
               (keywordLoop (JSMap.values mp) sectionFilter queryTerms minScore []) ;;
  ret (JS.arraySlice0 (JS.sort byScoreDescending results) limit).

(** The documents [semanticSearch] scores: those that pass the section
    filter and carry an embedding. *)
Definition candidates (mp : JSMap.t) (sectionFilter : option string) : list ParsedDoc :=
  filter
    (fun d =>
       if filteredOut sectionFilter d then false
       else match embedding d with Some _ => true | None => false end)
    (JSMap.values mp).

(** The scoring loop of [semanticSearch]. *)
Fixpoint hybridLoop (w : World) (docs : list ParsedDoc) (queryEmbedding : list Q)
    (queryTerms : list string) (results : list SearchResult)
    : outcome (list SearchResult) :=
  match docs with
  | [] => Ok results
  | d :: rest =>
      match scoreDocument d queryTerms with
      | Ok sc =>
          let keywordScore := sc / 100 in
          match
            EmbeddingService.cosineSimilarity w queryEmbedding
              (match embedding d with Some e => e | None => [] end)
          with
          | Ok semanticScore =>
              let hybridScore :=
                Config.hybridKeywordWeight * keywordScore
                + Config.hybridSemanticWeight * semanticScore in
              if Qle_bool Config.semanticMinSimilarity semanticScore then
                hybridLoop w rest queryEmbedding queryTerms
                  (results
                   ++ [mkSearchResult d hybridScore (generateSnippet d queryTerms)])
              else hybridLoop w rest queryEmbedding queryTerms results
          | Throw e => Throw e
          | Beyond => Beyond
          end
      | Throw e => Throw e
      | Beyond => Beyond
      end
  end.

(** [semanticSearch(query, options)] *)
Definition semanticSearch (w : World) (query : string)
    (options : option SearchOptions.t) : M (list SearchResult) :=
  done <- read embeddingsGenerated ;;
  (if done then ret tt else generateEmbeddings w) ;;
  let limit := effectiveLimit options in
  let sectionFilter := sectionFilterOf options in
  queryEmbedding <- EmbeddingService.generateEmbedding w query ;;
  mp <- read documentIndex ;;
  let docs := candidates mp sectionFilter in
  let queryTerms := queryTermsOf query in
  results <- liftOutcome (hybridLoop w docs queryEmbedding queryTerms []) ;;
  ret (JS.arraySlice0 (JS.sort byScoreDescending results) limit).

(** [options?.useSemanticSearch ?? CONFIG.search.semanticSearchEnabled] *)
Definition useSemanticSearchOf (options : option SearchOptions.t) : bool :=
  match options with
  | Some o =>
      match SearchOptions.useSemanticSearch o with
      | Some b => b
      | None => Config.semanticSearchEnabled
      end
  | None => Config.semanticSearchEnabled
  end.

(** [search(query, options)] *)
Definition search (w : World) (query : string) (options : option SearchOptions.t)
    : M (list SearchResult) :=
  isIndexed <- read indexed ;;
  (if isIndexed then ret tt else indexDocuments w) ;;
  if negb (JS.truthy (JS.trim query)) then ret []
  else
    let useSemanticSearch := useSemanticSearchOf options in
    if useSemanticSearch then semanticSearch w query options
    else keywordSearch query options.

(** [getDocByPath(path)]; [None] is [null]. *)
Definition getDocByPath (w : World) (p : string) : M (option ParsedDoc) :=
  isIndexed <- read indexed ;;
  (if isIndexed then ret tt else indexDocuments w) ;;
  let normalizedPath := JS.stripMd p in
  mp <- read documentIndex ;;
  ret (JSMap.get normalizedPath mp).

(** [getSections()] *)
Definition getSections : M (list string) := ret Config.sections.

(** [getDocsBySection(section)] *)
Definition getDocsBySection (w : World) (sectionName : string) : M (list ParsedDoc) :=
  isIndexed <- read indexed ;;
  (if isIndexed then ret tt else indexDocuments w) ;;
  let sectionLower := JS.toLowerCase sectionName in
  mp <- read documentIndex ;;
  ret (filter (fun d => (JS.toLowerCase (section d) =? sectionLower)%string)
         (JSMap.values mp)).

End SearchEngine.

(** ** [cosineSimilarity] on the numbers of JavaScript

    The numbers of JavaScript are the binary64 numbers of IEEE 754, with
    their rounding, their two zeros, the infinities and NaN; the kernel's
    primitive floats are these numbers, and compute as the processor does.
    Here [cosineSimilarity] is embedded on them, operation by operation:
    [+], [*] and [/] are the rounded operations, [===] is the comparison of
    IEEE 754 (NaN equals nothing, the two zeros are equal) and [Math.sqrt]
    is its correctly rounded square root, which is what the engines
    compute. *)

Module Binary64.

Import PrimFloat.

(** The three accumulators of the loop of [cosineSimilarity]. *)
Record sums : Type := mkSums {
  dotProduct : float;
  normA : float;
  normB : float
}.

(** One round of [for (let i = 0; i < a.length; i++)].  Past its end an
    array gives [undefined], which is NaN in a product; the loop does not
    go there. *)
Definition step (a b : list float) (acc : sums) (i : nat) : sums :=
  mkSums (dotProduct acc + nth i a nan * nth i b nan)%float
         (normA acc + nth i a nan * nth i a nan)%float
         (normB acc + nth i b nan * nth i b nan)%float.

Definition loop (a b : list float) : sums :=
  fold_left (step a b) (seq 0 (List.length a)) (mkSums 0 0 0).

(** [cosineSimilarity(a, b)] *)
Definition cosineSimilarity (a b : list float) : outcome float :=
  if negb (List.length a =? List.length b)%nat then
    Throw (Error "Vectors must have same length")
  else
    let s := loop a b in
    let magnitude := (sqrt (normA s) * sqrt (normB s))%float in
    if (magnitude =? 0)%float then Ok 0%float
    else Ok (dotProduct s / magnitude)%float.

End Binary64.

(** ** [markdownParser.ts]

    The parser the engine is built with.  Its two libraries are oracles:
    [matter] (gray-matter) splits a file into the data of its front matter
    and the markdown behind it, [stripMarkdown] is the remark pipeline
    [remark().use(stripMarkdown).process(...)] turned into a string.  Of the
    data only [title] and [description] reach a [ParsedDoc] of this
    embedding, and only as strings. *)

Module MarkdownParser.

(** The result of [matter(content)]: [data.title], [data.description]
    ([None]: the key is absent) and [content]. *)
Module Matter.

Record t : Type := make {
  title : option string;
  description : option string;
  content : string
}.

End Matter.

Record Libraries : Type := mkLibraries {
  matter : string -> answer Matter.t;
  stripMarkdown : string -> answer string
}.

(** [s.replace(/\\/g, '/')] *)
Fixpoint replaceBackslashes (s : string) : string :=
  match s with
  | EmptyString => EmptyString
  | String c s' =>
      String (if Ascii.eqb c "\" then "/"%char else c) (replaceBackslashes s')
  end.

(** [s.replace(/^\/+/, '')] *)
Fixpoint stripLeadingSlashes (s : string) : string :=
  match s with
  | EmptyString => EmptyString
  | String c s' => if Ascii.eqb c "/" then stripLeadingSlashes s' else s
  end.

(** [normalizePath(filePath)] *)
Definition normalizePath (filePath : string) : string :=
  JS.stripMd (stripLeadingSlashes (replaceBackslashes filePath)).

(** [s.split(sep)] for a separator of one character: the list is never
    empty. *)
Fixpoint split (sep : ascii) (s : string) : list string :=
  match s with
  | EmptyString => [EmptyString]
  | String c s' =>
      if Ascii.eqb c sep then EmptyString :: split sep s'
      else
        match split sep s' with
        | t :: rest => String c t :: rest
        | [] => [String c EmptyString]
        end
  end.

(** [extractSection(path)] *)
Definition extractSection (path : string) : string :=
  let normalized := normalizePath path in
  let parts := split "/" normalized in
  match parts with
  | p0 :: _ => if JS.truthy p0 then p0 else "unknown"
  | [] => "unknown"
  end.

(** [s.replace(/[-_]/g, ' ')] *)
Fixpoint replaceDashes (s : string) : string :=
  match s with
  | EmptyString => EmptyString
  | String c s' =>
      String (if Ascii.eqb c "-" || Ascii.eqb c "_" then " "%char else c)
        (replaceDashes s')
  end.

(** [word.charAt(0).toUpperCase() + word.slice(1)] *)
Definition capitalize (word : string) : string :=
  match word with
  | EmptyString => EmptyString
  | String c rest => String (JS.upperChar c) rest
  end.

(** [extractTitleFromPath(filePath)] *)
Definition extractTitleFromPath (filePath : string) : string :=
  let normalized := normalizePath filePath in
  let parts := split "/" normalized in
  let filename :=
    let l := last parts EmptyString in
    if JS.truthy l then l else "Untitled" in
  concat " " (map capitalize (split " " (replaceDashes filename))).

(** [s.replace(/\s+/g, ' ')] *)
Fixpoint collapseWhitespace (s : string) : string :=
  match s with
  | EmptyString => EmptyString
  | String c s' =>
      if JS.isWhitespace c then
        if JS.startsWithSpace s' then collapseWhitespace s'
        else String " " (collapseWhitespace s')
      else String c (collapseWhitespace s')
  end.

(** [markdownToPlainText(markdown)] *)
Definition markdownToPlainText (lib : Libraries) (markdown : string) : answer string :=
  match stripMarkdown lib markdown with
  | Resolved result => Resolved (JS.trim (collapseWhitespace result))
  | Rejected e => Rejected e
  end.

(** [parseMarkdown(content, path)].  The metadata are built as
    [{ title: data.title || extractTitleFromPath(path), description:
    data.description, ..., ...data }]: the spread at the end writes the keys
    of [data] over the ones before it. *)
Definition parseMarkdown (lib : Libraries) (content path : string) : answer ParsedDoc :=
  match matter lib content with
  | Rejected e => Rejected e
  | Resolved data =>
      let markdownContent := Matter.content data in
      let title :=
        match Matter.title data with
        | Some t => if JS.truthy t then t else extractTitleFromPath path
        | None => extractTitleFromPath path
        end in
      let title :=
        match Matter.title data with
        | Some t => t
        | None => title
        end in
      let metadata := mkDocMetadata title (Matter.description data) in
      match markdownToPlainText lib markdownContent with
      | Rejected e => Rejected e
      | Resolved plainText =>
          let section := extractSection path in
          Resolved
            (mkParsedDoc (normalizePath path) section metadata markdownContent
               plainText None)
      end
  end.

End MarkdownParser.

(** ** [docsManager.ts]

    The manager's only field that changes is [fileCache]; its methods take
    the cache and give it back with what their promise settles to.  The
    local clone and the git client are an oracle, the [Disk], fixed for the
    length of one call: a path is named by what is joined to [contentPath]. *)

Module DocsManager.

(** [fileCache: Map<string, string[]>] *)
Definition Cache : Type := list (string * list string).

Fixpoint cacheGet (key : string) (fileCache : Cache) : option (list string) :=
  match fileCache with
  | [] => None
  | (k, v) :: rest => if (k =? key)%string then Some v else cacheGet key rest
  end.

Fixpoint cacheSet (key : string) (v : list string) (fileCache : Cache) : Cache :=
  match fileCache with
  | [] => [(key, v)]
  | (k, v0) :: rest =>
      if (k =? key)%string then (k, v) :: rest else (k, v0) :: cacheSet key v rest
  end.

Record Disk : Type := mkDisk {
  (** [fs.access(path.join(repoPath, '.git'))] succeeds *)
  gitDirAccessible : bool;
  (** [fs.mkdir(path.dirname(repoPath), { recursive: true })] *)
  mkdir : answer unit;
  (** [git.clone(url, repoPath, { '--depth': 1 })] *)
  clone : answer unit;
  (** [git.revparse(['HEAD'])] before the pull *)
  revparseHead : answer string;
  (** [git.pull()] *)
  pull : answer unit;
  (** [git.revparse(['HEAD'])] after the pull *)
  revparseHeadAfterPull : answer string;
  (** [fs.access(path.join(contentPath, relative))] succeeds *)
  accessible : string -> bool;
  (** [fg('**/*.md', { cwd: contentPath })] *)
  globAll : answer (list string);
  (** [fg('**/*.md', { cwd: path.join(contentPath, section) })] *)
  globSection : string -> answer (list string);
  (** [fs.readFile(path.join(contentPath, relative), 'utf-8')] *)
  readFile : string -> answer string
}.

(** [checkRepoExists()] *)
Definition checkRepoExists (d : Disk) : bool := gitDirAccessible d.

(** [cloneRepo()] *)
Definition cloneRepo (d : Disk) : answer unit :=
  match mkdir d with
  | Rejected e => Rejected (Error ("Failed to clone repository: " ++ message e)%string)
  | Resolved _ =>
      match clone d with
      | Rejected e =>
          Rejected (Error ("Failed to clone repository: " ++ message e)%string)
      | Resolved _ => Resolved tt
      end
  end.

(** [initialize()] *)
Definition initialize (d : Disk) : answer unit :=
  let repoExists := checkRepoExists d in
  if negb repoExists then cloneRepo d else Resolved tt.

(** [updateRepo()] *)
Definition updateRepo (d : Disk) (fileCache : Cache) : answer bool * Cache :=
  let isCloned := checkRepoExists d in
  if negb isCloned then
    (Rejected (Error "Repository not cloned. Call initialize() first."), fileCache)
  else
    match revparseHead d with
    | Rejected e =>
        (Rejected (Error ("Failed to update repository: " ++ message e)%string), fileCache)
    | Resolved beforeHash =>
        match pull d with
        | Rejected e =>
            (Rejected (Error ("Failed to update repository: " ++ message e)%string),
             fileCache)
        | Resolved _ =>
            match revparseHeadAfterPull d with
            | Rejected e =>
                (Rejected (Error ("Failed to update repository: " ++ message e)%string),
                 fileCache)
            | Resolved afterHash =>
                let hasUpdates := negb (beforeHash =? afterHash)%string in
                if hasUpdates then (Resolved true, []) else (Resolved false, fileCache)
            end
        end
    end.

(** [getDocsInSection(section)]; a rejection of the glob is thrown on. *)
Definition getDocsInSection (d : Disk) (section : string) (fileCache : Cache)
    : answer (list string) * Cache :=
  let cacheKey := ("section:" ++ section)%string in
  match cacheGet cacheKey fileCache with
  | Some cached => (Resolved cached, fileCache)
  | None =>
      if negb (accessible d section) then (Resolved [], fileCache)
      else
        match globSection d section with
        | Rejected e => (Rejected e, fileCache)
        | Resolved files =>
            let relativePaths := map (fun file => (section ++ "/" ++ file)%string) files in
            (Resolved relativePaths, cacheSet cacheKey relativePaths fileCache)
        end
  end.

(** [getAllDocs()] *)
Definition getAllDocs (d : Disk) (fileCache : Cache) : answer (list string) * Cache :=
  let cacheKey := "all" in
  match cacheGet cacheKey fileCache with
  | Some cached => (Resolved cached, fileCache)
  | None =>
      match globAll d with
      | Rejected e => (Rejected e, fileCache)
      | Resolved files => (Resolved files, cacheSet cacheKey files fileCache)
      end
  end.

(** [readDoc(relativePath)] *)
Definition readDoc (d : Disk) (relativePath : string) : answer string :=
  match readFile d relativePath with
  | Resolved text => Resolved text
  | Rejected e =>
      Rejected
        (Error
           ("Failed to read document at " ++ relativePath ++ ": " ++ message e)%string)
  end.

(** [docExists(relativePath)] *)
Definition docExists (d : Disk) (relativePath : string) : bool :=
  accessible d relativePath.

End DocsManager.

(** ** [index.ts]: the handler of [ReadResourceRequestSchema] *)

Module Server.

(** An element of [contents] in the handler's answer. *)
Record Contents : Type := mkContents {
  uri : string;
  mimeType : string;
  text : string
}.

(** The line feed of the template literals. *)
Definition newline : string := String (ascii_of_nat 10) EmptyString.

Fixpoint noLineTerminator (s : string) : bool :=
  match s with
  | EmptyString => true
  | String c s' => negb (JS.isLineTerminator c) && noLineTerminator s'
  end.

(** [uri.match(/^react-docs:\/\/(.+)$/)], giving [match[1]]: the pattern has
    no flag, so [$] is the end of the text and [.] refuses the line
    terminators. *)
Definition matchResourceUri (uri : string) : option string :=
  if prefix "react-docs://" uri then
    let rest := substring 13 (length uri - 13) uri in
    if JS.truthy rest && noLineTerminator rest then Some rest else None
  else None.

(** [CONFIG.sections.includes(resourcePath)] *)
Definition isSection (resourcePath : string) : bool :=
  existsb (String.eqb resourcePath) Config.sections.

(** The line of a document in the list of a section. *)
Definition docLine (d : ParsedDoc) : string :=
  ("- " ++ title (metadata d) ++ " (" ++ path d ++ ")")%string.

(** The handler, from the [uri] of the request to the [contents] of its
    answer. *)
Definition readResource (w : World) (uri : string) : M (list Contents) :=
  match matchResourceUri uri with
  | None => throw (Error ("Invalid resource URI: " ++ uri)%string)
  | Some resourcePath =>
      if isSection resourcePath then
        docs <- SearchEngine.getDocsBySection w resourcePath ;;
        let docList := concat newline (map docLine docs) in
        ret [mkContents uri "text/plain"
               ("# " ++ resourcePath ++ " Documentation" ++ newline ++ newline
                ++ "Available documents:" ++ newline ++ newline ++ docList)%string]
      else
        found <- SearchEngine.getDocByPath w resourcePath ;;
        match found with
        | None => throw (Error ("Document not found: " ++ resourcePath)%string)
        | Some d =>
            ret [mkContents uri "text/markdown"
                   ("# " ++ title (metadata d) ++ newline ++ newline
                    ++ content d)%string]
        end
  end.

End Server.

(** ** The vocabulary of the properties

    Module [Spec] holds what the properties are stated with.  The notions
    that follow the words of the specification ([similarity],
    [keywordScore] with [occurrences], [earliestMatch], [window],
    [fallback]) are there to be compared with the embedding of the code
    above; the others name parts of a run of the code (the warnings of a
    rebuild, the provider calls of an embedding pass, the qualifying results
    of a search). *)

Module Spec.

(** The dot product of two vectors, summed from the first component on. *)
Definition dot (a b : list Q) : Q :=
  fold_left (fun acc p => acc + fst p * snd p) (combine a b) 0.

(** The magnitude of a vector. *)
Definition magnitude (w : World) (a : list Q) : Q := sqrt w (dot a a).

(** Cosine similarity: the dot product over the product of the magnitudes,
    and 0 when a magnitude is zero. *)
Definition similarity (w : World) (a b : list Q) : Q :=
  if Qeq_bool (magnitude w a) 0 || Qeq_bool (magnitude w b) 0 then 0
  else dot a b / (magnitude w a * magnitude w b).

(** Fetching and parsing one document of the corpus. *)
Definition fetchParse (w : World) (id : string) : answer ParsedDoc :=
  match readDoc w id with
  | Resolved raw => parseMarkdown w raw id
  | Rejected e => Rejected e
  end.

(** A rebuild inserts the record of every document that can be fetched and
    parsed, keyed by its path, and skips the others. *)
Definition insertDoc (w : World) (mp : JSMap.t) (id : string) : JSMap.t :=
  match fetchParse w id with
  | Resolved d => JSMap.set (path d) d mp
  | Rejected _ => mp
  end.

Definition rebuilt (w : World) (ids : list string) : JSMap.t :=
  fold_left (insertDoc w) ids [].

(** The warning recorded for a document that is skipped. *)
Definition warning (id : string) (e : error) : event :=
  ConsoleWarn ("Failed to index document " ++ id ++ ":")%string e.

(** What one round of the rebuild leaves in the trace, latest first. *)
Definition docEvents (w : World) (id : string) : list event :=
  match readDoc w id with
  | Rejected e => [warning id e; CallReadDoc id]
  | Resolved raw =>
      match parseMarkdown w raw id with
      | Rejected e => [warning id e; CallParseMarkdown id; CallReadDoc id]
      | Resolved _ => [CallParseMarkdown id; CallReadDoc id]
      end
  end.

(** What the provider answers for the text of a record. *)
Definition embeddingOf (w : World) (d : ParsedDoc) : answer (list Q) :=
  runPipeline w (JS.slice (SearchEngine.embeddingText d) 0 2000).

(** A record after a successful round of the embedding pass. *)
Definition embedEntry (w : World) (kd : string * ParsedDoc) : string * ParsedDoc :=
  match embeddingOf w (snd kd) with
  | Resolved v => (fst kd, setEmbedding (snd kd) v)
  | Rejected _ => kd
  end.

(** The provider calls of a pass over [entries], latest first. *)
Definition embedCalls (entries : JSMap.t) : list event :=
  map (fun kd => CallRunPipeline (JS.slice (SearchEngine.embeddingText (snd kd)) 0 2000))
      (rev entries).

(** The combined score of the hybrid mode. *)
Definition hybridScore (keywordScore semanticComponent : Q) : Q :=
  (3 # 10) * (keywordScore / 100) + (7 # 10) * semanticComponent.

(** What a candidate record contributes to the qualifying results of the
    hybrid mode: itself with its combined score when its similarity to the
    query reaches the floor, nothing otherwise. *)
Definition hybridEntry (w : World) (queryEmbedding : list Q)
    (queryTerms : list string) (d : ParsedDoc) : list SearchResult :=
  match SearchEngine.scoreDocument d queryTerms, embedding d with
  | Ok kw, Some e =>
      if Qle_bool (3 # 10) (similarity w queryEmbedding e) then
        [mkSearchResult d (hybridScore kw (similarity w queryEmbedding e))
           (SearchEngine.generateSnippet d queryTerms)]
      else []
  | _, _ => []
  end.

(** What a record contributes to the qualifying results of the keyword
    mode. *)
Definition keywordEntry (sectionFilter : option string)
    (queryTerms : list string) (minScore : Q) (d : ParsedDoc) : list SearchResult :=
  if SearchEngine.filteredOut sectionFilter d then []
  else
    match SearchEngine.scoreDocument d queryTerms with
    | Ok sc =>
        if Qle_bool minScore sc then
          [mkSearchResult d sc (SearchEngine.generateSnippet d queryTerms)]
        else []
    | _ => []
    end.

(** The qualifying results of a search over the index [mp], before they are
    sorted and cut to the limit. *)
Definition qualifying (w : World) (query : string)
    (options : option SearchOptions.t) (mp : JSMap.t) : list SearchResult :=
  if SearchEngine.useSemanticSearchOf options then
    match runPipeline w (JS.slice query 0 2000) with
    | Resolved qe =>
        flat_map (hybridEntry w qe (SearchEngine.queryTermsOf query))
          (SearchEngine.candidates mp (SearchEngine.sectionFilterOf options))
    | Rejected _ => []
    end
  else
    flat_map
      (keywordEntry (SearchEngine.sectionFilterOf options)
         (SearchEngine.queryTermsOf query) (SearchEngine.minScoreOf options))
      (JSMap.values mp).

(** The limit a caller asked for. *)
Definition requestedLimit (options : option SearchOptions.t) : option Q :=
  match options with
  | Some o => SearchOptions.limit o
  | None => None
  end.

(** A term occurs in the body at position [i], letter case apart. *)
Definition occursAt (term body : string) (i : nat) : Prop :=
  substring i (length term) (JS.toLowerCase body) = JS.toLowerCase term.

(** [pos] is the earliest position at which any of the terms occurs. *)
Definition earliestMatch (body : string) (terms : list string) (pos : nat) : Prop :=
  (exists t, In t terms /\ occursAt t body pos)
  /\ forall q t, (q < pos)%nat -> In t terms -> ~ occursAt t body q.

(** No term occurs anywhere in the body. *)
Definition noMatch (body : string) (terms : list string) : Prop :=
  forall t i, In t terms -> ~ occursAt t body i.

(** The window around a match of length [len] at [pos]: 75 characters on
    each side, clamped to the body, with an ellipsis on each side that is
    cut. *)
Definition window (body : string) (pos len : nat) : string :=
  let start := (pos - 75)%nat in
  let stop := Nat.min (length body) (pos + len + 75) in
  ((if (0 <? start)%nat then "..." else "")
   ++ JS.slice body start stop
   ++ (if (stop <? length body)%nat then "..." else ""))%string.

(** The snippet of a record none of whose terms occurs in the body, as the
    specification words it: the description, or without one the first 150
    characters of the body and an ellipsis. *)
Definition fallback (d : ParsedDoc) : string :=
  match description (metadata d) with
  | Some s => s
  | None => (JS.slice (plainText d) 0 150 ++ "...")%string
  end.

(** The same with an empty description counted as absent, which is what
    [description || ...] does. *)
Definition fallbackOrEmpty (d : ParsedDoc) : string :=
  match description (metadata d) with
  | Some s => if JS.truthy s then s else (JS.slice (plainText d) 0 150 ++ "...")%string
  | None => (JS.slice (plainText d) 0 150 ++ "...")%string
  end.

(** A text without whitespace at either end. *)
Definition trimmed (s : string) : Prop :=
  JS.trimStart s = s /\ JS.trimEnd s = s.

(** [text] contains [term], letter case apart. *)
Definition containsIgnoreCase (text term : string) : bool :=
  JS.includes (JS.toLowerCase text) (JS.toLowerCase term).

(** The occurrences of [term] in [text], counted from the left and without
    overlap: after an occurrence the count goes on behind it.  [skip] is the
    number of characters still covered by the occurrence counted last. *)
Fixpoint occurrencesFrom (term text : string) (skip : nat) : nat :=
  match skip with
  | S skip' =>
      match text with
      | String _ text' => occurrencesFrom term text' skip'
      | EmptyString => 0
      end
  | O =>
      if prefix term text then
        S (match text with
           | String _ text' => occurrencesFrom term text' (length term - 1)
           | EmptyString => 0
           end)
      else
        match text with
        | String _ text' => occurrencesFrom term text' 0
        | EmptyString => 0
        end
  end.

(** The number of occurrences of [term] in [text], letter case apart. *)
Definition occurrences (term text : string) : nat :=
  occurrencesFrom (JS.toLowerCase term) (JS.toLowerCase text) 0.

(** The points of one term: 10 for the title, 5 for the path, 3 for the
    description, and a half for each occurrence in the body. *)
Definition termScore (d : ParsedDoc) (term : string) : Q :=
  (if containsIgnoreCase (title (metadata d)) term then 10 else 0)
  + (if containsIgnoreCase (path d) term then 5 else 0)
  + (match description (metadata d) with
     | Some s => if containsIgnoreCase s term then 3 else 0
     | None => 0
     end)
  + (1 # 2) * inject_Z (Z.of_nat (occurrences term (plainText d))).

(** The keyword score of a record for a query: the sum over the terms of
    the query. *)
Definition keywordScore (d : ParsedDoc) (query : string) : Q :=
  fold_right (fun term acc => termScore d term + acc) 0
    (SearchEngine.queryTermsOf query).

(** The points of one term as the code counts them, with the matches of the
    term read as a pattern in place of its occurrences. *)
Definition termScoreByPattern (d : ParsedDoc) (term : string) (regex : RegExp.node) : Q :=
  (if containsIgnoreCase (title (metadata d)) term then 10 else 0)
  + (if containsIgnoreCase (path d) term then 5 else 0)
  + (match description (metadata d) with
     | Some s => if containsIgnoreCase s term then 3 else 0
     | None => 0
     end)
  + (1 # 2)
    * inject_Z
        (Z.of_nat
           (List.length (RegExp.stringMatch (JS.toLowerCase (plainText d)) regex))).

(** A term without any syntax character of the pattern grammar. *)
Fixpoint plain (term : string) : bool :=
  match term with
  | EmptyString => true
  | String c term' => negb (RegExp.isSyntaxChar c) && plain term'
  end.

End Spec.

(** ** States and conditions the statements speak of *)

(** A state with further events on its trace. *)
Definition withTrace (st : state) (events : list event) : state :=
  mkState (documentIndex st) (indexed st) (embeddingsGenerated st)
    (initialized st) (events ++ trace st).

(** The state [initialize] leaves when the model loads. *)
Definition afterInit (st : state) : state :=
  if initialized st then st
  else mkState (documentIndex st) (indexed st) (embeddingsGenerated st) true
         (CallLoadPipeline :: trace st).

(** The provider answers with a vector for every record of [entries]. *)
Definition allResolve (w : World) (entries : JSMap.t) : Prop :=
  Forall (fun kd => exists v, Spec.embeddingOf w (snd kd) = Resolved v) entries.

(** Results in the order of non-increasing score. *)
Definition descending : list SearchResult -> Prop :=
  StronglySorted (fun a b => score b <= score a).

(** The pattern of a term without syntax characters: its characters in
    sequence. *)
Fixpoint literalNode (term : string) : RegExp.node :=
  match term with
  | EmptyString => RegExp.Empty
  | String c term' => RegExp.Seq (RegExp.Char c) (literalNode term')
  end.

(** The terms the parser holds after reading [term], latest first. *)
Fixpoint charTerms (term : string) (ts : list (RegExp.node * bool))
    : list (RegExp.node * bool) :=
  match term with
  | EmptyString => ts
  | String c term' => charTerms term' ((RegExp.Char c, false) :: ts)
  end.

(** What is left of [s] behind the prefix [t]. *)
Fixpoint dropPrefix (t s : string) : option string :=
  match t with
  | EmptyString => Some s
  | String c t' =>
      match s with
      | EmptyString => None
      | String d s' => if Ascii.eqb d c then dropPrefix t' s' else None
      end
  end.

(** The sum of the points of the terms, each read as its pattern. *)
Definition sumByPattern (d : ParsedDoc) (trs : list (string * RegExp.node)) : Q :=
  fold_right (fun tr acc => Spec.termScoreByPattern d (fst tr) (snd tr) + acc) 0 trs.

(** Each term is in lower case and compiles to the pattern beside it. *)
Definition compiled (trs : list (string * RegExp.node)) : Prop :=
  Forall
    (fun tr => JS.toLowerCase (fst tr) = fst tr /\ RegExp.create (fst tr) = Ok (snd tr))
    trs.

(** ** The vocabulary of [cosineSimilarity] on binary64 numbers *)

Module Spec64.

Import PrimFloat.

(** The dot product of two vectors, summed from the first component on,
    every product and every sum rounded. *)
Definition dot (a b : list float) : float :=
  fold_left (fun acc p => acc + fst p * snd p)%float (combine a b) 0%float.

(** The magnitude of a vector. *)
Definition magnitude (a : list float) : float := sqrt (dot a a).

(** Cosine similarity as the specification words it: the dot product over
    the product of the magnitudes, and 0 when a magnitude is zero. *)
Definition similarity (a b : list float) : float :=
  if (magnitude a =? 0)%float || (magnitude b =? 0)%float then 0%float
  else (dot a b / (magnitude a * magnitude b))%float.

(** The number is neither an infinity nor NaN. *)
Definition finite (x : float) : Prop := is_finite x = true.

(** The number is one of the two zeros. *)
Definition zero (x : float) : Prop := (x =? 0)%float = true.

End Spec64.

(** ** A small corpus, for the examples *)

Module Example.

Definition docA : ParsedDoc :=
  mkParsedDoc "learn/a" "learn" (mkDocMetadata "Hooks Guide" None) ""
    "useState stores state" None.

Definition docB : ParsedDoc :=
  mkParsedDoc "learn/b" "learn" (mkDocMetadata "Routing" None) ""
    "no state here" None.

(** A square root that is exact on the squares of rationals. *)
Definition sqrtExact (q : Q) : Q := Z.sqrt (Qnum q) # Pos.sqrt (Qden q).

Definition parse (raw id : string) : answer ParsedDoc :=
  if (id =? "learn/a.md")%string then Resolved docA
  else if (id =? "learn/b.md")%string then Resolved docB
  else Rejected (Error "unparsable").

(** The corpus with a provider that embeds every text as [v]. *)
Definition corpus (v : list Q) : World :=
  mkWorld (Resolved ["learn/a.md"; "learn/b.md"]) (fun id => Resolved id) parse
    (Resolved tt) (fun _ => Resolved v) sqrtExact.

(** The same corpus with a provider that fails on the text of [docB]. *)
Definition failingOnB : World :=
  mkWorld (Resolved ["learn/a.md"; "learn/b.md"]) (fun id => Resolved id) parse
    (Resolved tt)
    (fun text =>
       if JS.includes text "Routing" then Rejected (Error "Model error")
       else Resolved [1; 0])
    sqrtExact.

(** The engine after a first build. *)
Definition built : state := snd (SearchEngine.indexDocuments failingOnB newEngine).

(** The engine after an embedding pass that failed on [docB]. *)
Definition halfEmbedded : state := snd (SearchEngine.generateEmbeddings failingOnB built).

(** The engine after a later pass with a provider that works. *)
Definition embedded : state :=
  snd (SearchEngine.generateEmbeddings (corpus [0; 1]) halfEmbedded).

(** A corpus whose second document cannot be read. *)
Definition flaky : World :=
  mkWorld (Resolved ["learn/a.md"; "broken.md"; "learn/b.md"])
    (fun id =>
       if (id =? "broken.md")%string then Rejected (Error "Read error")
       else Resolved id)
    parse (Resolved tt) (fun _ => Resolved [1; 0]) sqrtExact.

Definition options (limit : option Q) (useSemanticSearch : option bool)
    : option SearchOptions.t :=
  Some (SearchOptions.make None limit None useSemanticSearch).

Definition resultsOf (run : outcome (list SearchResult) * state) : list SearchResult :=
  match fst run with
  | Ok results => results
  | _ => []
  end.

(** A keyword search for [state] with limit 1. *)
Definition keywordLimitOne : outcome (list SearchResult) * state :=
  SearchEngine.search (corpus [1; 0]) "state" (options (Some 1) (Some false)) newEngine.

(** A keyword search for [state] with limit 0. *)
Definition keywordLimitZero : outcome (list SearchResult) * state :=
  SearchEngine.search (corpus [1; 0]) "state" (options (Some 0) (Some false)) newEngine.

(** A hybrid search for [state] with no options. *)
Definition hybridDefault : outcome (list SearchResult) * state :=
  SearchEngine.search (corpus [1; 0]) "state" None newEngine.

(** A hybrid search for [state] with limit 1. *)
Definition hybridLimitOne : outcome (list SearchResult) * state :=
  SearchEngine.search (corpus [1; 0]) "state" (options (Some 1) None) newEngine.

(** A record whose body begins with a space. *)
Definition docSpace : ParsedDoc :=
  mkParsedDoc "learn/s" "learn" (mkDocMetadata "Spaces" None) "" " a" None.

(** A record with an empty description. *)
Definition docEmptyDescription : ParsedDoc :=
  mkParsedDoc "learn/e" "learn" (mkDocMetadata "Empty" (Some "")) "" "xyz" None.

End Example.

(** ** The vocabulary of the further properties *)


(** The calls of the model for [texts], latest first. *)
Definition pipelineCalls (texts : list string) : list event :=
  map (fun text => CallRunPipeline (JS.slice text 0 2000)) (rev texts).

(** The model answers the text [text] with the vector [v]. *)
Definition embedsAs (w : World) (text : string) (v : list Q) : Prop :=
  runPipeline w (JS.slice text 0 2000) = Resolved v.

(** ** The states an engine can be in

    The public methods of [SearchEngine], and the states that calls of them
    lead to from a new engine, one call after the other and each in a world
    of its own.  (Calls that overlap in time are outside the embedding.) *)

Inductive call : Type :=
| IndexDocuments
| GenerateEmbeddings
| SearchFor (query : string) (options : option SearchOptions.t)
| GetDocByPath (p : string)
| GetSections
| GetDocsBySection (sectionName : string).

(** The state a call leaves, whether it returns or throws. *)
Definition stateAfter (w : World) (c : call) (st : state) : state :=
  match c with
  | IndexDocuments => snd (SearchEngine.indexDocuments w st)
  | GenerateEmbeddings => snd (SearchEngine.generateEmbeddings w st)
  | SearchFor query options => snd (SearchEngine.search w query options st)
  | GetDocByPath p => snd (SearchEngine.getDocByPath w p st)
  | GetSections => snd (SearchEngine.getSections st)
  | GetDocsBySection sectionName => snd (SearchEngine.getDocsBySection w sectionName st)
  end.

Inductive reachable : state -> Prop :=
| reachable_new : reachable newEngine
| reachable_call (w : World) (c : call) (st : state) :
    reachable st -> reachable (stateAfter w c st).

(** A computation keeps a property of the state, whether it returns or
    throws. *)
Definition preserves {A : Type} (P : state -> Prop) (c : M A) : Prop :=
  forall st, P st -> P (snd (c st)).

(** The texts handed to the model so far have at most 2000 characters. *)
Definition modelInputsBounded (st : state) : Prop :=
  forall text, In (CallRunPipeline text) (trace st) -> (length text <= 2000)%nat.

(** The number of times the model has been loaded, or this was tried. *)
Definition loads (st : state) : nat :=
  List.length
    (filter (fun ev => match ev with CallLoadPipeline => true | _ => false end)
       (trace st)).

(** An event of the model: loading it, or calling it. *)
Definition modelEvent (ev : event) : bool :=
  match ev with
  | CallLoadPipeline | CallRunPipeline _ => true
  | _ => false
  end.

(** The events of the model on the trace, latest first. *)
Definition modelEvents (st : state) : list event := filter modelEvent (trace st).

(** A call that goes to the hybrid mode or to the embedding pass. *)
Definition usesModel (c : call) : bool :=
  match c with
  | GenerateEmbeddings => true
  | SearchFor _ options => SearchEngine.useSemanticSearchOf options
  | _ => false
  end.

(** Two records that differ at most in their embedding. *)
Definition sameButEmbedding (d d' : ParsedDoc) : Prop :=
  path d = path d' /\ section d = section d' /\ metadata d = metadata d'
  /\ content d = content d' /\ plainText d = plainText d'.

(** Two indexes with the same keys in the same order, whose records differ
    at most in their embeddings. *)
Definition sameIndex (mp mp' : JSMap.t) : Prop :=
  Forall2
    (fun kd kd' => fst kd = fst kd' /\ sameButEmbedding (snd kd) (snd kd'))
    mp mp'.

(** The index is [base] up to embeddings, and the engine is as indexed as
    [ix] says. *)
Definition keepsRecords (base : JSMap.t) (ix : bool) (s : state) : Prop :=
  indexed s = ix /\ sameIndex base (documentIndex s).

(** An index without two entries of one key, each record under its own
    path. *)
Definition wellKeyed (mp : JSMap.t) : Prop :=
  NoDup (map fst mp) /\ Forall (fun kd => fst kd = path (snd kd)) mp.

(** The keyword score of a record for the terms, where [scoreDocument]
    returns one. *)
Definition keywordScoreOf (terms : list string) (d : ParsedDoc) : Q :=
  match SearchEngine.scoreDocument d terms with
  | Ok sc => sc
  | _ => 0
  end.

(** The record passes the section filter and its keyword score reaches the
    minimum score. *)
Definition keywordQualifies (sectionFilter : option string) (minScore : Q)
    (terms : list string) (d : ParsedDoc) : bool :=
  negb (SearchEngine.filteredOut sectionFilter d)
  && Qle_bool minScore (keywordScoreOf terms d).

(** The result the keyword mode builds for a record: the record, its score
    and its snippet. *)
Definition keywordResult (terms : list string) (d : ParsedDoc) : SearchResult :=
  mkSearchResult d (keywordScoreOf terms d) (SearchEngine.generateSnippet d terms).

(** The length of the longest of the terms. *)
Definition longest (terms : list string) : nat :=
  fold_right (fun t n => Nat.max (length t) n) 0%nat terms.

(** A text without a whitespace character. *)
Fixpoint noWhitespace (s : string) : bool :=
  match s with
  | EmptyString => true
  | String c s' => negb (JS.isWhitespace c) && noWhitespace s'
  end.

(** Every character of a text passes a test. *)
Fixpoint allChars (test : ascii -> bool) (s : string) : bool :=
  match s with
  | EmptyString => true
  | String c s' => test c && allChars test s'
  end.

(** Neither a slash nor a backslash. *)
Definition notSlash (c : ascii) : bool :=
  negb (Ascii.eqb c "/") && negb (Ascii.eqb c "\").

(** A text whose only whitespace is single spaces. *)
Fixpoint singleSpaced (s : string) : bool :=
  match s with
  | EmptyString => true
  | String c s' =>
      (negb (JS.isWhitespace c) || (Ascii.eqb c " " && negb (JS.startsWithSpace s')))
      && singleSpaced s'
  end.

(** The libraries of a parser that finds no front matter and no markup. *)
Definition plainLibraries : MarkdownParser.Libraries :=
  MarkdownParser.mkLibraries
    (fun content => Resolved (MarkdownParser.Matter.make None None content))
    (fun markdown => Resolved markdown).

(** A world whose corpus is read as it is listed and parsed by
    [parseMarkdown]. *)
Definition parsedWorld (lib : MarkdownParser.Libraries) (ids : list string) : World :=
  mkWorld (Resolved ids) (fun id => Resolved id) (MarkdownParser.parseMarkdown lib)
    (Resolved tt) (fun _ => Resolved [1; 0]) Example.sqrtExact.

(** A clone that holds [files], with the commit [head] before a pull and
    the commit [headAfterPull] after it. *)
Definition cloneWith (files : list string) (head headAfterPull : string)
    : DocsManager.Disk :=
  DocsManager.mkDisk true (Resolved tt) (Resolved tt) (Resolved head) (Resolved tt)
    (Resolved headAfterPull) (fun _ => true) (Resolved files)
    (fun _ => Resolved files) (fun relativePath => Resolved relativePath).

(** Runs of the engine on the small corpus: a keyword search within the
    section [LEARN], a keyword search with no option but the mode, and a
    look-up of [learn/b.md] on a new engine. *)
Definition keywordInSection : outcome (list SearchResult) * state :=
  SearchEngine.search (Example.corpus [1; 0]) "state"
    (Some (SearchOptions.make (Some "LEARN") None None (Some false))) newEngine.

Definition keywordDefault : outcome (list SearchResult) * state :=
  SearchEngine.search (Example.corpus [1; 0]) "state"
    (Example.options None (Some false)) newEngine.

Definition lookupB : outcome (option ParsedDoc) * state :=
  SearchEngine.getDocByPath (Example.corpus [1; 0]) "learn/b.md" newEngine.

(** * Facts about the runtime *)

Lemma Qeq_bool_mult_zero (x y : Q) :
  Qeq_bool (x * y) 0 = Qeq_bool x 0 || Qeq_bool y 0.
Proof.
  destruct (Qeq_bool x 0) eqn:Hx; destruct (Qeq_bool y 0) eqn:Hy; simpl.
  - apply Qeq_bool_iff. apply Qeq_bool_iff in Hx. rewrite Hx. ring.
  - apply Qeq_bool_iff. apply Qeq_bool_iff in Hx. rewrite Hx. ring.
  - apply Qeq_bool_iff. apply Qeq_bool_iff in Hy. rewrite Hy. ring.
  - apply not_true_is_false. intro H. apply Qeq_bool_iff in H.
    apply Qmult_integral in H. destruct H as [H | H].
    + apply Qeq_bool_iff in H. congruence.
    + apply Qeq_bool_iff in H. congruence.
Qed.

(** * [cosineSimilarity] *)

(** The loop over the indices computes the three sums component by
    component; [pa] and [pb] are the components already passed. *)
Lemma loop_from (a b pa pb : list Q) (acc : EmbeddingService.sums) :
  List.length pa = List.length pb ->
  List.length a = List.length b ->
  fold_left (EmbeddingService.step (pa ++ a) (pb ++ b))
    (seq (List.length pa) (List.length a)) acc
  = EmbeddingService.mkSums
      (fold_left (fun s p => s + fst p * snd p) (combine a b)
         (EmbeddingService.dotProduct acc))
      (fold_left (fun s p => s + fst p * snd p) (combine a a)
         (EmbeddingService.normA acc))
      (fold_left (fun s p => s + fst p * snd p) (combine b b)
         (EmbeddingService.normB acc)).
Proof.
  revert b pa pb acc.
  induction a as [| x a IH]; intros [| y b] pa pb acc Hp Hab;
    simpl in Hab; try discriminate.
  - destruct acc; reflexivity.
  - injection Hab as Hab. simpl seq. simpl fold_left.
    assert (Hx : nth (List.length pa) (pa ++ x :: a) 0 = x) by apply nth_middle.
    assert (Hy : nth (List.length pa) (pb ++ y :: b) 0 = y)
      by (rewrite Hp; apply nth_middle).
    unfold EmbeddingService.step at 2. rewrite Hx, Hy. clear Hx Hy.
    replace (pa ++ x :: a) with ((pa ++ [x]) ++ a)
      by (rewrite <- app_assoc; reflexivity).
    replace (pb ++ y :: b) with ((pb ++ [y]) ++ b)
      by (rewrite <- app_assoc; reflexivity).
    replace (S (List.length pa)) with (List.length (pa ++ [x]))
      by (rewrite length_app; simpl; lia).
    rewrite IH; [simpl; reflexivity | | assumption].
    rewrite !length_app. simpl. lia.
Qed.

Lemma loop_sums (a b : list Q) :
  List.length a = List.length b ->
  EmbeddingService.loop a b
  = EmbeddingService.mkSums (Spec.dot a b) (Spec.dot a a) (Spec.dot b b).
Proof.
  intro H. unfold EmbeddingService.loop.
  apply (loop_from a b [] [] (EmbeddingService.mkSums 0 0 0) eq_refl H).
Qed.

Lemma cosineSimilarity_run (w : World) (a b : list Q) :
  EmbeddingService.cosineSimilarity w a b
  = if (List.length a =? List.length b)%nat
    then Ok (Spec.similarity w a b)
    else Throw (Error "Vectors must have same length").
Proof.
  unfold EmbeddingService.cosineSimilarity, Spec.similarity, Spec.magnitude.
  destruct (List.length a =? List.length b)%nat eqn:Hlen; simpl; [| reflexivity].
  apply Nat.eqb_eq in Hlen. rewrite (loop_sums a b Hlen). simpl.
  rewrite Qeq_bool_mult_zero.
  destruct (Qeq_bool (sqrt w (Spec.dot a a)) 0 || Qeq_bool (sqrt w (Spec.dot b b)) 0);
    reflexivity.
Qed.

(** * [cosineSimilarity] on binary64 numbers *)

Section Binary64Facts.

Import PrimFloat.

(** The loop over the indices computes the three sums component by
    component, in the order of the indices; [pa] and [pb] are the
    components already passed. *)
Lemma loop64_from (a b pa pb : list float) (acc : Binary64.sums) :
  List.length pa = List.length pb ->
  List.length a = List.length b ->
  fold_left (Binary64.step (pa ++ a) (pb ++ b))
    (seq (List.length pa) (List.length a)) acc
  = Binary64.mkSums
      (fold_left (fun s p => s + fst p * snd p)%float (combine a b)
         (Binary64.dotProduct acc))
      (fold_left (fun s p => s + fst p * snd p)%float (combine a a)
         (Binary64.normA acc))
      (fold_left (fun s p => s + fst p * snd p)%float (combine b b)
         (Binary64.normB acc)).
Proof.
  revert b pa pb acc.
  induction a as [| x a IH]; intros [| y b] pa pb acc Hp Hab;
    simpl in Hab; try discriminate.
  - destruct acc; reflexivity.
  - injection Hab as Hab. simpl seq. simpl fold_left.
    assert (Hx : nth (List.length pa) (pa ++ x :: a) nan = x) by apply nth_middle.
    assert (Hy : nth (List.length pa) (pb ++ y :: b) nan = y)
      by (rewrite Hp; apply nth_middle).
    unfold Binary64.step at 2. rewrite Hx, Hy. clear Hx Hy.
    replace (pa ++ x :: a) with ((pa ++ [x]) ++ a)
      by (rewrite <- app_assoc; reflexivity).
    replace (pb ++ y :: b) with ((pb ++ [y]) ++ b)
      by (rewrite <- app_assoc; reflexivity).
    replace (S (List.length pa)) with (List.length (pa ++ [x]))
      by (rewrite length_app; simpl; lia).
    rewrite IH; [simpl; reflexivity | | assumption].
    rewrite !length_app. simpl. lia.
Qed.

Lemma loop64_sums (a b : list float) :
  List.length a = List.length b ->
  Binary64.loop a b
  = Binary64.mkSums (Spec64.dot a b) (Spec64.dot a a) (Spec64.dot b b).
Proof.
  intro H. unfold Binary64.loop.
  apply (loop64_from a b [] [] (Binary64.mkSums 0 0 0) eq_refl H).
Qed.

(** What [cosineSimilarity] computes for vectors of one length. *)
Lemma cosineSimilarity64_run (a b : list float) :
  List.length a = List.length b ->
  Binary64.cosineSimilarity a b
  = Ok (if (Spec64.magnitude a * Spec64.magnitude b =? 0)%float then 0%float
        else (Spec64.dot a b / (Spec64.magnitude a * Spec64.magnitude b))%float).
Proof.
  intro Hlen. unfold Binary64.cosineSimilarity, Spec64.magnitude.
  rewrite (proj2 (Nat.eqb_eq _ _) Hlen). cbn [negb].
  rewrite (loop64_sums a b Hlen). cbn [Binary64.normA Binary64.normB Binary64.dotProduct].
  destruct (sqrt (Spec64.dot a a) * sqrt (Spec64.dot b b) =? 0)%float; reflexivity.
Qed.

(** The two zeros, in the representation of the numbers. *)
Lemma zero_representation (x : float) :
  Spec64.zero x -> exists s, FloatOps.Prim2SF x = SpecFloat.S754_zero s.
Proof.
  unfold Spec64.zero. rewrite FloatAxioms.eqb_spec.
  change (FloatOps.Prim2SF 0%float) with (SpecFloat.S754_zero false).
  destruct (FloatOps.Prim2SF x) as [s | s | | s m e]; try discriminate.
  - intros _. now exists s.
  - destruct s; discriminate.
  - destruct s; discriminate.
Qed.

Lemma representation_zero (x : float) (s : bool) :
  FloatOps.Prim2SF x = SpecFloat.S754_zero s -> Spec64.zero x.
Proof.
  intro H. unfold Spec64.zero. rewrite FloatAxioms.eqb_spec, H. reflexivity.
Qed.

(** A finite number is a zero or has a mantissa and an exponent; the
    others are the infinities and NaN. *)
Lemma finite_representation (x : float) :
  is_finite x
  = match FloatOps.Prim2SF x with
    | SpecFloat.S754_zero _ | SpecFloat.S754_finite _ _ _ => true
    | _ => false
    end.
Proof.
  unfold is_finite, is_nan, is_infinity.
  rewrite !FloatAxioms.eqb_spec, FloatAxioms.abs_spec.
  change (FloatOps.Prim2SF infinity) with (SpecFloat.S754_infinity false).
  destruct (FloatOps.Prim2SF x) as [s | s | | s m e]; try reflexivity.
  - destruct s; reflexivity.
  - unfold SpecFloat.SFeqb, SpecFloat.SFabs, SpecFloat.SFcompare.
    rewrite Z.compare_refl.
    assert (R : PosDef.Pos.compare_cont Eq m m = Eq) by apply Pos.compare_cont_refl.
    rewrite R. destruct s; reflexivity.
Qed.

(** A zero times a finite number is a zero. *)
Lemma zero_times_finite (x y : float) :
  Spec64.zero x -> Spec64.finite y -> Spec64.zero (x * y)%float.
Proof.
  intros Hx Hy. destruct (zero_representation x Hx) as [s Ex].
  unfold Spec64.finite in Hy. rewrite finite_representation in Hy.
  destruct (FloatOps.Prim2SF y) as [t | t | | t m e] eqn:Ey; try discriminate.
  - apply (representation_zero _ (xorb s t)).
    rewrite FloatAxioms.mul_spec, Ex, Ey. reflexivity.
  - apply (representation_zero _ (xorb s t)).
    rewrite FloatAxioms.mul_spec, Ex, Ey. reflexivity.
Qed.

Lemma finite_times_zero (x y : float) :
  Spec64.finite x -> Spec64.zero y -> Spec64.zero (x * y)%float.
Proof.
  intros Hx Hy. destruct (zero_representation y Hy) as [s Ey].
  unfold Spec64.finite in Hx. rewrite finite_representation in Hx.
  destruct (FloatOps.Prim2SF x) as [t | t | | t m e] eqn:Ex; try discriminate.
  - apply (representation_zero _ (xorb t s)).
    rewrite FloatAxioms.mul_spec, Ex, Ey. reflexivity.
  - apply (representation_zero _ (xorb t s)).
    rewrite FloatAxioms.mul_spec, Ex, Ey. reflexivity.
Qed.

(** C4, as the code has it.  The numbers are those of JavaScript: every
    product, sum, root and quotient is the rounded one of binary64, and the
    sums are taken in the order of the indices.  For vectors of unequal
    length [cosineSimilarity] throws at once and returns no score.  For
    vectors of equal length it throws nothing; when their magnitudes are
    finite it returns their dot product divided by the product of their
    magnitudes, except that it returns 0 when that product is zero, as it
    is whenever either vector has zero magnitude. *)
Theorem C4_cosineSimilarity_binary64 (a b : list float) :
  (List.length a <> List.length b ->
   Binary64.cosineSimilarity a b = Throw (Error "Vectors must have same length"))
  /\ (List.length a = List.length b ->
      (exists x, Binary64.cosineSimilarity a b = Ok x)
      /\ (Spec64.finite (Spec64.magnitude a) -> Spec64.finite (Spec64.magnitude b) ->
          Binary64.cosineSimilarity a b
          = Ok (if (Spec64.magnitude a * Spec64.magnitude b =? 0)%float then 0%float
                else (Spec64.dot a b
                      / (Spec64.magnitude a * Spec64.magnitude b))%float)
          /\ (Spec64.zero (Spec64.magnitude a) \/ Spec64.zero (Spec64.magnitude b) ->
              Binary64.cosineSimilarity a b = Ok 0%float))).
Proof.
  split.
  - intro Hlen. unfold Binary64.cosineSimilarity.
    apply Nat.eqb_neq in Hlen. rewrite Hlen. reflexivity.
  - intro Hlen. rewrite (cosineSimilarity64_run a b Hlen).
    split; [eexists; reflexivity |]. intros Ha Hb. split; [reflexivity |].
    intros [Hz | Hz].
    + pose proof (zero_times_finite _ _ Hz Hb) as H.
      unfold Spec64.zero in H. now rewrite H.
    + pose proof (finite_times_zero _ _ Ha Hz) as H.
      unfold Spec64.zero in H. now rewrite H.
Qed.

(** C4 on a vector of zeros and the vector (3, 4): the lengths agree, one
    magnitude is zero, the other is 5, and the similarity is 0. *)
Lemma C4_cosineSimilarity_binary64_witness :
  Spec64.magnitude [0; 0]%float = 0%float
  /\ Spec64.magnitude [3; 4]%float = 5%float
  /\ Binary64.cosineSimilarity [0; 0]%float [3; 4]%float = Ok 0%float.
Proof.
  split; [reflexivity |]. split; [reflexivity |].
  destruct (proj2 (C4_cosineSimilarity_binary64 [0; 0]%float [3; 4]%float) eq_refl)
    as (_ & H).
  destruct (H eq_refl eq_refl) as [_ H0]. apply H0. left. reflexivity.
Defined.

(** C4 as stated fails on the numbers of the code.  The vector (0, 0) has
    zero magnitude, and the squares of (2^600, 0) sum to an infinity: the
    product of the magnitudes is NaN, which is not [=== 0], and the
    similarity is NaN where the claim gives 0.  Besides, the squares of
    (2^-600, 0) are rounded to zero: the similarity of this vector with
    itself is 0, although 2^-600 is not zero and the dot product over the
    product of the magnitudes, which are 2^-600, is 1. *)
Lemma C4_counterexample_overflow :
  List.length [0; 0]%float = List.length [0x1p600; 0]%float
  /\ Spec64.magnitude [0; 0]%float = 0%float
  /\ Spec64.magnitude [0x1p600; 0]%float = infinity
  /\ Spec64.similarity [0; 0]%float [0x1p600; 0]%float = 0%float
  /\ Binary64.cosineSimilarity [0; 0]%float [0x1p600; 0]%float = Ok nan
  /\ Binary64.cosineSimilarity [0; 0]%float [0x1p600; 0]%float
     <> Ok (Spec64.similarity [0; 0]%float [0x1p600; 0]%float)
  /\ (0x1p-600 =? 0)%float = false
  /\ Binary64.cosineSimilarity [0x1p-600; 0]%float [0x1p-600; 0]%float = Ok 0%float.
Proof.
  repeat split; try (vm_compute; reflexivity).
  intro H.
  apply (f_equal (fun o => match o with Ok x => is_nan x | _ => false end)) in H.
  vm_compute in H. discriminate.
Qed.

End Binary64Facts.

(** * [getSections] *)

(** C10. Listing the sections returns the configured list, in its order,
    from any state of the engine and without changing it: no rebuild is
    started, before the first build as well as after any rebuild. *)
Theorem C10_getSections_fixed (w : World) (st : state) :
  SearchEngine.getSections st
  = (Ok ["learn"; "reference"; "blog"; "community"], st)
  /\ fst (SearchEngine.getSections newEngine)
     = Ok ["learn"; "reference"; "blog"; "community"]
  /\ fst (SearchEngine.getSections (snd (SearchEngine.indexDocuments w st)))
     = Ok ["learn"; "reference"; "blog"; "community"].
Proof.
  repeat split.
Qed.

(** * Running the engine's monad *)

Ltac run :=
  unfold bind, ret, throw, read, emit, await, tryCatch, liftOutcome,
    setDocumentIndex, setIndexed, setEmbeddingsGenerated, setInitialized;
  simpl.

Lemma forEach_app {A : Type} (xs ys : list A) (body : A -> M unit) (st : state) :
  forEach (xs ++ ys) body st
  = match forEach xs body st with
    | (Ok _, st') => forEach ys body st'
    | r => r
    end.
Proof.
  revert st. induction xs as [| x xs IH]; intro st; simpl.
  - reflexivity.
  - unfold bind. destruct (body x st) as [[[] | e |] st1]; auto.
Qed.

(** * Strings *)

Lemma length_append (a b : string) :
  length (a ++ b) = (length a + length b)%nat.
Proof.
  induction a as [| c a IH]; simpl; [reflexivity | now rewrite IH].
Qed.

Lemma substring_all (a : string) : substring 0 (length a) a = a.
Proof.
  induction a as [| c a IH]; simpl; [reflexivity | now rewrite IH].
Qed.

Lemma substring_append_take (a b : string) :
  substring 0 (length a) (a ++ b) = a.
Proof.
  induction a as [| c a IH]; simpl.
  - destruct b; reflexivity.
  - now rewrite IH.
Qed.

Lemma substring_append_skip (a b : string) (n : nat) :
  substring (length a) n (a ++ b) = substring 0 n b.
Proof.
  induction a as [| c a IH]; simpl; [reflexivity | exact IH].
Qed.

Lemma endsWith_append (a b : string) : JS.endsWith (a ++ b) b = true.
Proof.
  unfold JS.endsWith. rewrite length_append.
  replace (length a + length b - length b)%nat with (length a) by lia.
  rewrite substring_append_skip, substring_all, String.eqb_refl.
  rewrite andb_true_r. apply Nat.leb_le. lia.
Qed.

Lemma stripMd_append (p : string) : JS.stripMd (p ++ ".md") = p.
Proof.
  unfold JS.stripMd. rewrite endsWith_append, length_append. simpl length.
  replace (length p + 3 - 3)%nat with (length p) by lia.
  apply substring_append_take.
Qed.

Lemma stripMd_plain (p : string) : JS.endsWith p ".md" = false -> JS.stripMd p = p.
Proof.
  intro H. unfold JS.stripMd. now rewrite H.
Qed.

(** * The [Map] *)

Lemma JSMap_get_set_same (k : string) (v : ParsedDoc) (mp : JSMap.t) :
  JSMap.get k (JSMap.set k v mp) = Some v.
Proof.
  induction mp as [| [k0 v0] mp IH]; simpl.
  - now rewrite String.eqb_refl.
  - destruct (k0 =? k)%string eqn:E; simpl; rewrite E; auto.
Qed.

Lemma JSMap_get_set_other (k k' : string) (v : ParsedDoc) (mp : JSMap.t) :
  k' <> k -> JSMap.get k' (JSMap.set k v mp) = JSMap.get k' mp.
Proof.
  intro Hne. induction mp as [| [k0 v0] mp IH]; simpl.
  - apply String.eqb_neq in Hne. now rewrite String.eqb_sym, Hne.
  - destruct (k0 =? k)%string eqn:E; simpl.
    + apply String.eqb_eq in E. subst k0.
      assert (H : (k =? k')%string = false)
        by (rewrite String.eqb_sym; now apply String.eqb_neq).
      now rewrite H.
    + destruct (k0 =? k')%string; auto.
Qed.

Lemma JSMap_get_set (k k' : string) (v : ParsedDoc) (mp : JSMap.t) :
  JSMap.get k' (JSMap.set k v mp)
  = if (k =? k')%string then Some v else JSMap.get k' mp.
Proof.
  destruct (k =? k')%string eqn:E.
  - apply String.eqb_eq in E. subst. apply JSMap_get_set_same.
  - apply JSMap_get_set_other. apply String.eqb_neq in E. congruence.
Qed.

(** * [indexDocuments] *)

Lemma indexOne_run (w : World) (id : string) (st : state) :
  SearchEngine.indexOne w id st
  = (Ok tt,
     mkState (Spec.insertDoc w (documentIndex st) id) (indexed st)
       (embeddingsGenerated st) (initialized st)
       (Spec.docEvents w id ++ trace st)).
Proof.
  unfold SearchEngine.indexOne, Spec.insertDoc, Spec.fetchParse, Spec.docEvents,
    Spec.warning.
  run. destruct (readDoc w id) as [raw | e]; simpl.
  - destruct (parseMarkdown w raw id) as [d | e]; reflexivity.
  - destruct st; reflexivity.
Qed.

Lemma indexLoop_run (w : World) (ids : list string) (st : state) :
  forEach ids (SearchEngine.indexOne w) st
  = (Ok tt,
     mkState (fold_left (Spec.insertDoc w) ids (documentIndex st)) (indexed st)
       (embeddingsGenerated st) (initialized st)
       (flat_map (Spec.docEvents w) (rev ids) ++ trace st)).
Proof.
  revert st. induction ids as [| id ids IH]; intro st.
  - destruct st; reflexivity.
  - simpl forEach. unfold bind. rewrite indexOne_run, IH. simpl.
    rewrite flat_map_app. simpl. rewrite app_nil_r, <- app_assoc. reflexivity.
Qed.

Lemma indexDocuments_run (w : World) (st : state) (ids : list string) :
  getAllDocs w = Resolved ids ->
  SearchEngine.indexDocuments w st
  = (Ok tt,
     mkState (Spec.rebuilt w ids) true (embeddingsGenerated st) (initialized st)
       (flat_map (Spec.docEvents w) (rev ids) ++ CallGetAllDocs :: trace st)).
Proof.
  intro Hall. unfold SearchEngine.indexDocuments.
  unfold bind at 1. unfold setDocumentIndex at 1.
  unfold bind at 1. unfold await. rewrite Hall. run.
  rewrite indexLoop_run. reflexivity.
Qed.

Lemma indexDocuments_rejected (w : World) (st : state) (e : error) :
  getAllDocs w = Rejected e ->
  fst (SearchEngine.indexDocuments w st) = Throw e.
Proof.
  intro Hall. unfold SearchEngine.indexDocuments.
  unfold bind at 1. unfold setDocumentIndex at 1.
  unfold bind at 1. unfold await. rewrite Hall. reflexivity.
Qed.

(** A rebuild leaves the flags of the embedding pass as they were. *)
Lemma indexDocuments_keeps_embedding_flags (w : World) (st : state) (ids : list string) :
  getAllDocs w = Resolved ids ->
  embeddingsGenerated (snd (SearchEngine.indexDocuments w st)) = embeddingsGenerated st
  /\ initialized (snd (SearchEngine.indexDocuments w st)) = initialized st.
Proof.
  intro H. rewrite (indexDocuments_run w st ids H). split; reflexivity.
Qed.

(** Every key of a rebuilt index is the path of its record, and every
    record comes from a document of the listing. *)
Lemma rebuilt_origin (w : World) (ids : list string) (mp : JSMap.t)
    (k : string) (d : ParsedDoc) :
  JSMap.get k (fold_left (Spec.insertDoc w) ids mp) = Some d ->
  JSMap.get k mp = Some d
  \/ (path d = k /\ exists id, In id ids /\ Spec.fetchParse w id = Resolved d).
Proof.
  revert mp. induction ids as [| id ids IH]; intros mp H; simpl in H.
  - now left.
  - apply IH in H. destruct H as [H | (Hk & id' & Hin & Hf)].
    + unfold Spec.insertDoc in H.
      destruct (Spec.fetchParse w id) as [d0 | e] eqn:Hf; [| now left].
      rewrite JSMap_get_set in H.
      destruct (path d0 =? k)%string eqn:E; [| now left].
      injection H as ->. apply String.eqb_eq in E. right. split; [assumption |].
      exists id. split; [now left | assumption].
    + right. split; [assumption |]. exists id'. split; [now right | assumption].
Qed.

(** A key once set stays in the index through the rest of the rebuild. *)
Lemma rebuilt_keeps_key (w : World) (ids : list string) (mp : JSMap.t) (k : string) :
  JSMap.get k mp <> None ->
  JSMap.get k (fold_left (Spec.insertDoc w) ids mp) <> None.
Proof.
  revert mp. induction ids as [| id ids IH]; intros mp H; simpl.
  - assumption.
  - apply IH. unfold Spec.insertDoc.
    destruct (Spec.fetchParse w id) as [d0 | e]; [| assumption].
    rewrite JSMap_get_set. destruct (path d0 =? k)%string; [discriminate | assumption].
Qed.

Lemma rebuilt_has_key (w : World) (ids : list string) (mp : JSMap.t)
    (id : string) (d : ParsedDoc) :
  In id ids -> Spec.fetchParse w id = Resolved d ->
  JSMap.get (path d) (fold_left (Spec.insertDoc w) ids mp) <> None.
Proof.
  revert mp. induction ids as [| id0 ids IH]; intros mp Hin Hf; simpl.
  - contradiction.
  - destruct Hin as [-> | Hin].
    + apply rebuilt_keeps_key. unfold Spec.insertDoc. rewrite Hf.
      rewrite JSMap_get_set_same. discriminate.
    + now apply IH.
Qed.

Lemma docEvents_warning (w : World) (id : string) (e : error) :
  Spec.fetchParse w id = Rejected e ->
  In (Spec.warning id e) (Spec.docEvents w id).
Proof.
  unfold Spec.fetchParse, Spec.docEvents.
  destruct (readDoc w id) as [raw | e0].
  - intro H. rewrite H. now left.
  - intro H. injection H as ->. now left.
Qed.

(** C6. A rebuild first empties the index, so that nothing of the prior
    index survives; it then fetches and parses each listed document and
    inserts the record under its path.  A document whose fetch or parse
    fails is skipped with a warning, and the rebuild still runs to its end
    over the others. *)
Theorem C6_indexDocuments_best_effort (w : World) (st : state) (ids : list string) :
  getAllDocs w = Resolved ids ->
  exists st',
    SearchEngine.indexDocuments w st = (Ok tt, st')
    /\ indexed st' = true
    /\ documentIndex st' = Spec.rebuilt w ids
    /\ (forall k d, JSMap.get k (documentIndex st') = Some d ->
          path d = k /\ exists id, In id ids /\ Spec.fetchParse w id = Resolved d)
    /\ (forall id d, In id ids -> Spec.fetchParse w id = Resolved d ->
          exists d', JSMap.get (path d) (documentIndex st') = Some d'
                     /\ path d' = path d)
    /\ (forall id e, In id ids -> Spec.fetchParse w id = Rejected e ->
          In (Spec.warning id e) (trace st')
          /\ forall mp, Spec.insertDoc w mp id = mp).
Proof.
  intro Hall. eexists. split; [apply (indexDocuments_run w st ids Hall) |].
  simpl. split; [reflexivity |]. split; [reflexivity |].
  assert (Horigin : forall k d, JSMap.get k (Spec.rebuilt w ids) = Some d ->
            path d = k /\ exists id, In id ids /\ Spec.fetchParse w id = Resolved d).
  { intros k d H. apply rebuilt_origin in H. destruct H as [H | H]; [discriminate | exact H]. }
  split; [exact Horigin |]. split.
  - intros id d Hin Hf.
    destruct (JSMap.get (path d) (Spec.rebuilt w ids)) as [d' |] eqn:Hget.
    + exists d'. split; [reflexivity |]. now apply Horigin in Hget.
    + exfalso. revert Hget. now apply (rebuilt_has_key w ids [] id d).
  - intros id e Hin Hf.
    split; [| intro mp; unfold Spec.insertDoc; now rewrite Hf].
    apply in_or_app. left. apply in_flat_map. exists id. split.
    + now apply in_rev in Hin.
    + now apply docEvents_warning.
Qed.

(** * [getDocByPath] *)

(** The implicit rebuild of the read operations. *)
Lemma ensureIndexed_run (w : World) (st : state) :
  indexed st = true \/ (exists ids, getAllDocs w = Resolved ids) ->
  exists st',
    (if indexed st then ret tt else SearchEngine.indexDocuments w) st = (Ok tt, st')
    /\ indexed st' = true
    /\ (indexed st = true -> st' = st).
Proof.
  intros [H | [ids H]].
  - exists st. rewrite H. repeat split; reflexivity.
  - destruct (indexed st) eqn:E.
    + exists st. repeat split; auto.
    + eexists. split; [apply (indexDocuments_run w st ids H) |].
      split; [reflexivity | discriminate].
Qed.

Lemma getDocByPath_run (w : World) (st : state) (p : string) :
  indexed st = true \/ (exists ids, getAllDocs w = Resolved ids) ->
  exists st',
    SearchEngine.getDocByPath w p st
    = (Ok (JSMap.get (JS.stripMd p) (documentIndex st')), st')
    /\ (if indexed st then ret tt else SearchEngine.indexDocuments w) st = (Ok tt, st').
Proof.
  intro H. destruct (ensureIndexed_run w st H) as (st' & Hrun & _ & _).
  exists st'. split; [| exact Hrun].
  unfold SearchEngine.getDocByPath.
  unfold bind at 1. unfold read at 1. unfold bind at 1.
  rewrite Hrun. reflexivity.
Qed.

(** C8, as the code has it.  With the store built, or buildable, a lookup
    never throws: it returns the record stored under the path without its
    trailing [.md], or [null] when there is none.  So for a path [p] that
    does not itself end in [.md], the lookup of [p] with the marker and the
    lookup of [p] without it give the same answer. *)
Theorem C8_getDocByPath_normalizes (w : World) (st : state) (p : string) :
  indexed st = true \/ (exists ids, getAllDocs w = Resolved ids) ->
  JS.endsWith p ".md" = false ->
  SearchEngine.getDocByPath w (p ++ ".md") st = SearchEngine.getDocByPath w p st
  /\ exists st',
       SearchEngine.getDocByPath w p st = (Ok (JSMap.get p (documentIndex st')), st')
       /\ (indexed st = true -> st' = st)
       /\ (JSMap.get p (documentIndex st') = None ->
           fst (SearchEngine.getDocByPath w p st) = Ok None).
Proof.
  intros H Hp. split.
  - unfold SearchEngine.getDocByPath. rewrite stripMd_append, (stripMd_plain p Hp).
    reflexivity.
  - destruct (getDocByPath_run w st p H) as (st' & Hrun & Hens).
    rewrite (stripMd_plain p Hp) in Hrun.
    exists st'. split; [exact Hrun |]. split.
    + intro Hi. rewrite Hi in Hens. unfold ret in Hens. congruence.
    + intro Hnone. rewrite Hrun. simpl. now rewrite Hnone.
Qed.

(** * [generateEmbeddings] *)

Lemma initialize_done (w : World) (st : state) :
  initialized st = true -> EmbeddingService.initialize w st = (Ok tt, st).
Proof.
  intro H. unfold EmbeddingService.initialize. run. now rewrite H.
Qed.

Lemma initialize_loads (w : World) (st : state) :
  initialized st = false -> loadPipeline w = Resolved tt ->
  EmbeddingService.initialize w st
  = (Ok tt,
     mkState (documentIndex st) (indexed st) (embeddingsGenerated st) true
       (CallLoadPipeline :: trace st)).
Proof.
  intros H Hl. unfold EmbeddingService.initialize. run. now rewrite H, Hl.
Qed.

Lemma initialize_fails (w : World) (st : state) (e : error) :
  initialized st = false -> loadPipeline w = Rejected e ->
  EmbeddingService.initialize w st
  = (Throw (Error ("Embedding initialization failed: " ++ message e)),
     withTrace st
       [ConsoleError "Failed to initialize embedding model:" e; CallLoadPipeline]).
Proof.
  intros H Hl. unfold EmbeddingService.initialize. run. now rewrite H, Hl.
Qed.

Lemma generateEmbedding_resolved (w : World) (st : state) (text : string) (v : list Q) :
  initialized st = true ->
  runPipeline w (JS.slice text 0 2000) = Resolved v ->
  EmbeddingService.generateEmbedding w text st
  = (Ok v, withTrace st [CallRunPipeline (JS.slice text 0 2000)]).
Proof.
  intros H Hr. unfold EmbeddingService.generateEmbedding. run. now rewrite H, Hr.
Qed.

Lemma generateEmbedding_rejected (w : World) (st : state) (text : string) (e : error) :
  initialized st = true ->
  runPipeline w (JS.slice text 0 2000) = Rejected e ->
  EmbeddingService.generateEmbedding w text st
  = (Throw (Error ("Embedding generation failed: " ++ message e)),
     withTrace st
       [ConsoleError "Failed to generate embedding:" e;
        CallRunPipeline (JS.slice text 0 2000)]).
Proof.
  intros H Hr. unfold EmbeddingService.generateEmbedding. run. now rewrite H, Hr.
Qed.

(** The loop over the records whose embedding succeeds: each of them gets
    the provider's vector, whatever it carried before. *)
Lemma embedEach_good (w : World) (good rest before : JSMap.t) (st : state) :
  initialized st = true ->
  allResolve w good ->
  documentIndex st = before ++ good ++ rest ->
  SearchEngine.embedEach w before (good ++ rest) st
  = SearchEngine.embedEach w (before ++ map (Spec.embedEntry w) good) rest
      (mkState (before ++ map (Spec.embedEntry w) good ++ rest) (indexed st)
         (embeddingsGenerated st) true (Spec.embedCalls good ++ trace st)).
Proof.
  revert before st. induction good as [| [k d] good IH]; intros before st Hi Hall Hidx.
  - simpl. rewrite app_nil_r. destruct st; simpl in *. now subst.
  - inversion Hall as [| ? ? [v Hv] Hall']; subst. simpl in Hv.
    assert (He : Spec.embedEntry w (k, d) = (k, setEmbedding d v))
      by (unfold Spec.embedEntry; simpl; now rewrite Hv).
    unfold Spec.embeddingOf in Hv.
    simpl app. simpl SearchEngine.embedEach. unfold bind at 1.
    rewrite (generateEmbedding_resolved w st _ v Hi Hv).
    unfold bind at 1. unfold setDocumentIndex at 1.
    rewrite (IH (before ++ [(k, setEmbedding d v)])); [| exact Hi | assumption |].
    + simpl map. rewrite He. unfold Spec.embedCalls. simpl rev.
      rewrite map_app. simpl. rewrite <- !app_assoc. reflexivity.
    + simpl. rewrite <- app_assoc. reflexivity.
Qed.

Lemma initialize_ok (w : World) (st : state) :
  initialized st = true \/ loadPipeline w = Resolved tt ->
  EmbeddingService.initialize w st = (Ok tt, afterInit st).
Proof.
  unfold afterInit. intros [H | H].
  - rewrite H. now apply initialize_done.
  - destruct (initialized st) eqn:E.
    + now apply initialize_done.
    + now apply initialize_loads.
Qed.

Lemma afterInit_fields (st : state) :
  initialized (afterInit st) = true
  /\ documentIndex (afterInit st) = documentIndex st
  /\ embeddingsGenerated (afterInit st) = embeddingsGenerated st
  /\ indexed (afterInit st) = indexed st.
Proof.
  unfold afterInit. destruct (initialized st) eqn:E; simpl; auto.
Qed.

Lemma embedEach_bad (w : World) (good rest before : JSMap.t)
    (bad : string * ParsedDoc) (e : error) (st : state) :
  initialized st = true ->
  allResolve w good ->
  Spec.embeddingOf w (snd bad) = Rejected e ->
  documentIndex st = before ++ good ++ bad :: rest ->
  SearchEngine.embedEach w before (good ++ bad :: rest) st
  = (Throw (Error ("Embedding generation failed: " ++ message e)),
     mkState (before ++ map (Spec.embedEntry w) good ++ bad :: rest) (indexed st)
       (embeddingsGenerated st) true
       ([ConsoleError "Failed to generate embedding:" e;
         CallRunPipeline (JS.slice (SearchEngine.embeddingText (snd bad)) 0 2000)]
        ++ Spec.embedCalls good ++ trace st)).
Proof.
  intros Hi Hall Hbad Hidx.
  rewrite (embedEach_good w good (bad :: rest) before st Hi Hall Hidx).
  destruct bad as [k d]. simpl SearchEngine.embedEach. unfold bind at 1.
  unfold Spec.embeddingOf in Hbad. simpl in Hbad.
  rewrite (generateEmbedding_rejected w _ _ e); [reflexivity | reflexivity | exact Hbad].
Qed.

Lemma generateEmbeddings_done (w : World) (st : state) :
  embeddingsGenerated st = true ->
  SearchEngine.generateEmbeddings w st = (Ok tt, st).
Proof.
  intro H. unfold SearchEngine.generateEmbeddings. run. now rewrite H.
Qed.

Lemma generateEmbeddings_all (w : World) (st : state) :
  embeddingsGenerated st = false ->
  initialized st = true \/ loadPipeline w = Resolved tt ->
  allResolve w (documentIndex st) ->
  SearchEngine.generateEmbeddings w st
  = (Ok tt,
     mkState (map (Spec.embedEntry w) (documentIndex st)) (indexed st) true true
       (Spec.embedCalls (documentIndex st) ++ trace (afterInit st))).
Proof.
  intros Hg Hinit Hall. unfold SearchEngine.generateEmbeddings.
  unfold bind at 1. unfold read at 1. rewrite Hg.
  unfold tryCatch. unfold bind at 1. rewrite (initialize_ok w st Hinit).
  destruct (afterInit_fields st) as (Hi & Hidx & Hgen & Hind).
  unfold bind at 1. unfold read at 1. unfold bind at 1.
  rewrite Hidx.
  rewrite <- (app_nil_r (documentIndex st)) at 1.
  rewrite (embedEach_good w (documentIndex st) [] [] (afterInit st) Hi Hall)
    by (simpl; now rewrite app_nil_r).
  simpl. rewrite app_nil_r, Hind. reflexivity.
Qed.

Lemma generateEmbeddings_aborts (w : World) (st : state) (good rest : JSMap.t)
    (bad : string * ParsedDoc) (e : error) :
  embeddingsGenerated st = false ->
  initialized st = true \/ loadPipeline w = Resolved tt ->
  documentIndex st = good ++ bad :: rest ->
  allResolve w good ->
  Spec.embeddingOf w (snd bad) = Rejected e ->
  SearchEngine.generateEmbeddings w st
  = (Throw (Error ("Embedding generation failed: " ++ message e)),
     mkState (map (Spec.embedEntry w) good ++ bad :: rest) (indexed st) false true
       ([ConsoleError "Failed to generate embeddings:"
           (Error ("Embedding generation failed: " ++ message e));
         ConsoleError "Failed to generate embedding:" e;
         CallRunPipeline (JS.slice (SearchEngine.embeddingText (snd bad)) 0 2000)]
        ++ Spec.embedCalls good ++ trace (afterInit st))).
Proof.
  intros Hg Hinit Hidx0 Hall Hbad. unfold SearchEngine.generateEmbeddings.
  unfold bind at 1. unfold read at 1. rewrite Hg.
  unfold tryCatch. unfold bind at 1. rewrite (initialize_ok w st Hinit).
  destruct (afterInit_fields st) as (Hi & Hidx & Hgen & Hind).
  unfold bind at 1. unfold read at 1. unfold bind at 1.
  rewrite Hidx, Hidx0.
  rewrite (embedEach_bad w good rest [] bad e (afterInit st) Hi Hall Hbad)
    by (simpl; now rewrite Hidx, Hidx0).
  run. rewrite Hind, Hgen, Hg. reflexivity.
Qed.

Lemma generateEmbeddings_init_fails (w : World) (st : state) (e : error) :
  embeddingsGenerated st = false ->
  initialized st = false -> loadPipeline w = Rejected e ->
  exists st',
    SearchEngine.generateEmbeddings w st
    = (Throw (Error ("Embedding initialization failed: " ++ message e)), st')
    /\ embeddingsGenerated st' = false
    /\ documentIndex st' = documentIndex st.
Proof.
  intros Hg Hi Hl. unfold SearchEngine.generateEmbeddings.
  unfold bind at 1. unfold read at 1. rewrite Hg.
  unfold tryCatch. unfold bind at 1. rewrite (initialize_fails w st e Hi Hl).
  run. eexists. split; [reflexivity |]. simpl. auto.
Qed.

(** C5, as the code has it.  After a completed pass a further call changes
    nothing and calls nothing.  Otherwise the pass asks the provider for
    every record of the store in turn, whether or not the record already
    carries an embedding: when every answer arrives, every record carries
    the provider's vector and the pass is complete; at the first failure the
    pass throws that error, the records before the failing one keep their
    new vectors, the failing one and those after it are left as they were,
    and the pass is not complete. *)
Theorem C5_generateEmbeddings_pass (w : World) (st : state) :
  (embeddingsGenerated st = true ->
   SearchEngine.generateEmbeddings w st = (Ok tt, st))
  /\ (embeddingsGenerated st = false ->
      initialized st = true \/ loadPipeline w = Resolved tt ->
      forall good rest : JSMap.t,
        documentIndex st = good ++ rest ->
        allResolve w good ->
        match rest with
        | [] =>
            exists st',
              SearchEngine.generateEmbeddings w st = (Ok tt, st')
              /\ embeddingsGenerated st' = true
              /\ documentIndex st' = map (Spec.embedEntry w) (documentIndex st)
        | bad :: rest' =>
            forall e, Spec.embeddingOf w (snd bad) = Rejected e ->
            exists st',
              SearchEngine.generateEmbeddings w st
              = (Throw (Error ("Embedding generation failed: " ++ message e)), st')
              /\ embeddingsGenerated st' = false
              /\ documentIndex st' = map (Spec.embedEntry w) good ++ bad :: rest'
        end)
  /\ (embeddingsGenerated st = false -> initialized st = false ->
      forall e, loadPipeline w = Rejected e ->
      exists st',
        SearchEngine.generateEmbeddings w st
        = (Throw (Error ("Embedding initialization failed: " ++ message e)), st')
        /\ embeddingsGenerated st' = false
        /\ documentIndex st' = documentIndex st).
Proof.
  split; [apply generateEmbeddings_done |]. split.
  - intros Hg Hinit good rest Hidx Hall. destruct rest as [| bad rest'].
    + rewrite app_nil_r in Hidx. subst good. eexists.
      split; [apply (generateEmbeddings_all w st Hg Hinit Hall) |].
      split; reflexivity.
    + intros e Hbad. eexists.
      split; [apply (generateEmbeddings_aborts w st good rest' bad e Hg Hinit Hidx Hall Hbad) |].
      split; reflexivity.
  - intros Hg Hi e Hl. now apply generateEmbeddings_init_fails.
Qed.

(** C5 on the example corpus: a pass after a completed one leaves the state
    as it is, trace included; a pass with a provider that fails on [docB]
    throws with [docA] embedded and [docB] not; the pass after it succeeds
    and embeds both. *)
Lemma C5_generateEmbeddings_pass_witness :
  (embeddingsGenerated Example.embedded = true
   /\ SearchEngine.generateEmbeddings (Example.corpus [0; 1]) Example.embedded
      = (Ok tt, Example.embedded))
  /\ (embeddingsGenerated Example.built = false
      /\ exists st',
           SearchEngine.generateEmbeddings Example.failingOnB Example.built
           = (Throw (Error "Embedding generation failed: Model error"), st')
           /\ embeddingsGenerated st' = false
           /\ documentIndex st'
              = [("learn/a"%string, setEmbedding Example.docA [1; 0]);
                 ("learn/b"%string, Example.docB)])
  /\ (embeddingsGenerated Example.halfEmbedded = false
      /\ exists st',
           SearchEngine.generateEmbeddings (Example.corpus [0; 1]) Example.halfEmbedded
           = (Ok tt, st')
           /\ embeddingsGenerated st' = true
           /\ documentIndex st'
              = [("learn/a"%string, setEmbedding Example.docA [0; 1]);
                 ("learn/b"%string, setEmbedding Example.docB [0; 1])]).
Proof.
  split; [| split].
  - split; [reflexivity |].
    apply (proj1 (C5_generateEmbeddings_pass (Example.corpus [0; 1]) Example.embedded)).
    reflexivity.
  - split; [reflexivity |].
    destruct (C5_generateEmbeddings_pass Example.failingOnB Example.built) as (_ & H & _).
    assert (Hall : allResolve Example.failingOnB [("learn/a"%string, Example.docA)]).
    { constructor; [| constructor]. exists [1; 0]. reflexivity. }
    destruct (H eq_refl (or_intror eq_refl)
                [("learn/a"%string, Example.docA)] [("learn/b"%string, Example.docB)]
                eq_refl Hall (Error "Model error") eq_refl)
      as (st' & Hrun & Hflag & Hidx).
    exists st'. split; [exact Hrun |]. split; [exact Hflag | exact Hidx].
  - split; [reflexivity |].
    destruct (C5_generateEmbeddings_pass (Example.corpus [0; 1]) Example.halfEmbedded)
      as (_ & H & _).
    assert (Hall : allResolve (Example.corpus [0; 1]) (documentIndex Example.halfEmbedded)).
    { repeat constructor; exists [0; 1]; reflexivity. }
    destruct (H eq_refl (or_introl eq_refl) (documentIndex Example.halfEmbedded) []
                eq_refl Hall)
      as (st' & Hrun & Hflag & Hidx).
    exists st'. split; [exact Hrun |]. split; [exact Hflag | exact Hidx].
Defined.

(** C5 as stated fails: the pass that follows an aborted one embeds again a
    record that already carries an embedding.  [docA] was embedded as
    [[1; 0]] by the pass that failed on [docB]; the next pass calls the
    provider on the text of [docA] once more and replaces its vector. *)
Lemma C5_counterexample_embeds_again :
  JSMap.get "learn/a" (documentIndex Example.halfEmbedded)
  = Some (setEmbedding Example.docA [1; 0])
  /\ embeddingsGenerated Example.halfEmbedded = false
  /\ SearchEngine.generateEmbeddings (Example.corpus [0; 1]) Example.halfEmbedded
     = (Ok tt, Example.embedded)
  /\ JSMap.get "learn/a" (documentIndex Example.embedded)
     = Some (setEmbedding Example.docA [0; 1])
  /\ trace Example.embedded
     = CallRunPipeline (SearchEngine.embeddingText Example.docB)
       :: CallRunPipeline (SearchEngine.embeddingText Example.docA)
       :: trace Example.halfEmbedded
  /\ setEmbedding Example.docA [1; 0] <> setEmbedding Example.docA [0; 1].
Proof.
  repeat split; try reflexivity. discriminate.
Qed.

(** * Sorting and slicing *)

Section SortFacts.
Context {A : Type} (cmp : A -> A -> Q).

Lemma insert_perm (x : A) (l : list A) : Permutation (JS.insert cmp x l) (x :: l).
Proof.
  induction l as [| y l IH]; simpl.
  - apply Permutation_refl.
  - destruct (Qle_bool (cmp x y) 0).
    + apply Permutation_refl.
    + apply perm_trans with (y :: x :: l).
      * now apply perm_skip.
      * apply perm_swap.
Qed.

Lemma sort_perm (l : list A) : Permutation (JS.sort cmp l) l.
Proof.
  induction l as [| x l IH]; simpl.
  - apply perm_nil.
  - apply perm_trans with (x :: JS.sort cmp l).
    + apply insert_perm.
    + now apply perm_skip.
Qed.

Lemma sort_length (l : list A) : List.length (JS.sort cmp l) = List.length l.
Proof. apply Permutation_length, sort_perm. Qed.

Lemma sort_In (l : list A) (x : A) : In x (JS.sort cmp l) <-> In x l.
Proof.
  split; apply Permutation_in; [apply sort_perm | apply Permutation_sym, sort_perm].
Qed.

End SortFacts.

Lemma byScoreDescending_le (a b : SearchResult) :
  Qle_bool (SearchEngine.byScoreDescending a b) 0 = true <-> score b <= score a.
Proof.
  unfold SearchEngine.byScoreDescending. rewrite Qle_bool_iff. split; intro H; lra.
Qed.

Lemma insert_descending (x : SearchResult) (l : list SearchResult) :
  descending l -> descending (JS.insert SearchEngine.byScoreDescending x l).
Proof.
  unfold descending. induction l as [| y l IH]; intro Hs; simpl.
  - constructor; constructor.
  - apply StronglySorted_inv in Hs. destruct Hs as [Hl Hy].
    destruct (Qle_bool (SearchEngine.byScoreDescending x y) 0) eqn:E.
    + apply byScoreDescending_le in E. constructor.
      * constructor; assumption.
      * constructor; [assumption |].
        rewrite Forall_forall in *. intros z Hz. specialize (Hy z Hz). lra.
    + assert (Hlt : score x <= score y).
      { destruct (Qlt_le_dec (score x) (score y)) as [Hlt | Hge]; [lra |].
        apply byScoreDescending_le in Hge. congruence. }
      constructor; [now apply IH |].
      rewrite Forall_forall in *. intros z Hz.
      apply (Permutation_in _ (insert_perm _ x l)) in Hz.
      destruct Hz as [<- | Hz]; [assumption | now apply Hy].
Qed.

Lemma sort_descending (l : list SearchResult) :
  descending (JS.sort SearchEngine.byScoreDescending l).
Proof.
  induction l as [| x l IH]; simpl.
  - constructor.
  - now apply insert_descending.
Qed.

Lemma firstn_In (A : Type) (l : list A) (n : nat) (x : A) :
  In x (firstn n l) -> In x l.
Proof.
  rewrite <- (firstn_skipn n l) at 2. intro H. apply in_or_app. now left.
Qed.

Lemma firstn_descending (n : nat) (l : list SearchResult) :
  descending l -> descending (firstn n l).
Proof.
  unfold descending. revert n. induction l as [| x l IH]; intros n Hs.
  - rewrite firstn_nil. constructor.
  - destruct n as [| n]; simpl; [constructor |].
    apply StronglySorted_inv in Hs. destruct Hs as [Hl Hx].
    constructor; [now apply IH |].
    rewrite Forall_forall in *. intros z Hz. apply Hx.
    revert Hz. apply firstn_In.
Qed.

Lemma toInteger_nonneg (q : Q) : 0 <= q -> JS.toInteger q = Qfloor q /\ (0 <= Qfloor q)%Z.
Proof.
  intro H. unfold JS.toInteger.
  assert (Hb : Qle_bool 0 q = true) by now apply Qle_bool_iff.
  rewrite Hb. split; [reflexivity |].
  apply Qfloor_resp_le in H. exact H.
Qed.

Lemma arraySlice0_firstn {A : Type} (l : list A) (q : Q) :
  exists n, JS.arraySlice0 l q = firstn n l.
Proof. unfold JS.arraySlice0. eexists. reflexivity. Qed.

Lemma arraySlice0_length {A : Type} (l : list A) (q : Q) :
  (List.length (JS.arraySlice0 l q) <= List.length l)%nat.
Proof.
  destruct (arraySlice0_firstn l q) as [n ->]. rewrite length_firstn. lia.
Qed.

Lemma arraySlice0_In {A : Type} (l : list A) (q : Q) (x : A) :
  In x (JS.arraySlice0 l q) -> In x l.
Proof.
  destruct (arraySlice0_firstn l q) as [n ->]. apply firstn_In.
Qed.

(** With a limit that is not negative, no more than the limit is kept. *)
Lemma arraySlice0_bound {A : Type} (l : list A) (q : Q) :
  0 <= q -> inject_Z (Z.of_nat (List.length (JS.arraySlice0 l q))) <= q.
Proof.
  intro H. destruct (toInteger_nonneg q H) as [Hi Hf].
  unfold JS.arraySlice0. rewrite Hi.
  assert (Hlt : (Qfloor q <? 0)%Z = false) by (apply Z.ltb_ge; exact Hf).
  rewrite Hlt. rewrite length_firstn.
  apply Qle_trans with (inject_Z (Qfloor q)); [| apply Qfloor_le].
  rewrite <- Zle_Qle. lia.
Qed.

(** A limit that reaches the length keeps the whole array. *)
Lemma arraySlice0_all {A : Type} (l : list A) (q : Q) :
  inject_Z (Z.of_nat (List.length l)) <= q -> JS.arraySlice0 l q = l.
Proof.
  intro H.
  assert (H0 : 0 <= q).
  { apply Qle_trans with (inject_Z (Z.of_nat (List.length l))); [| exact H].
    change 0 with (inject_Z 0). rewrite <- Zle_Qle. lia. }
  destruct (toInteger_nonneg q H0) as [Hi Hf].
  unfold JS.arraySlice0. rewrite Hi.
  assert (Hlt : (Qfloor q <? 0)%Z = false) by (apply Z.ltb_ge; exact Hf).
  rewrite Hlt. apply Qfloor_resp_le in H. rewrite Qfloor_Z in H.
  apply firstn_all2. lia.
Qed.

Lemma effectiveLimit_requested (o : SearchOptions.t) (l : Q) :
  SearchOptions.limit o = Some l -> 0 < l ->
  SearchEngine.effectiveLimit (Some o) == Qmin l Config.maxLimit
  /\ 0 <= SearchEngine.effectiveLimit (Some o).
Proof.
  intros Hl Hpos. unfold SearchEngine.effectiveLimit. rewrite Hl.
  destruct (Qeq_bool l 0) eqn:E.
  - apply Qeq_bool_iff in E. lra.
  - split; [reflexivity |]. apply Q.min_glb; [lra |]. unfold Config.maxLimit. lra.
Qed.

Lemma effectiveLimit_ceiling (o : SearchOptions.t) (l : Q) :
  SearchOptions.limit o = Some l -> 0 <= l ->
  0 <= SearchEngine.effectiveLimit (Some o)
  /\ SearchEngine.effectiveLimit (Some o) <= Config.maxLimit.
Proof.
  intros Hl Hnn. unfold SearchEngine.effectiveLimit. rewrite Hl.
  split; [| apply Q.le_min_r].
  destruct (Qeq_bool l 0); apply Q.min_glb;
    unfold Config.defaultLimit, Config.maxLimit; lra.
Qed.

Lemma effectiveLimit_default (options : option SearchOptions.t) :
  match options with Some o => SearchOptions.limit o | None => None end = None ->
  SearchEngine.effectiveLimit options = Config.defaultLimit.
Proof.
  intro H. unfold SearchEngine.effectiveLimit.
  destruct options as [o |]; [rewrite H |]; reflexivity.
Qed.

(** * The scoring loops of [search] *)

Lemma keywordLoop_entries (docs : list ParsedDoc) (f : option string)
    (terms : list string) (ms : Q) (acc all : list SearchResult) :
  SearchEngine.keywordLoop docs f terms ms acc = Ok all ->
  all = acc ++ flat_map (Spec.keywordEntry f terms ms) docs.
Proof.
  revert acc. induction docs as [| d docs IH]; intros acc H; simpl in H.
  - injection H as <-. simpl. now rewrite app_nil_r.
  - simpl. unfold Spec.keywordEntry at 1.
    destruct (SearchEngine.filteredOut f d).
    + now apply IH.
    + destruct (SearchEngine.scoreDocument d terms) as [sc | e |]; try discriminate.
      destruct (Qle_bool ms sc).
      * apply IH in H. rewrite H, <- app_assoc. reflexivity.
      * now apply IH.
Qed.

Lemma hybridLoop_entries (w : World) (docs : list ParsedDoc) (qe : list Q)
    (terms : list string) (acc all : list SearchResult) :
  Forall (fun d => embedding d <> None) docs ->
  SearchEngine.hybridLoop w docs qe terms acc = Ok all ->
  all = acc ++ flat_map (Spec.hybridEntry w qe terms) docs
  /\ Forall
       (fun d => exists kw e,
          SearchEngine.scoreDocument d terms = Ok kw /\ embedding d = Some e
          /\ List.length qe = List.length e)
       docs.
Proof.
  revert acc. induction docs as [| d docs IH]; intros acc Hemb H; simpl in H.
  - injection H as <-. simpl. rewrite app_nil_r. split; [reflexivity | constructor].
  - inversion Hemb as [| ? ? Hd Hrest]; subst.
    destruct (SearchEngine.scoreDocument d terms) as [kw | e |] eqn:Hsc; try discriminate.
    destruct (embedding d) as [e |] eqn:He; [| congruence].
    rewrite cosineSimilarity_run in H.
    destruct (List.length qe =? List.length e)%nat eqn:Hlen; [| discriminate].
    apply Nat.eqb_eq in Hlen.
    assert (Hentry : Spec.hybridEntry w qe terms d
                     = if Qle_bool (3 # 10) (Spec.similarity w qe e)
                       then [mkSearchResult d (Spec.hybridScore kw (Spec.similarity w qe e))
                               (SearchEngine.generateSnippet d terms)]
                       else []).
    { unfold Spec.hybridEntry. now rewrite Hsc, He. }
    simpl flat_map. rewrite Hentry.
    change Config.semanticMinSimilarity with (3 # 10) in H.
    destruct (Qle_bool (3 # 10) (Spec.similarity w qe e)).
    + apply IH in H; [| assumption]. destruct H as [-> Hall].
      split; [now rewrite <- app_assoc |].
      constructor; [| assumption]. now exists kw, e.
    + apply IH in H; [| assumption]. destruct H as [-> Hall].
      split; [reflexivity |].
      constructor; [| assumption]. now exists kw, e.
Qed.

Lemma candidates_embedded (mp : JSMap.t) (f : option string) :
  Forall (fun d => embedding d <> None) (SearchEngine.candidates mp f).
Proof.
  apply Forall_forall. intros d Hd. unfold SearchEngine.candidates in Hd.
  apply filter_In in Hd. destruct Hd as [_ Hd].
  destruct (SearchEngine.filteredOut f d); [discriminate |].
  destruct (embedding d); [discriminate | discriminate].
Qed.

(** * [search], read backwards from a result *)

Lemma generateEmbedding_inv (w : World) (text : string) (st st' : state) (v : list Q) :
  EmbeddingService.generateEmbedding w text st = (Ok v, st') ->
  runPipeline w (JS.slice text 0 2000) = Resolved v.
Proof.
  unfold EmbeddingService.generateEmbedding, EmbeddingService.initialize. run.
  destruct (initialized st) eqn:E; simpl.
  - destruct (runPipeline w (JS.slice text 0 2000)) as [v0 | e0]; simpl; intro H;
      [injection H as -> _; reflexivity | discriminate].
  - rewrite E. destruct (loadPipeline w); simpl.
    + destruct (runPipeline w (JS.slice text 0 2000)) as [v0 | e0]; simpl; intro H;
        [injection H as -> _; reflexivity | discriminate].
    + intro H; discriminate.
Qed.

Lemma search_inv (w : World) (query : string) (options : option SearchOptions.t)
    (st st' : state) (results : list SearchResult) :
  SearchEngine.search w query options st = (Ok results, st') ->
  (JS.truthy (JS.trim query) = false /\ results = [])
  \/ (JS.truthy (JS.trim query) = true
      /\ exists all,
           results = JS.arraySlice0 (JS.sort SearchEngine.byScoreDescending all)
                       (SearchEngine.effectiveLimit options)
           /\ if SearchEngine.useSemanticSearchOf options then
                exists qe,
                  runPipeline w (JS.slice query 0 2000) = Resolved qe
                  /\ SearchEngine.hybridLoop w
                       (SearchEngine.candidates (documentIndex st')
                          (SearchEngine.sectionFilterOf options))
                       qe (SearchEngine.queryTermsOf query) [] = Ok all
              else
                SearchEngine.keywordLoop (JSMap.values (documentIndex st'))
                  (SearchEngine.sectionFilterOf options)
                  (SearchEngine.queryTermsOf query)
                  (SearchEngine.minScoreOf options) [] = Ok all).
Proof.
  unfold SearchEngine.search. unfold bind at 1. unfold read at 1.
  unfold bind at 1.
  destruct ((if indexed st then ret tt else SearchEngine.indexDocuments w) st)
    as [[[] | e |] st1]; try discriminate.
  destruct (JS.truthy (JS.trim query)) eqn:Hq; simpl.
  - intro H. right. split; [reflexivity |].
    destruct (SearchEngine.useSemanticSearchOf options).
    + unfold SearchEngine.semanticSearch in H.
      unfold bind at 1 in H. unfold read at 1 in H. unfold bind at 1 in H.
      destruct ((if embeddingsGenerated st1 then ret tt
                 else SearchEngine.generateEmbeddings w) st1)
        as [[[] | e |] st2]; try discriminate.
      unfold bind at 1 in H.
      destruct (EmbeddingService.generateEmbedding w query st2)
        as [[qe | e |] st3] eqn:Hqe; try discriminate.
      apply generateEmbedding_inv in Hqe.
      unfold bind at 1 in H. unfold read at 1 in H.
      unfold bind, liftOutcome, ret in H.
      destruct (SearchEngine.hybridLoop w _ qe _ []) as [all | e |] eqn:Hloop;
        try discriminate.
      injection H as <- <-. exists all. split; [reflexivity |].
      exists qe. split; assumption.
    + unfold SearchEngine.keywordSearch in H.
      unfold bind at 1 in H. unfold read at 1 in H.
      unfold bind, liftOutcome, ret in H.
      destruct (SearchEngine.keywordLoop _ _ _ _ []) as [all | e |] eqn:Hloop;
        try discriminate.
      injection H as <- <-. exists all. split; [reflexivity | assumption].
  - unfold ret. intro H. injection H as <- <-. now left.
Qed.

(** What [search] returns: nothing for a blank query, and otherwise the
    qualifying results, sorted and cut to the limit. *)
Lemma search_qualifying (w : World) (query : string) (options : option SearchOptions.t)
    (st st' : state) (results : list SearchResult) :
  SearchEngine.search w query options st = (Ok results, st') ->
  (JS.truthy (JS.trim query) = false /\ results = [])
  \/ (JS.truthy (JS.trim query) = true
      /\ results
         = JS.arraySlice0
             (JS.sort SearchEngine.byScoreDescending
                (Spec.qualifying w query options (documentIndex st')))
             (SearchEngine.effectiveLimit options)
      /\ (SearchEngine.useSemanticSearchOf options = true ->
          exists qe,
            runPipeline w (JS.slice query 0 2000) = Resolved qe
            /\ Forall
                 (fun d => exists kw e,
                    SearchEngine.scoreDocument d (SearchEngine.queryTermsOf query) = Ok kw
                    /\ embedding d = Some e
                    /\ List.length qe = List.length e)
                 (SearchEngine.candidates (documentIndex st')
                    (SearchEngine.sectionFilterOf options)))).
Proof.
  intro H. apply search_inv in H. destruct H as [H | (Hq & all & Hres & Hloop)].
  - now left.
  - right. split; [assumption |]. unfold Spec.qualifying.
    destruct (SearchEngine.useSemanticSearchOf options).
    + destruct Hloop as (qe & Hqe & Hloop). rewrite Hqe.
      apply hybridLoop_entries in Hloop; [| apply candidates_embedded].
      destruct Hloop as [Hall Hdocs]. simpl in Hall. subst all.
      split; [assumption |]. intros _. exists qe. now split.
    + apply keywordLoop_entries in Hloop. simpl in Hloop. subst all.
      split; [assumption | discriminate].
Qed.

(** C3, as the code has it.  Whatever [search] returns, in either mode, is
    sorted by score in non-increasing order and holds no more results than
    there are qualifying documents.  It holds no more than
    min(limit, 50) results when the caller asks for a positive limit, no
    more than 10 when the caller names no limit, and no more than 50 for
    every requested limit that is not negative. *)
Theorem C3_search_bounded_sorted (w : World) (query : string)
    (options : option SearchOptions.t) (st st' : state)
    (results : list SearchResult) :
  SearchEngine.search w query options st = (Ok results, st') ->
  (forall l, Spec.requestedLimit options = Some l -> 0 < l ->
     inject_Z (Z.of_nat (List.length results)) <= Qmin l Config.maxLimit)
  /\ (Spec.requestedLimit options = None ->
      inject_Z (Z.of_nat (List.length results)) <= Config.defaultLimit)
  /\ (forall l, Spec.requestedLimit options = Some l -> 0 <= l ->
        inject_Z (Z.of_nat (List.length results)) <= Config.maxLimit)
  /\ (List.length results
      <= List.length (Spec.qualifying w query options (documentIndex st')))%nat
  /\ descending results.
Proof.
  intro H. apply search_qualifying in H.
  destruct H as [[_ ->] | (_ & -> & _)].
  - change (inject_Z (Z.of_nat (List.length (@nil SearchResult)))) with 0.
    split; [| split; [| split; [| split]]].
    + intros l _ Hl. apply Q.min_glb; [lra | unfold Config.maxLimit; lra].
    + intros _. unfold Config.defaultLimit. lra.
    + intros l _ _. unfold Config.maxLimit. lra.
    + simpl. lia.
    + constructor.
  - split; [| split; [| split; [| split]]].
    + intros l Hl Hpos. destruct options as [o |]; [| discriminate].
      simpl in Hl. destruct (effectiveLimit_requested o l Hl Hpos) as [Heq Hnn].
      rewrite <- Heq. now apply arraySlice0_bound.
    + intro Hl. rewrite (effectiveLimit_default options Hl).
      apply arraySlice0_bound. unfold Config.defaultLimit. lra.
    + intros l Hl Hnn. destruct options as [o |]; [| discriminate].
      simpl in Hl. destruct (effectiveLimit_ceiling o l Hl Hnn) as [H0 H50].
      eapply Qle_trans; [apply arraySlice0_bound; exact H0 | exact H50].
    + eapply Nat.le_trans; [apply arraySlice0_length |]. rewrite sort_length. lia.
    + destruct (arraySlice0_firstn
                  (JS.sort SearchEngine.byScoreDescending
                     (Spec.qualifying w query options (documentIndex st')))
                  (SearchEngine.effectiveLimit options)) as [n ->].
      apply firstn_descending, sort_descending.
Qed.

Lemma hybridEntry_In (w : World) (qe : list Q) (terms : list string)
    (d : ParsedDoc) (r : SearchResult) :
  In r (Spec.hybridEntry w qe terms d) ->
  doc r = d
  /\ exists kw e,
       SearchEngine.scoreDocument d terms = Ok kw /\ embedding d = Some e
       /\ (3 # 10) <= Spec.similarity w qe e
       /\ score r = Spec.hybridScore kw (Spec.similarity w qe e).
Proof.
  unfold Spec.hybridEntry.
  destruct (SearchEngine.scoreDocument d terms) as [kw | |]; try contradiction.
  destruct (embedding d) as [e |]; try contradiction.
  destruct (Qle_bool (3 # 10) (Spec.similarity w qe e)) eqn:Hfloor; try contradiction.
  intros [<- | []]. simpl. split; [reflexivity |].
  exists kw, e. apply Qle_bool_iff in Hfloor. auto.
Qed.



(** * The search properties on the example corpus *)

(** C3 on a keyword search with limit 1: one result of the two qualifying
    records. *)
Lemma C3_search_bounded_sorted_witness :
  Example.keywordLimitOne
  = (Ok (Example.resultsOf Example.keywordLimitOne), snd Example.keywordLimitOne)
  /\ inject_Z (Z.of_nat (List.length (Example.resultsOf Example.keywordLimitOne)))
     <= Qmin 1 Config.maxLimit
  /\ descending (Example.resultsOf Example.keywordLimitOne).
Proof.
  assert (H : SearchEngine.search (Example.corpus [1; 0]) "state"
                (Example.options (Some 1) (Some false)) newEngine
              = (Ok (Example.resultsOf Example.keywordLimitOne),
                 snd Example.keywordLimitOne))
    by (vm_compute; reflexivity).
  split; [exact H |].
  destruct (C3_search_bounded_sorted _ _ _ _ _ _ H) as (Hlimit & _ & _ & _ & Hsorted).
  split; [| exact Hsorted].
  apply (Hlimit 1); [reflexivity | reflexivity].
Defined.

(** C3 as stated fails: with the requested limit 0 the search returns both
    qualifying records, more than min(0, 50). *)
Lemma C3_counterexample_limit_zero :
  exists results st',
    SearchEngine.search (Example.corpus [1; 0]) "state"
      (Example.options (Some 0) (Some false)) newEngine
    = (Ok results, st')
    /\ List.length results = 2%nat
    /\ ~ inject_Z (Z.of_nat (List.length results)) <= Qmin 0 Config.maxLimit.
Proof.
  eexists. eexists. split; [vm_compute; reflexivity |].
  split; [reflexivity |]. vm_compute. intro H. apply H. reflexivity.
Qed.



(** C6 on a corpus whose second document cannot be read: the rebuild
    completes with the two others and a warning for the broken one. *)
Lemma C6_indexDocuments_best_effort_witness :
  getAllDocs Example.flaky = Resolved ["learn/a.md"; "broken.md"; "learn/b.md"]
  /\ exists st',
       SearchEngine.indexDocuments Example.flaky Example.embedded = (Ok tt, st')
       /\ indexed st' = true
       /\ documentIndex st' = [("learn/a", Example.docA); ("learn/b", Example.docB)]
       /\ In (Spec.warning "broken.md" (Error "Read error")) (trace st').
Proof.
  split; [reflexivity |].
  destruct (C6_indexDocuments_best_effort Example.flaky Example.embedded
              ["learn/a.md"; "broken.md"; "learn/b.md"] eq_refl)
    as (st' & Hrun & Hi & Hidx & _ & _ & Hwarn).
  exists st'. split; [exact Hrun |]. split; [exact Hi |]. split; [exact Hidx |].
  apply (Hwarn "broken.md" (Error "Read error")); [simpl; auto | reflexivity].
Defined.

(** C8 on the built example store: [learn/a.md] and [learn/a] give the same
    record. *)
Lemma C8_getDocByPath_normalizes_witness :
  indexed Example.built = true
  /\ JS.endsWith "learn/a" ".md" = false
  /\ SearchEngine.getDocByPath (Example.corpus [1; 0]) "learn/a.md" Example.built
     = SearchEngine.getDocByPath (Example.corpus [1; 0]) "learn/a" Example.built.
Proof.
  split; [reflexivity |]. split; [reflexivity |].
  apply (C8_getDocByPath_normalizes (Example.corpus [1; 0]) Example.built "learn/a"
           (or_introl eq_refl) eq_refl).
Defined.

(** C8 as stated fails for a path that itself ends in the marker: the store
    holds the record [learn/a], the lookup of [learn/a.md] finds it, and the
    lookup of that path with the marker, [learn/a.md.md], finds nothing. *)
Lemma C8_counterexample_double_marker :
  SearchEngine.getDocByPath (Example.corpus [1; 0]) "learn/a.md" Example.built
  = (Ok (Some Example.docA), Example.built)
  /\ SearchEngine.getDocByPath (Example.corpus [1; 0]) ("learn/a.md" ++ ".md")
       Example.built
     = (Ok None, Example.built).
Proof.
  split; reflexivity.
Qed.


(** * [generateSnippet] *)

Lemma toLowerCase_length (s : string) : length (JS.toLowerCase s) = length s.
Proof.
  induction s as [| c s IH]; simpl; [reflexivity | now rewrite IH].
Qed.

Lemma index_empty (s : string) : index 0 "" s = Some 0%nat.
Proof. destruct s; reflexivity. Qed.

(** [indexOf] finds the first occurrence. *)
Lemma index_first (t s : string) (q : nat) :
  substring q (length t) s = t ->
  exists p, index 0 t s = Some p /\ (p <= q)%nat.
Proof.
  intro Hocc. destruct (index 0 t s) as [p |] eqn:Hidx.
  - exists p. split; [reflexivity |].
    destruct (le_lt_dec p q) as [Hle | Hlt]; [assumption |].
    exfalso. apply (index_correct2 0 p t s Hidx q); [lia | assumption | assumption].
  - exfalso. destruct t as [| c t].
    + rewrite index_empty in Hidx. discriminate.
    + apply (index_correct3 0 q (String c t) s Hidx); [discriminate | lia | assumption].
Qed.

Lemma indexOf_cases (s t : string) :
  (JS.indexOf s t = (-1)%Z /\ index 0 t s = None)
  \/ (exists p, JS.indexOf s t = Z.of_nat p /\ index 0 t s = Some p).
Proof.
  unfold JS.indexOf. destruct (index 0 t s) as [p |].
  - right. now exists p.
  - now left.
Qed.

(** The loop of [generateSnippet] keeps the term whose first occurrence is
    the earliest, and of several such terms the first in the list. *)
Lemma firstMatch_keeps (text : string) (terms : list string) (fmi : Z) (mt : string)
    (fmi' : Z) (mt' : string) :
  (-1 <= fmi)%Z ->
  SearchEngine.firstMatch text terms fmi mt = (fmi', mt') ->
  (fmi' = fmi /\ mt' = mt
   /\ forall t q, In t terms -> index 0 t (JS.toLowerCase text) = Some q ->
        fmi <> (-1)%Z /\ (fmi <= Z.of_nat q)%Z)
  \/ (exists before t after p,
        terms = before ++ t :: after
        /\ index 0 t (JS.toLowerCase text) = Some p
        /\ fmi' = Z.of_nat p /\ mt' = t
        /\ (fmi = (-1)%Z \/ (Z.of_nat p < fmi)%Z)
        /\ (forall u q, In u before -> index 0 u (JS.toLowerCase text) = Some q ->
              (p < q)%nat)
        /\ (forall u q, In u after -> index 0 u (JS.toLowerCase text) = Some q ->
              (p <= q)%nat)).
Proof.
  revert fmi mt. induction terms as [| t0 rest IH]; intros fmi mt Hfmi H.
  - simpl in H. injection H as <- <-. left.
    split; [reflexivity |]. split; [reflexivity |]. intros t q [].
  - simpl in H.
    destruct (indexOf_cases (JS.toLowerCase text) t0) as [[Hi Hnone] | (p0 & Hi & Hsome)];
      rewrite Hi in H.
    + (* the term does not occur: the loop goes on unchanged *)
      simpl in H. apply IH in H; [| assumption].
      destruct H as [(-> & -> & Hall) | (before & t & after & p & -> & Hidx & -> & -> & Hlt & Hb & Ha)].
      * left. split; [reflexivity |]. split; [reflexivity |].
        intros t q [<- | Hin] Hq; [congruence | now apply (Hall t q)].
      * right. exists (t0 :: before), t, after, p.
        split; [reflexivity |]. split; [assumption |]. split; [reflexivity |].
        split; [reflexivity |]. split; [assumption |]. split; [| assumption].
        intros u q [<- | Hin] Hq; [congruence | now apply (Hb u q)].
    + destruct (negb (Z.of_nat p0 =? -1)%Z
                && ((fmi =? -1)%Z || (Z.of_nat p0 <? fmi)%Z)) eqn:Hupd.
      * (* the term becomes the match *)
        apply andb_true_iff in Hupd. destruct Hupd as [_ Hupd].
        assert (Hbetter : fmi = (-1)%Z \/ (Z.of_nat p0 < fmi)%Z).
        { apply orb_true_iff in Hupd. destruct Hupd as [Hu | Hu];
            [left; now apply Z.eqb_eq | right; now apply Z.ltb_lt]. }
        apply IH in H; [| lia].
        destruct H as [(-> & -> & Hall) | (before & t & after & p & -> & Hidx & -> & -> & Hlt & Hb & Ha)].
        -- right. exists [], t0, rest, p0.
           split; [reflexivity |]. split; [assumption |]. split; [reflexivity |].
           split; [reflexivity |]. split; [assumption |]. split.
           ++ intros u q [].
           ++ intros u q Hin Hq. destruct (Hall u q Hin Hq). lia.
        -- right. exists (t0 :: before), t, after, p.
           assert (Hp : (p < p0)%nat) by (destruct Hlt; lia).
           split; [reflexivity |]. split; [assumption |]. split; [reflexivity |].
           split; [reflexivity |]. split; [| split; [| assumption]].
           ++ destruct Hbetter; [now left | right; lia].
           ++ intros u q [<- | Hin] Hq; [| now apply (Hb u q)].
              assert (q = p0) by congruence. lia.
      * (* an earlier match stays *)
        assert (Hkeep : fmi <> (-1)%Z /\ (fmi <= Z.of_nat p0)%Z).
        { apply andb_false_iff in Hupd. destruct Hupd as [Hu | Hu].
          - apply negb_false_iff, Z.eqb_eq in Hu. lia.
          - apply orb_false_iff in Hu. destruct Hu as [Hu1 Hu2].
            apply Z.eqb_neq in Hu1. apply Z.ltb_ge in Hu2. split; assumption. }
        apply IH in H; [| assumption].
        destruct H as [(-> & -> & Hall) | (before & t & after & p & -> & Hidx & -> & -> & Hlt & Hb & Ha)].
        -- left. split; [reflexivity |]. split; [reflexivity |].
           intros t q [<- | Hin] Hq; [| now apply (Hall t q)].
           assert (q = p0) by congruence. subst q. exact Hkeep.
        -- right. exists (t0 :: before), t, after, p.
           split; [reflexivity |]. split; [assumption |]. split; [reflexivity |].
           split; [reflexivity |]. split; [assumption |]. split; [| assumption].
           intros u q [<- | Hin] Hq; [| now apply (Hb u q)].
           assert (q = p0) by congruence. destruct Hlt; lia.
Qed.

Lemma append_empty_r (s : string) : (s ++ "")%string = s.
Proof.
  induction s as [| c s IH]; simpl; [reflexivity | now rewrite IH].
Qed.

Lemma generateSnippet_match (d : ParsedDoc) (terms : list string) (p : nat) (t : string) :
  SearchEngine.firstMatch (plainText d) terms (-1) "" = (Z.of_nat p, t) ->
  SearchEngine.generateSnippet d terms
  = JS.trim (Spec.window (plainText d) p (length t)).
Proof.
  intro H. unfold SearchEngine.generateSnippet. rewrite H.
  assert (Hne : (Z.of_nat p =? -1)%Z = false) by (apply Z.eqb_neq; lia).
  rewrite Hne. unfold Spec.window, SearchEngine.contextRadius. cbv zeta.
  set (len := length (plainText d)).
  assert (Hstart : Z.to_nat (Z.max 0 (Z.of_nat p - 75)) = (p - 75)%nat) by lia.
  assert (Hstop : Z.to_nat (Z.min (Z.of_nat len) (Z.of_nat p + Z.of_nat (length t) + 75))
                  = Nat.min len (p + length t + 75)) by lia.
  rewrite Hstart, Hstop.
  assert (Hpre : (0 <? Z.max 0 (Z.of_nat p - 75))%Z = (0 <? p - 75)%nat).
  { destruct (0 <? p - 75)%nat eqn:E.
    - apply Nat.ltb_lt in E. apply Z.ltb_lt. lia.
    - apply Nat.ltb_ge in E. apply Z.ltb_ge. lia. }
  assert (Hpost : (Z.min (Z.of_nat len) (Z.of_nat p + Z.of_nat (length t) + 75)
                   <? Z.of_nat len)%Z
                  = (Nat.min len (p + length t + 75) <? len)%nat).
  { destruct (Nat.min len (p + length t + 75) <? len)%nat eqn:E.
    - apply Nat.ltb_lt in E. apply Z.ltb_lt. lia.
    - apply Nat.ltb_ge in E. apply Z.ltb_ge. lia. }
  rewrite Hpre, Hpost.
  destruct (0 <? p - 75)%nat; destruct (Nat.min len (p + length t + 75) <? len)%nat;
    simpl; rewrite ?append_empty_r; reflexivity.
Qed.

Lemma generateSnippet_nomatch (d : ParsedDoc) (terms : list string) (mt : string) :
  SearchEngine.firstMatch (plainText d) terms (-1) "" = ((-1)%Z, mt) ->
  SearchEngine.generateSnippet d terms = Spec.fallbackOrEmpty d.
Proof.
  intro H. unfold SearchEngine.generateSnippet. rewrite H. reflexivity.
Qed.

(** An occurrence of a lower-case term is an occurrence in the lower-cased
    body, and [indexOf] finds the first one. *)
Lemma occursAt_index (t body : string) (q : nat) :
  JS.toLowerCase t = t -> Spec.occursAt t body q ->
  exists p, index 0 t (JS.toLowerCase body) = Some p /\ (p <= q)%nat.
Proof.
  unfold Spec.occursAt. intros Hlow Hocc. rewrite Hlow in Hocc.
  now apply index_first.
Qed.

Lemma index_occursAt (t body : string) (p : nat) :
  JS.toLowerCase t = t -> index 0 t (JS.toLowerCase body) = Some p ->
  Spec.occursAt t body p.
Proof.
  unfold Spec.occursAt. intros Hlow Hidx. rewrite Hlow.
  now apply (index_correct1 0 p).
Qed.

(** What [generateSnippet] returns, from the occurrences of the terms. *)
Lemma generateSnippet_cases (d : ParsedDoc) (terms : list string) :
  Forall (fun t => JS.toLowerCase t = t) terms ->
  (Spec.noMatch (plainText d) terms
   /\ SearchEngine.generateSnippet d terms = Spec.fallbackOrEmpty d)
  \/ (exists before t after pos,
        terms = before ++ t :: after
        /\ Spec.earliestMatch (plainText d) terms pos
        /\ Spec.occursAt t (plainText d) pos
        /\ (forall u, In u before -> ~ Spec.occursAt u (plainText d) pos)
        /\ SearchEngine.generateSnippet d terms
           = JS.trim (Spec.window (plainText d) pos (length t))).
Proof.
  intro Hlow. rewrite Forall_forall in Hlow.
  destruct (SearchEngine.firstMatch (plainText d) terms (-1) "") as [fmi mt] eqn:Hfm.
  pose proof (firstMatch_keeps _ _ _ _ _ _ (Z.le_refl (-1)) Hfm) as Hk.
  destruct Hk as [(-> & -> & Hall) | (before & t & after & p & Hterms & Hidx & -> & -> & _ & Hb & Ha)].
  - left. split; [| now apply (generateSnippet_nomatch d terms "")].
    intros t i Hin Hocc.
    destruct (occursAt_index t _ i (Hlow t Hin) Hocc) as (p & Hp & _).
    destruct (Hall t p Hin Hp) as [Hne _]. now apply Hne.
  - right. exists before, t, after, p.
    assert (Hin : In t terms) by (rewrite Hterms; apply in_or_app; right; now left).
    assert (Hocc : Spec.occursAt t (plainText d) p)
      by (apply index_occursAt; [now apply Hlow | assumption]).
    split; [assumption |]. split; [| split; [assumption | split]].
    + split; [now exists t |].
      intros q u Hq Hu Hoccu.
      destruct (occursAt_index u _ q (Hlow u Hu) Hoccu) as (p' & Hp' & Hle).
      rewrite Hterms in Hu. apply in_app_or in Hu. destruct Hu as [Hu | [<- | Hu]].
      * specialize (Hb u p' Hu Hp'). lia.
      * assert (p' = p) by congruence. lia.
      * specialize (Ha u p' Hu Hp'). lia.
    + intros u Hu Hoccu.
      assert (Hu' : In u terms) by (rewrite Hterms; apply in_or_app; now left).
      destruct (occursAt_index u _ p (Hlow u Hu') Hoccu) as (p' & Hp' & Hle).
      specialize (Hb u p' Hu Hp'). lia.
    + now apply generateSnippet_match.
Qed.

(** ** Trimming changes nothing in the window of a trimmed body *)

Lemma trimStart_length (s : string) : (length (JS.trimStart s) <= length s)%nat.
Proof.
  induction s as [| c s IH]; simpl; [lia |].
  destruct (JS.isWhitespace c); simpl; lia.
Qed.

Lemma trimStart_head (c : ascii) (s : string) :
  JS.trimStart (String c s) = String c s -> JS.isWhitespace c = false.
Proof.
  simpl. destruct (JS.isWhitespace c); [| reflexivity].
  intro H. pose proof (trimStart_length s) as Hl. rewrite H in Hl. simpl in Hl. lia.
Qed.

Lemma trimEnd_length (s : string) : (length (JS.trimEnd s) <= length s)%nat.
Proof.
  induction s as [| c s IH]; simpl; [lia |].
  destruct (JS.trimEnd s); [destruct (JS.isWhitespace c) |]; simpl in *; lia.
Qed.

Lemma trimEnd_append (a b : string) :
  JS.trimEnd b <> "" -> JS.trimEnd (a ++ b) = (a ++ JS.trimEnd b)%string.
Proof.
  intro Hb. induction a as [| c a IH]; simpl; [reflexivity |].
  rewrite IH. destruct (a ++ JS.trimEnd b)%string eqn:E; [| reflexivity].
  destruct a; simpl in E; [contradiction | discriminate].
Qed.

Lemma trimEnd_blank_append (a b : string) :
  JS.trimEnd b = "" -> JS.trimEnd (a ++ b) = JS.trimEnd a.
Proof.
  intro Hb. induction a as [| c a IH]; simpl; [assumption | now rewrite IH].
Qed.

Lemma append_inv_head (a x y : string) : (a ++ x)%string = (a ++ y)%string -> x = y.
Proof.
  induction a as [| c a IH]; simpl; intro H; [assumption |].
  injection H as H. now apply IH.
Qed.

Lemma trimEnd_append_fixed (a b : string) :
  JS.trimEnd b = b -> b <> "" -> JS.trimEnd (a ++ b) = (a ++ b)%string.
Proof.
  intros Hb Hne. rewrite trimEnd_append; rewrite Hb; [reflexivity | assumption].
Qed.

Lemma trimEnd_suffix (a b : string) :
  JS.trimEnd (a ++ b) = (a ++ b)%string -> JS.trimEnd b = b.
Proof.
  intro H. destruct (JS.trimEnd b) as [| c t] eqn:E.
  - destruct b as [| c b]; [reflexivity |]. exfalso.
    rewrite (trimEnd_blank_append a _ E) in H.
    pose proof (trimEnd_length a) as Hl. rewrite H, length_append in Hl.
    simpl in Hl. lia.
  - rewrite trimEnd_append in H by (rewrite E; discriminate).
    rewrite E in H. apply append_inv_head in H. now rewrite H.
Qed.

Lemma substring_split (s : string) (n : nat) :
  s = (substring 0 n s ++ substring n (length s - n) s)%string.
Proof.
  revert n. induction s as [| c s IH]; intro n.
  - destruct n; reflexivity.
  - destruct n as [| n]; simpl.
    + now rewrite substring_all.
    + now rewrite <- IH.
Qed.

Lemma window_trimmed (body : string) (pos len : nat) :
  Spec.trimmed body -> JS.trim (Spec.window body pos len) = Spec.window body pos len.
Proof.
  intros [Hs He]. unfold JS.trim.
  assert (Hstart : JS.trimStart (Spec.window body pos len) = Spec.window body pos len).
  { unfold Spec.window. cbv zeta. destruct (0 <? pos - 75)%nat eqn:Epre; [reflexivity |].
    apply Nat.ltb_ge in Epre. replace (pos - 75)%nat with 0%nat by lia.
    unfold JS.slice. rewrite Nat.sub_0_r. simpl append.
    destruct body as [| c body].
    - simpl. reflexivity.
    - apply trimStart_head in Hs.
      destruct (Nat.min (length (String c body)) (pos + len + 75)) as [| n] eqn:En.
      + change (length (String c body)) with (S (length body)) in En. lia.
      + simpl. now rewrite Hs. }
  rewrite Hstart. unfold Spec.window. cbv zeta.
  set (start := (pos - 75)%nat).
  set (stop := Nat.min (length body) (pos + len + 75)).
  set (pre := if (0 <? start)%nat then "..." else "").
  assert (Hpre : JS.trimEnd pre = pre) by (unfold pre; destruct (0 <? start)%nat; reflexivity).
  destruct (stop <? length body)%nat eqn:Epost.
  - rewrite trimEnd_append_fixed; [reflexivity | | ].
    + apply trimEnd_append_fixed; [reflexivity | discriminate].
    + destruct (JS.slice body start stop); discriminate.
  - apply Nat.ltb_ge in Epost.
    assert (Hstop : stop = length body) by (unfold stop in *; lia).
    rewrite append_empty_r. unfold JS.slice. rewrite Hstop.
    pose proof (substring_split body start) as Hsplit.
    rewrite Hsplit in He at 1 2. apply trimEnd_suffix in He.
    destruct (substring start (length body - start) body) as [| c mid] eqn:Emid.
    + now rewrite append_empty_r.
    + apply trimEnd_append_fixed; [assumption | discriminate].
Qed.

(** ** Query terms are in lower case *)

Lemma lowerChar_idempotent (c : ascii) : JS.lowerChar (JS.lowerChar c) = JS.lowerChar c.
Proof.
  destruct c as [[] [] [] [] [] [] [] []]; reflexivity.
Qed.

Lemma toLowerCase_idempotent (s : string) :
  JS.toLowerCase (JS.toLowerCase s) = JS.toLowerCase s.
Proof.
  induction s as [| c s IH]; simpl; [reflexivity |].
  now rewrite lowerChar_idempotent, IH.
Qed.

Lemma splitSpaces_lower (s : string) :
  JS.toLowerCase s = s ->
  Forall (fun t => JS.toLowerCase t = t) (JS.splitSpaces s).
Proof.
  induction s as [| c s IH]; intro H; simpl.
  - constructor; [reflexivity | constructor].
  - simpl in H. injection H as Hc Hs. specialize (IH Hs).
    destruct (JS.isWhitespace c).
    + destruct (JS.startsWithSpace s); [assumption |].
      constructor; [reflexivity | assumption].
    + destruct (JS.splitSpaces s) as [| t rest].
      * constructor; [simpl; now rewrite Hc | constructor].
      * inversion IH as [| ? ? Ht Hrest]; subst.
        constructor; [simpl; now rewrite Hc, Ht | assumption].
Qed.

Lemma queryTermsOf_lower (query : string) :
  Forall (fun t => JS.toLowerCase t = t) (SearchEngine.queryTermsOf query).
Proof.
  unfold SearchEngine.queryTermsOf. apply Forall_forall. intros t Ht.
  apply filter_In in Ht. destruct Ht as [Ht _].
  pose proof (splitSpaces_lower _ (toLowerCase_idempotent query)) as H.
  rewrite Forall_forall in H. now apply H.
Qed.

Lemma earliestMatch_unique (body : string) (terms : list string) (p q : nat) :
  Spec.earliestMatch body terms p -> Spec.earliestMatch body terms q -> p = q.
Proof.
  intros [(t & Ht & Hocc) Hp] [(u & Hu & Hoccu) Hq].
  destruct (Nat.lt_trichotomy p q) as [Hlt | [Heq | Hgt]]; [| assumption |].
  - exfalso. now apply (Hq p t Hlt Ht).
  - exfalso. now apply (Hp q u Hgt Hu).
Qed.

(** C7, as the code has it.  For terms in lower case, as the terms of a
    query are: when some term occurs in the body, the snippet is the window
    around the earliest position at which any term occurs, 75 characters
    before it and 75 after the matched term (the first term of the list that
    occurs there), clamped to the body, with an ellipsis at each end that is
    cut, and this text is then stripped of whitespace at both ends; that
    last step changes nothing when the body has no whitespace at its ends.
    When no term occurs in the body, the snippet is the description, or,
    when that is absent or empty, the first 150 characters of the body and
    an ellipsis. *)
Theorem C7_generateSnippet_window (d : ParsedDoc) (terms : list string) :
  Forall (fun t => JS.toLowerCase t = t) terms ->
  (forall pos, Spec.earliestMatch (plainText d) terms pos ->
     exists before t after,
       terms = before ++ t :: after
       /\ Spec.occursAt t (plainText d) pos
       /\ (forall u, In u before -> ~ Spec.occursAt u (plainText d) pos)
       /\ SearchEngine.generateSnippet d terms
          = JS.trim (Spec.window (plainText d) pos (length t))
       /\ (Spec.trimmed (plainText d) ->
           SearchEngine.generateSnippet d terms
           = Spec.window (plainText d) pos (length t)))
  /\ (Spec.noMatch (plainText d) terms ->
      SearchEngine.generateSnippet d terms = Spec.fallbackOrEmpty d).
Proof.
  intro Hlow.
  destruct (generateSnippet_cases d terms Hlow)
    as [[Hno Hsnip] | (before & t & after & pos & Hterms & Hearly & Hocc & Hb & Hsnip)].
  - split; [| intros _; exact Hsnip].
    intros pos [(t & Ht & Hocc) _]. exfalso. now apply (Hno t pos).
  - split.
    + intros pos' Hearly'. rewrite (earliestMatch_unique _ _ _ _ Hearly' Hearly).
      exists before, t, after. split; [assumption |]. split; [assumption |].
      split; [assumption |]. split; [assumption |].
      intro Htrim. rewrite Hsnip. now apply window_trimmed.
    + intro Hno. exfalso. apply (Hno t pos); [| assumption].
      rewrite Hterms. apply in_or_app. right. now left.
Qed.

(** C7 on record [docA]: for the query [stores state] the earliest
    occurrence is that of [state], at position 3 inside [useState], and the
    body is short enough to be the whole window; for the query [zzz], which
    occurs nowhere, the snippet is the start of the body and an ellipsis. *)
Lemma C7_generateSnippet_window_witness :
  Forall (fun t => JS.toLowerCase t = t) (SearchEngine.queryTermsOf "stores state")
  /\ (exists pos t,
        Spec.earliestMatch (plainText Example.docA)
          (SearchEngine.queryTermsOf "stores state") pos
        /\ SearchEngine.generateSnippet Example.docA
             (SearchEngine.queryTermsOf "stores state")
           = JS.trim (Spec.window (plainText Example.docA) pos (length t))
        /\ SearchEngine.generateSnippet Example.docA
             (SearchEngine.queryTermsOf "stores state")
           = "useState stores state")
  /\ (Spec.noMatch (plainText Example.docA) (SearchEngine.queryTermsOf "zzz")
      /\ SearchEngine.generateSnippet Example.docA (SearchEngine.queryTermsOf "zzz")
         = "useState stores state...").
Proof.
  split; [apply queryTermsOf_lower |]. split.
  - destruct (C7_generateSnippet_window Example.docA
                (SearchEngine.queryTermsOf "stores state")
                (queryTermsOf_lower "stores state")) as [H _].
    assert (Hearly : Spec.earliestMatch (plainText Example.docA)
                       (SearchEngine.queryTermsOf "stores state") 3).
    { split.
      - exists "state". split; [right; now left | reflexivity].
      - intros q t Hq [<- | [<- | []]] Hocc; unfold Spec.occursAt in Hocc;
          do 3 (destruct q as [| q]; [discriminate Hocc |]); lia. }
    destruct (H 3%nat Hearly) as (before & t & after & _ & _ & _ & Hsnip & _).
    exists 3%nat, t. split; [exact Hearly |]. split; [exact Hsnip | reflexivity].
  - assert (Hno : Spec.noMatch (plainText Example.docA) (SearchEngine.queryTermsOf "zzz")).
    { intros t i [<- | []] Hocc. unfold Spec.occursAt in Hocc.
      do 22 (destruct i as [| i]; [discriminate Hocc |]). discriminate Hocc. }
    split; [exact Hno |].
    destruct (C7_generateSnippet_window Example.docA (SearchEngine.queryTermsOf "zzz")
                (queryTermsOf_lower "zzz")) as [_ H].
    rewrite (H Hno). reflexivity.
Defined.

(** C7 as stated fails twice.  The body [" a"] holds the term [a] at
    position 1 and the window around it is the whole body, yet the snippet
    is ["a"]: the code strips it.  And a record with the empty description
    and no match gets the start of its body, not its description. *)
Lemma C7_counterexample_trim :
  Spec.earliestMatch (plainText Example.docSpace) ["a"] 1
  /\ Spec.window (plainText Example.docSpace) 1 (length "a") = " a"
  /\ SearchEngine.generateSnippet Example.docSpace ["a"] = "a"
  /\ Spec.noMatch (plainText Example.docEmptyDescription) ["a"]
  /\ Spec.fallback Example.docEmptyDescription = ""
  /\ SearchEngine.generateSnippet Example.docEmptyDescription ["a"] = "xyz...".
Proof.
  split; [| split; [reflexivity | split; [reflexivity | split; [| split; reflexivity]]]].
  - split.
    + exists "a". split; [now left | reflexivity].
    + intros q t Hq [<- | []] Hocc. unfold Spec.occursAt in Hocc.
      destruct q as [| q]; [discriminate Hocc | lia].
  - intros t i [<- | []] Hocc. unfold Spec.occursAt in Hocc.
    do 4 (destruct i as [| i]; [discriminate Hocc |]). discriminate Hocc.
Qed.

(** * Terms as patterns *)

Lemma isSyntaxChar_false (c : ascii) :
  RegExp.isSyntaxChar c = false ->
  Ascii.eqb c "(" = false /\ Ascii.eqb c ")" = false /\ Ascii.eqb c "|" = false
  /\ Ascii.eqb c "*" = false /\ Ascii.eqb c "+" = false /\ Ascii.eqb c "?" = false
  /\ Ascii.eqb c "." = false.
Proof.
  unfold RegExp.isSyntaxChar. simpl. intro H.
  repeat (apply orb_false_iff in H; destruct H as [? H]).
  repeat split; assumption.
Qed.

(** A term without syntax characters parses to its characters in sequence. *)
Lemma parse_plain (term : string) (ts : list (RegExp.node * bool)) :
  Spec.plain term = true ->
  RegExp.parse term (RegExp.mkFrame [] ts) []
  = RegExp.Pattern (RegExp.alternative (charTerms term ts)).
Proof.
  revert ts. induction term as [| c term IH]; intros ts H; simpl in *.
  - reflexivity.
  - apply andb_true_iff in H. destruct H as [Hc Hterm].
    apply negb_true_iff in Hc.
    destruct (isSyntaxChar_false c Hc) as (H1 & H2 & H3 & H4 & H5 & H6 & H7).
    rewrite H1, H2, H3, H4, H5, H6, H7, Hc. simpl.
    unfold RegExp.pushTerm. simpl. now apply IH.
Qed.

Lemma alternative_charTerms (term : string) (ts : list (RegExp.node * bool))
    (s : string) (k : RegExp.continuation) :
  RegExp.m (RegExp.alternative (charTerms term ts)) s k
  = RegExp.m (RegExp.alternative ts) s (fun s1 => RegExp.m (literalNode term) s1 k).
Proof.
  unfold RegExp.alternative.
  assert (Hgen : forall (us : list (RegExp.node * bool)) (tail : RegExp.node) s k,
            RegExp.m (fold_left (fun acc t => RegExp.Seq (fst t) acc) us tail) s k
            = RegExp.m (fold_left (fun acc t => RegExp.Seq (fst t) acc) us RegExp.Empty) s
                (fun s1 => RegExp.m tail s1 k)).
  { induction us as [| u us IHus]; intros tail s0 k0; simpl; [reflexivity |].
    rewrite IHus. rewrite (IHus (RegExp.Seq (fst u) RegExp.Empty)). reflexivity. }
  revert ts s k. induction term as [| c term IH]; intros ts s k; simpl.
  - reflexivity.
  - rewrite IH. simpl. rewrite Hgen. reflexivity.
Qed.

Lemma create_plain (term : string) :
  Spec.plain term = true ->
  exists regex,
    RegExp.create term = Ok regex
    /\ forall s k, RegExp.m regex s k = RegExp.m (literalNode term) s k.
Proof.
  intro H. unfold RegExp.create, RegExp.emptyFrame. rewrite (parse_plain term [] H).
  eexists. split; [reflexivity |]. intros s k.
  rewrite alternative_charTerms. reflexivity.
Qed.

Lemma lower_upper (c : ascii) :
  JS.lowerChar c = c -> JS.lowerChar (JS.upperChar c) = c.
Proof.
  destruct c as [[] [] [] [] [] [] [] []]; intro H;
    first [reflexivity | discriminate H].
Qed.

Lemma upper_eqb_lower (c d : ascii) :
  JS.lowerChar c = c -> JS.lowerChar d = d ->
  Ascii.eqb (JS.upperChar d) (JS.upperChar c) = Ascii.eqb d c.
Proof.
  intros Hc Hd. destruct (Ascii.eqb d c) eqn:E.
  - apply Ascii.eqb_eq in E. subst. apply Ascii.eqb_refl.
  - apply Ascii.eqb_neq. intro H. apply Ascii.eqb_neq in E. apply E.
    rewrite <- (lower_upper c Hc), <- (lower_upper d Hd). now rewrite H.
Qed.

(** On lower-case text a term without syntax characters matches exactly
    where it stands as a prefix. *)
Lemma m_literal (t s : string) (k : RegExp.continuation) :
  JS.toLowerCase t = t -> JS.toLowerCase s = s ->
  RegExp.m (literalNode t) s k
  = match dropPrefix t s with
    | Some rest => k rest
    | None => None
    end.
Proof.
  revert s. induction t as [| c t IH]; intros s Ht Hs; simpl.
  - reflexivity.
  - simpl in Ht. injection Ht as Hc Ht.
    destruct s as [| d s]; [reflexivity |].
    simpl in Hs. injection Hs as Hd Hs.
    rewrite (upper_eqb_lower c d Hc Hd).
    destruct (Ascii.eqb d c); [now apply IH | reflexivity].
Qed.

Lemma dropPrefix_append (t s rest : string) :
  dropPrefix t s = Some rest -> s = (t ++ rest)%string.
Proof.
  revert s. induction t as [| c t IH]; intros s H; simpl in H.
  - now injection H as <-.
  - destruct s as [| d s]; [discriminate |].
    destruct (Ascii.eqb d c) eqn:E; [| discriminate].
    apply Ascii.eqb_eq in E. subst d. simpl. f_equal. now apply IH.
Qed.

Lemma prefix_dropPrefix (t s : string) :
  prefix t s = match dropPrefix t s with Some _ => true | None => false end.
Proof.
  revert s. induction t as [| c t IH]; intro s.
  - destruct s; reflexivity.
  - destruct s as [| d s]; [reflexivity |]. simpl.
    destruct (ascii_dec c d) as [-> | Hne].
    + rewrite Ascii.eqb_refl. apply IH.
    + assert (E : Ascii.eqb d c = false) by (apply Ascii.eqb_neq; congruence).
      now rewrite E.
Qed.

Lemma toLowerCase_tail (c : ascii) (s : string) :
  JS.toLowerCase (String c s) = String c s -> JS.toLowerCase s = s.
Proof. simpl. intro H. now injection H. Qed.

(** The matches of such a term are its occurrences. *)
Lemma matchAll_literal (regex : RegExp.node) (t : string) :
  (forall s, JS.toLowerCase s = s -> RegExp.matchAt regex s = dropPrefix t s) ->
  forall s skip, JS.toLowerCase s = s ->
    List.length (RegExp.matchAll regex s skip) = Spec.occurrencesFrom t s skip.
Proof.
  intros Hm s. induction s as [| d s IH]; intros skip Hs.
  - destruct skip as [| skip]; [| reflexivity].
    cbn [RegExp.matchAll Spec.occurrencesFrom].
    rewrite (Hm "" eq_refl), prefix_dropPrefix.
    destruct (dropPrefix t "") as [rest |]; reflexivity.
  - pose proof (toLowerCase_tail d s Hs) as Hs'.
    destruct skip as [| skip]; [| simpl; now apply IH].
    cbn [RegExp.matchAll Spec.occurrencesFrom].
    rewrite (Hm (String d s) Hs), prefix_dropPrefix.
    destruct (dropPrefix t (String d s)) as [rest |] eqn:E.
    + apply dropPrefix_append in E.
      assert (Hlen : (length (String d s) - length rest)%nat = length t).
      { rewrite E, length_append. lia. }
      rewrite Hlen. simpl List.length. f_equal. now apply IH.
    + now apply IH.
Qed.

Lemma stringMatch_plain (t body : string) :
  Spec.plain t = true -> JS.toLowerCase t = t ->
  exists regex,
    RegExp.create t = Ok regex
    /\ List.length (RegExp.stringMatch (JS.toLowerCase body) regex)
       = Spec.occurrences t body.
Proof.
  intros Hplain Hlow. destruct (create_plain t Hplain) as (regex & Hcreate & Hm).
  exists regex. split; [assumption |].
  unfold RegExp.stringMatch, Spec.occurrences. rewrite Hlow.
  apply matchAll_literal; [| apply toLowerCase_idempotent].
  intros s Hs. unfold RegExp.matchAt. rewrite Hm, (m_literal t s _ Hlow Hs).
  destruct (dropPrefix t s); reflexivity.
Qed.

(** * [scoreDocument] *)

(** The loop of [scoreDocument] adds, for every term, the points of its
    fields and half a point for every match of the term read as a pattern. *)
Lemma scoreTerms_compiled (d : ParsedDoc) (trs : list (string * RegExp.node)) (acc : Q) :
  compiled trs ->
  exists s,
    SearchEngine.scoreTerms d (JS.toLowerCase (title (metadata d)))
      (JS.toLowerCase (plainText d)) (JS.toLowerCase (path d)) (map fst trs) acc
    = Ok s
    /\ s == acc + sumByPattern d trs.
Proof.
  revert acc. induction trs as [| [t regex] trs IH]; intros acc Hc.
  - exists acc. split; [reflexivity |]. simpl. lra.
  - inversion Hc as [| ? ? [Hlow Hcreate] Hrest]; subst. simpl in Hlow, Hcreate.
    simpl map. simpl SearchEngine.scoreTerms. rewrite Hcreate.
    match goal with
    | |- exists s, SearchEngine.scoreTerms _ _ _ _ _ ?e = _ /\ _ =>
        destruct (IH e Hrest) as (s & Hs & Heq)
    end.
    exists s. split; [exact Hs |]. rewrite Heq. clear Hs Heq IH.
    simpl sumByPattern. unfold Spec.termScoreByPattern, Spec.containsIgnoreCase.
    simpl fst. simpl snd. rewrite Hlow.
    destruct (JS.includes (JS.toLowerCase (title (metadata d))) t);
      destruct (JS.includes (JS.toLowerCase (path d)) t);
      destruct (RegExp.stringMatch (JS.toLowerCase (plainText d)) regex) as [| m0 ms];
      destruct (description (metadata d)) as [desc |];
      try destruct (JS.includes (JS.toLowerCase desc) t);
      try (change (inject_Z (Z.of_nat (List.length (@nil string)))) with 0);
      lra.
Qed.

(** A term that is no valid pattern makes [scoreDocument] throw. *)
Lemma scoreTerms_throws (d : ParsedDoc) (tl pl pal : string)
    (before : list (string * RegExp.node)) (t : string) (after : list string)
    (e : error) (acc : Q) :
  Forall (fun tr => RegExp.create (fst tr) = Ok (snd tr)) before ->
  RegExp.create t = Throw e ->
  SearchEngine.scoreTerms d tl pl pal (map fst before ++ t :: after) acc = Throw e.
Proof.
  revert acc. induction before as [| [u regex] before IH]; intros acc Hb Ht; simpl.
  - now rewrite Ht.
  - inversion Hb as [| ? ? Hu Hrest]; subst. simpl in Hu. rewrite Hu.
    now apply IH.
Qed.

Lemma plain_compiled (d : ParsedDoc) (terms : list string) :
  Forall (fun t => Spec.plain t = true) terms ->
  Forall (fun t => JS.toLowerCase t = t) terms ->
  exists trs,
    map fst trs = terms /\ compiled trs
    /\ sumByPattern d trs == fold_right (fun t acc => Spec.termScore d t + acc) 0 terms.
Proof.
  induction terms as [| t terms IH]; intros Hplain Hlow.
  - exists []. split; [reflexivity |]. split; [constructor | reflexivity].
  - inversion Hplain as [| ? ? Hp Hplain']; subst.
    inversion Hlow as [| ? ? Hl Hlow']; subst.
    destruct (IH Hplain' Hlow') as (trs & Hmap & Hc & Hsum).
    destruct (stringMatch_plain t (plainText d) Hp Hl) as (regex & Hcreate & Hcount).
    exists ((t, regex) :: trs). split; [simpl; now rewrite Hmap |].
    split; [constructor; [split; assumption | assumption] |].
    simpl. rewrite Hsum. unfold Spec.termScoreByPattern, Spec.termScore.
    rewrite Hcount. reflexivity.
Qed.

(** For a query whose terms hold no syntax character the code computes the
    keyword score of the specification. *)
Lemma scoreDocument_plain (d : ParsedDoc) (query : string) :
  Forall (fun t => Spec.plain t = true) (SearchEngine.queryTermsOf query) ->
  exists s,
    SearchEngine.scoreDocument d (SearchEngine.queryTermsOf query) = Ok s
    /\ s == Spec.keywordScore d query.
Proof.
  intro Hplain.
  destruct (plain_compiled d _ Hplain (queryTermsOf_lower query))
    as (trs & Hmap & Hc & Hsum).
  destruct (scoreTerms_compiled d trs 0 Hc) as (s & Hs & Heq).
  exists s. unfold SearchEngine.scoreDocument. rewrite <- Hmap.
  split; [exact Hs |]. rewrite Heq, Hsum. unfold Spec.keywordScore. lra.
Qed.

Lemma keywordLoop_throws (docs : list ParsedDoc) (f : option string)
    (terms : list string) (ms : Q) (acc : list SearchResult) (e : error) :
  (forall d, SearchEngine.scoreDocument d terms = Throw e) ->
  (exists d, In d docs /\ SearchEngine.filteredOut f d = false) ->
  SearchEngine.keywordLoop docs f terms ms acc = Throw e.
Proof.
  intros Hthrow (d & Hin & Hf). revert acc.
  induction docs as [| d0 docs IH]; intro acc; [contradiction |].
  simpl. destruct (SearchEngine.filteredOut f d0) eqn:E.
  - destruct Hin as [-> | Hin]; [congruence | now apply IH].
  - now rewrite Hthrow.
Qed.

Lemma search_open_group_throws (w : World) (st : state)
    (options : option SearchOptions.t) :
  indexed st = true ->
  SearchEngine.useSemanticSearchOf options = false ->
  (exists d, In d (JSMap.values (documentIndex st))
             /\ SearchEngine.filteredOut (SearchEngine.sectionFilterOf options) d = false) ->
  SearchEngine.search w "(" options st
  = (Throw (SyntaxError "Unterminated group"), st).
Proof.
  intros Hi Hsem Hdoc. unfold SearchEngine.search.
  unfold bind at 1. unfold read at 1. rewrite Hi.
  unfold bind at 1. unfold ret at 1.
  change (negb (JS.truthy (JS.trim "("))) with false. cbv iota.
  rewrite Hsem. unfold SearchEngine.keywordSearch.
  unfold bind at 1. unfold read at 1. unfold bind, liftOutcome.
  rewrite (keywordLoop_throws _ _ _ _ _ (SyntaxError "Unterminated group"));
    [reflexivity | | assumption].
  intro d. reflexivity.
Qed.

(** C9. [scoreDocument] reads each term as a pattern: the body contributes
    half a point for every match of that pattern, and a term that is no
    valid pattern makes it throw.  So a keyword search for [(] over a store
    with a record to score throws a [SyntaxError] and returns no list; and
    the term [.] counts the 13 characters of the body [no state here], where
    it does not occur once. *)
Theorem C9_terms_are_patterns :
  (forall d trs, compiled trs ->
     exists s, SearchEngine.scoreDocument d (map fst trs) = Ok s
               /\ s == sumByPattern d trs)
  /\ (forall d before t after e,
        Forall (fun tr => RegExp.create (fst tr) = Ok (snd tr)) before ->
        RegExp.create t = Throw e ->
        SearchEngine.scoreDocument d (map fst before ++ t :: after) = Throw e)
  /\ RegExp.create "(" = Throw (SyntaxError "Unterminated group")
  /\ (forall w st options,
        indexed st = true ->
        SearchEngine.useSemanticSearchOf options = false ->
        (exists d, In d (JSMap.values (documentIndex st))
                   /\ SearchEngine.filteredOut (SearchEngine.sectionFilterOf options) d
                      = false) ->
        SearchEngine.search w "(" options st
        = (Throw (SyntaxError "Unterminated group"), st))
  /\ (exists regex,
        RegExp.create "." = Ok regex
        /\ List.length (RegExp.stringMatch (JS.toLowerCase "no state here") regex) = 13%nat
        /\ Spec.occurrences "." "no state here" = 0%nat).
Proof.
  split.
  { intros d trs Hc. destruct (scoreTerms_compiled d trs 0 Hc) as (s & Hs & Heq).
    exists s. split; [exact Hs |]. rewrite Heq. lra. }
  split.
  { intros d before t after e Hb Ht. unfold SearchEngine.scoreDocument.
    now apply scoreTerms_throws. }
  split; [reflexivity |].
  split; [apply search_open_group_throws |].
  eexists. split; [reflexivity |]. split; reflexivity.
Qed.

(** C9 on the built example store: the keyword search for [(] throws. *)
Lemma C9_terms_are_patterns_witness :
  indexed Example.built = true
  /\ SearchEngine.search (Example.corpus [1; 0]) "("
       (Example.options None (Some false)) Example.built
     = (Throw (SyntaxError "Unterminated group"), Example.built).
Proof.
  split; [reflexivity |].
  destruct C9_terms_are_patterns as (_ & _ & _ & H & _).
  apply H; [reflexivity | reflexivity |].
  exists Example.docA. split; [now left | reflexivity].
Defined.

(** C2 at the query [.] and at the query [c++].  For the record [docB] the
    code scores the term [.] with 13 matches in the body, 6.5 points, where
    the keyword score of the specification is 0, the term occurring nowhere;
    and it throws on the term [c++]. *)
Theorem C2_scoreDocument_syntax_characters :
  (exists s, SearchEngine.scoreDocument Example.docB (SearchEngine.queryTermsOf ".") = Ok s
             /\ s == 13 # 2)
  /\ Spec.keywordScore Example.docB "." == 0
  /\ SearchEngine.scoreDocument Example.docB (SearchEngine.queryTermsOf "c++")
     = Throw (SyntaxError "Nothing to repeat").
Proof.
  split; [eexists; split; [vm_compute; reflexivity | reflexivity] |].
  split; reflexivity.
Qed.

(** * The embedding on known values *)

(** The matcher on patterns whose matches are known. *)
Example match_alternatives_in_order :
  match RegExp.create "a|ab" with
  | Ok regex => RegExp.stringMatch "abab" regex
  | _ => []
  end = ["a"; "a"]%string.
Proof. reflexivity. Qed.

Example match_star_with_empty_matches :
  match RegExp.create "a*" with
  | Ok regex => RegExp.stringMatch "baaab" regex
  | _ => []
  end = [""; "aaa"; ""; ""]%string.
Proof. reflexivity. Qed.

Example match_group_repeated :
  match RegExp.create "(a?)+b" with
  | Ok regex => RegExp.stringMatch "aab b" regex
  | _ => []
  end = ["aab"; "b"]%string.
Proof. reflexivity. Qed.

Example split_keeps_empty_ends :
  JS.splitSpaces "  a b " = [""; "a"; "b"; ""]%string
  /\ SearchEngine.queryTermsOf "  Use  STATE " = ["use"; "state"]%string.
Proof. split; reflexivity. Qed.

(** A blank query returns the empty list before either mode runs. *)
Lemma search_blank (w : World) (st : state) (query : string)
    (options : option SearchOptions.t) :
  indexed st = true -> JS.truthy (JS.trim query) = false ->
  SearchEngine.search w query options st = (Ok [], st).
Proof.
  intros Hi Hq. unfold SearchEngine.search. run. now rewrite Hi, Hq.
Qed.

(** The keyword scenario of the specification: [docA] before [docB], with
    the scores 1 and 1/2. *)
Example keyword_scenario :
  map (fun r => (path (doc r), score r))
    (Example.resultsOf
       (SearchEngine.search (Example.corpus [1; 0]) "state"
          (Example.options None (Some false)) newEngine))
  = [("learn/a"%string, 2 # 2); ("learn/b"%string, 1 # 2)].
Proof. reflexivity. Qed.

(** * Further properties of the code

    The properties named X1 and on: the rest of the embedding service, what every
    method of the engine keeps, the behaviour of the engine at its edges,
    the parser, the cache of the listings and the resources of the server. *)

(** * [embeddingService.ts]: the rest of the service *)

Lemma dot_acc (a b : list Q) (x y : Q) :
  x == y ->
  fold_left (fun acc p => acc + fst p * snd p) (combine a b) x
  == fold_left (fun acc p => acc + fst p * snd p) (combine b a) y.
Proof.
  revert b x y. induction a as [| u a IH]; intros [| v b] x y H; simpl; try assumption.
  apply IH. rewrite H. ring.
Qed.

Lemma dot_comm (a b : list Q) : Spec.dot a b == Spec.dot b a.
Proof. unfold Spec.dot. apply dot_acc. reflexivity. Qed.

Lemma Qeq_bool_proper (x y : Q) : x == y -> Qeq_bool x 0 = Qeq_bool y 0.
Proof.
  intro H. destruct (Qeq_bool y 0) eqn:E.
  - apply Qeq_bool_iff. apply Qeq_bool_iff in E. now rewrite H.
  - apply not_true_is_false. intro F. apply Qeq_bool_iff in F.
    rewrite H in F. apply Qeq_bool_iff in F. congruence.
Qed.

Lemma similarity_comm (w : World) (a b : list Q) :
  Spec.similarity w a b == Spec.similarity w b a.
Proof.
  unfold Spec.similarity. rewrite orb_comm.
  destruct (Qeq_bool (Spec.magnitude w b) 0 || Qeq_bool (Spec.magnitude w a) 0).
  - reflexivity.
  - rewrite (dot_comm a b).
    rewrite (Qmult_comm (Spec.magnitude w a) (Spec.magnitude w b)). reflexivity.
Qed.

(** X1. [cosineSimilarity] does not depend on the order of its arguments:
    the two calls throw the same error, or return equal numbers. *)
Theorem X1_cosineSimilarity_symmetric (w : World) (a b : list Q) :
  match EmbeddingService.cosineSimilarity w a b,
        EmbeddingService.cosineSimilarity w b a with
  | Ok x, Ok y => x == y
  | Throw e, Throw e' => e = e'
  | _, _ => False
  end.
Proof.
  rewrite !cosineSimilarity_run. rewrite (Nat.eqb_sym (List.length b)).
  destruct (List.length a =? List.length b)%nat.
  - apply similarity_comm.
  - reflexivity.
Qed.

Lemma withTrace_app (st : state) (e1 e2 : list event) :
  withTrace (withTrace st e1) e2 = withTrace st (e2 ++ e1).
Proof. unfold withTrace. simpl. now rewrite app_assoc. Qed.

(** The loop of the batch on texts the model answers. *)
Lemma embedTexts_good (w : World) (texts : list string) (vs acc : list (list Q))
    (st : state) :
  initialized st = true ->
  Forall2 (embedsAs w) texts vs ->
  EmbeddingService.embedTexts w texts acc st
  = (Ok (acc ++ vs), withTrace st (pipelineCalls texts)).
Proof.
  intros Hi H. revert acc st Hi.
  induction H as [| text v texts vs Hv _ IH]; intros acc st Hi.
  - simpl. unfold ret. rewrite app_nil_r. now destruct st.
  - simpl. unfold bind at 1.
    rewrite (generateEmbedding_resolved w st text v Hi Hv).
    rewrite IH by exact Hi. rewrite withTrace_app, <- (app_assoc acc [v] vs).
    f_equal. f_equal. unfold pipelineCalls. simpl. rewrite map_app. reflexivity.
Qed.

(** The same loop when the model refuses the text behind [good]. *)
Lemma embedTexts_bad (w : World) (good : list string) (bad : string)
    (rest : list string) (vs acc : list (list Q)) (e : error) (st : state) :
  initialized st = true ->
  Forall2 (embedsAs w) good vs ->
  runPipeline w (JS.slice bad 0 2000) = Rejected e ->
  EmbeddingService.embedTexts w (good ++ bad :: rest) acc st
  = (Throw (Error ("Embedding generation failed: " ++ message e)),
     withTrace st
       (ConsoleError "Failed to generate embedding:" e
        :: pipelineCalls (good ++ [bad]))).
Proof.
  intros Hi H Hbad. revert acc st Hi.
  induction H as [| text v texts vs Hv _ IH]; intros acc st Hi.
  - simpl. unfold bind at 1.
    rewrite (generateEmbedding_rejected w st bad e Hi Hbad). reflexivity.
  - simpl. unfold bind at 1.
    rewrite (generateEmbedding_resolved w st text v Hi Hv).
    rewrite IH by exact Hi. rewrite withTrace_app. f_equal. f_equal.
    unfold pipelineCalls. cbn [app rev]. rewrite !rev_app_distr. cbn [app rev].
    cbn [map]. rewrite map_app. reflexivity.
Qed.

Lemma generateEmbedding_first (w : World) (text : string) (st : state) :
  initialized st = true \/ loadPipeline w = Resolved tt ->
  EmbeddingService.generateEmbedding w text st
  = EmbeddingService.generateEmbedding w text (afterInit st).
Proof.
  intro H. destruct (initialized st) eqn:Ei.
  - unfold afterInit. now rewrite Ei.
  - destruct H as [H | H]; [discriminate |].
    unfold afterInit. rewrite Ei.
    unfold EmbeddingService.generateEmbedding.
    unfold bind at 1. unfold read at 1. rewrite Ei.
    unfold bind at 1. rewrite (initialize_loads w st Ei H).
    unfold bind at 2. unfold read at 1. cbn [initialized].
    unfold bind at 2. unfold ret at 1. reflexivity.
Qed.

(** X4. The batch [generateEmbeddings(texts)] answers with one vector for
    each text, in the order of the texts, each the answer of the model to
    the first 2000 characters of its text; the model is loaded before the
    first text if it was not, and called once for each text in turn.  For
    no text at all nothing is called. *)
Theorem X4_generateEmbeddings_batch (w : World) (texts : list string)
    (vs : list (list Q)) (st : state) :
  initialized st = true \/ loadPipeline w = Resolved tt ->
  Forall2 (embedsAs w) texts vs ->
  EmbeddingService.generateEmbeddings w texts st
  = (Ok vs,
     match texts with
     | [] => st
     | _ :: _ => withTrace (afterInit st) (pipelineCalls texts)
     end)
  /\ List.length vs = List.length texts.
Proof.
  intros Hload H. split; [| symmetry; eapply Forall2_length; eassumption].
  unfold EmbeddingService.generateEmbeddings.
  destruct H as [| text v texts vs Hv H]; [reflexivity |].
  cbn [EmbeddingService.embedTexts]. unfold bind at 1.
  rewrite (generateEmbedding_first w text st Hload).
  pose proof (afterInit_fields st) as (Hi & _).
  rewrite (generateEmbedding_resolved w (afterInit st) text v Hi Hv).
  cbv beta iota.
  rewrite (embedTexts_good w texts vs _ (withTrace (afterInit st) _) Hi H).
  rewrite withTrace_app. f_equal. f_equal.
  unfold pipelineCalls. cbn [rev]. now rewrite map_app.
Qed.

Lemma X4_generateEmbeddings_batch_witness :
  EmbeddingService.generateEmbeddings (Example.corpus [1; 0]) ["a"; "b"] newEngine
  = (Ok [[1; 0]; [1; 0]],
     withTrace (afterInit newEngine) (pipelineCalls ["a"; "b"]))
  /\ List.length [[1; 0]; [1; 0]] = 2%nat.
Proof.
  apply (X4_generateEmbeddings_batch (Example.corpus [1; 0]) ["a"; "b"]
           [[1; 0]; [1; 0]] newEngine).
  - right. reflexivity.
  - repeat constructor.
Defined.

(** X5. The batch stops at the first text the model refuses: it throws
    [Embedding generation failed: ...] with the message of the model, the
    vectors made so far are lost, and no later text reaches the model. *)
Theorem X5_generateEmbeddings_batch_aborts (w : World) (good : list string)
    (bad : string) (rest : list string) (vs : list (list Q)) (e : error)
    (st : state) :
  initialized st = true \/ loadPipeline w = Resolved tt ->
  Forall2 (embedsAs w) good vs ->
  runPipeline w (JS.slice bad 0 2000) = Rejected e ->
  EmbeddingService.generateEmbeddings w (good ++ bad :: rest) st
  = (Throw (Error ("Embedding generation failed: " ++ message e)),
     withTrace (afterInit st)
       (ConsoleError "Failed to generate embedding:" e
        :: pipelineCalls (good ++ [bad]))).
Proof.
  intros Hload H Hbad. unfold EmbeddingService.generateEmbeddings.
  pose proof (afterInit_fields st) as (Hi & _).
  destruct H as [| text v texts vs Hv H].
  - cbn [app EmbeddingService.embedTexts]. unfold bind at 1.
    rewrite (generateEmbedding_first w bad st Hload).
    rewrite (generateEmbedding_rejected w (afterInit st) bad e Hi Hbad).
    reflexivity.
  - cbn [app EmbeddingService.embedTexts]. unfold bind at 1.
    rewrite (generateEmbedding_first w text st Hload).
    rewrite (generateEmbedding_resolved w (afterInit st) text v Hi Hv).
    cbv beta iota.
    rewrite (embedTexts_bad w texts bad rest vs _ e (withTrace (afterInit st) _)
               Hi H Hbad).
    rewrite withTrace_app. f_equal. f_equal.
    unfold pipelineCalls. cbn [app rev]. rewrite !rev_app_distr. cbn [app rev].
    cbn [map]. rewrite map_app. reflexivity.
Qed.

Lemma X5_generateEmbeddings_batch_aborts_witness :
  EmbeddingService.generateEmbeddings Example.failingOnB
    (["a"] ++ "Routing" :: ["c"]) newEngine
  = (Throw (Error "Embedding generation failed: Model error"),
     withTrace (afterInit newEngine)
       (ConsoleError "Failed to generate embedding:" (Error "Model error")
        :: pipelineCalls (["a"] ++ ["Routing"]))).
Proof.
  apply (X5_generateEmbeddings_batch_aborts Example.failingOnB ["a"] "Routing"
           ["c"] [[1; 0]] (Error "Model error") newEngine).
  - right. reflexivity.
  - repeat constructor.
  - reflexivity.
Defined.






Lemma similaritiesOf_throws (w : World) (q : list Q)
    (docs : list EmbeddingService.DocEmbedding.t) :
  Exists (fun d => List.length (EmbeddingService.DocEmbedding.embedding d)
                   <> List.length q) docs ->
  EmbeddingService.similaritiesOf w q docs
  = Throw (Error "Vectors must have same length").
Proof.
  induction docs as [| d docs IH]; intro H; [inversion H |].
  simpl. rewrite cosineSimilarity_run.
  destruct (List.length q =? List.length (EmbeddingService.DocEmbedding.embedding d))%nat
    eqn:E; [| reflexivity].
  apply Nat.eqb_eq in E.
  inversion H as [? ? Hd | ? ? Hrest]; subst; [congruence |].
  now rewrite (IH Hrest).
Qed.



(** X7. One document vector of another length than the query vector makes
    [findMostSimilar] throw [Vectors must have same length], whatever the
    other vectors and whatever [topK]. *)
Theorem X7_findMostSimilar_throws (w : World) (queryEmbedding : list Q)
    (docEmbeddings : list EmbeddingService.DocEmbedding.t) (topK : Q) :
  Exists (fun d => List.length (EmbeddingService.DocEmbedding.embedding d)
                   <> List.length queryEmbedding) docEmbeddings ->
  EmbeddingService.findMostSimilar w queryEmbedding docEmbeddings topK
  = Throw (Error "Vectors must have same length").
Proof.
  intro H. unfold EmbeddingService.findMostSimilar.
  now rewrite (similaritiesOf_throws w queryEmbedding docEmbeddings H).
Qed.

Lemma X7_findMostSimilar_throws_witness :
  EmbeddingService.findMostSimilar (Example.corpus []) [1; 0]
    [EmbeddingService.DocEmbedding.make [1; 0] 0;
     EmbeddingService.DocEmbedding.make [1] 1] 0
  = Throw (Error "Vectors must have same length").
Proof.
  apply (X7_findMostSimilar_throws (Example.corpus []) [1; 0]).
  apply Exists_cons_tl, Exists_cons_hd. simpl. lia.
Defined.

(** * Properties kept by every method of the engine *)

Section Preserves.

Variable P : state -> Prop.

Lemma preserves_ret {A : Type} (a : A) : preserves P (ret a).
Proof. intros st H. exact H. Qed.

Lemma preserves_throw {A : Type} (e : error) : preserves P (@throw A e).
Proof. intros st H. exact H. Qed.

Lemma preserves_read {A : Type} (f : state -> A) : preserves P (read f).
Proof. intros st H. exact H. Qed.

Lemma preserves_liftOutcome {A : Type} (o : outcome A) : preserves P (liftOutcome o).
Proof. intros st H. exact H. Qed.

Lemma preserves_bind {A B : Type} (c : M A) (k : A -> M B) :
  preserves P c -> (forall a, preserves P (k a)) -> preserves P (bind c k).
Proof.
  intros Hc Hk st H. unfold bind. specialize (Hc st H).
  destruct (c st) as [[a | e |] st1]; simpl in *; [now apply Hk | assumption ..].
Qed.

Lemma preserves_tryCatch {A : Type} (body : M A) (handler : error -> M A) :
  preserves P body -> (forall e, preserves P (handler e)) ->
  preserves P (tryCatch body handler).
Proof.
  intros Hb Hh st H. unfold tryCatch. specialize (Hb st H).
  destruct (body st) as [[a | e |] st1]; simpl in *;
    [assumption | now apply Hh | assumption].
Qed.

Lemma preserves_forEach {A : Type} (xs : list A) (body : A -> M unit) :
  (forall x, preserves P (body x)) -> preserves P (forEach xs body).
Proof.
  intro Hb. induction xs as [| x xs IH]; simpl.
  - apply preserves_ret.
  - apply preserves_bind; [apply Hb | intros _; exact IH].
Qed.

Lemma preserves_keywordSearch (query : string) (options : option SearchOptions.t) :
  preserves P (SearchEngine.keywordSearch query options).
Proof.
  unfold SearchEngine.keywordSearch.
  apply preserves_bind; [apply preserves_read | intro mp].
  apply preserves_bind; [apply preserves_liftOutcome | intro results].
  apply preserves_ret.
Qed.

(** The methods, for a property that building the index, the embedding
    pass and a call of the model keep. *)

Variable w : World.

Hypothesis P_index :
  forall st, P st -> indexed st = false -> P (snd (SearchEngine.indexDocuments w st)).

(** [if (!this.indexed) { await this.indexDocuments(); }] and what follows. *)
Lemma preserves_indexed_first {A : Type} (k : M A) :
  preserves P k ->
  preserves P
    (isIndexed <- read indexed ;;
     (if isIndexed then ret tt else SearchEngine.indexDocuments w) ;;
     k).
Proof.
  intros Hk st H. unfold bind at 1. unfold read at 1.
  destruct (indexed st) eqn:Ei.
  - unfold bind, ret. now apply Hk.
  - unfold bind. specialize (P_index st H Ei).
    destruct (SearchEngine.indexDocuments w st) as [[[] | e |] st1]; simpl in *;
      [now apply Hk | assumption ..].
Qed.

Lemma preserves_getDocByPath (p : string) :
  preserves P (SearchEngine.getDocByPath w p).
Proof.
  unfold SearchEngine.getDocByPath. apply preserves_indexed_first.
  apply preserves_bind; [apply preserves_read | intro mp]. apply preserves_ret.
Qed.

Lemma preserves_getDocsBySection (s : string) :
  preserves P (SearchEngine.getDocsBySection w s).
Proof.
  unfold SearchEngine.getDocsBySection. apply preserves_indexed_first.
  apply preserves_bind; [apply preserves_read | intro mp]. apply preserves_ret.
Qed.

Lemma preserves_search_keyword (query : string) (options : option SearchOptions.t) :
  SearchEngine.useSemanticSearchOf options = false ->
  preserves P (SearchEngine.search w query options).
Proof.
  intro Hk. unfold SearchEngine.search. rewrite Hk.
  apply preserves_indexed_first.
  destruct (negb (JS.truthy (JS.trim query)));
    [apply preserves_ret | apply preserves_keywordSearch].
Qed.

Hypothesis P_generateEmbeddings : preserves P (SearchEngine.generateEmbeddings w).

Hypothesis P_generateEmbedding :
  forall text, preserves P (EmbeddingService.generateEmbedding w text).

Lemma preserves_semanticSearch (query : string) (options : option SearchOptions.t) :
  preserves P (SearchEngine.semanticSearch w query options).
Proof.
  unfold SearchEngine.semanticSearch.
  apply preserves_bind; [apply preserves_read | intro done].
  apply preserves_bind;
    [destruct done; [apply preserves_ret | apply P_generateEmbeddings]
    | intros _].
  apply preserves_bind; [apply P_generateEmbedding | intro qe].
  apply preserves_bind; [apply preserves_read | intro mp].
  apply preserves_bind; [apply preserves_liftOutcome | intro results].
  apply preserves_ret.
Qed.

Lemma preserves_search (query : string) (options : option SearchOptions.t) :
  preserves P (SearchEngine.search w query options).
Proof.
  unfold SearchEngine.search. apply preserves_indexed_first.
  destruct (negb (JS.truthy (JS.trim query))); [apply preserves_ret |].
  destruct (SearchEngine.useSemanticSearchOf options);
    [apply preserves_semanticSearch | apply preserves_keywordSearch].
Qed.

(** Every call but a rebuild keeps [P]. *)
Lemma preserves_lookups (c : call) (st : state) :
  c <> IndexDocuments -> P st -> P (stateAfter w c st).
Proof.
  intros Hc H. destruct c; simpl.
  - congruence.
  - now apply P_generateEmbeddings.
  - now apply preserves_search.
  - now apply preserves_getDocByPath.
  - exact H.
  - now apply preserves_getDocsBySection.
Qed.

End Preserves.

(** Every call of a public method keeps [P]. *)
Lemma preserves_after (P : state -> Prop) (w : World) :
  preserves P (SearchEngine.indexDocuments w) ->
  preserves P (SearchEngine.generateEmbeddings w) ->
  (forall text, preserves P (EmbeddingService.generateEmbedding w text)) ->
  forall c st, P st -> P (stateAfter w c st).
Proof.
  intros Hi Hg He c st H.
  destruct (match c with IndexDocuments => true | _ => false end) eqn:E.
  - destruct c; try discriminate. now apply Hi.
  - apply preserves_lookups; try assumption.
    + intros s Hs _. now apply Hi.
    + intros ->. discriminate.
Qed.

(** Properties of the trace and of the flags of the model: what is needed
    of them for a rebuild and for the embedding pass to keep them. *)

Section TraceProperties.

Variable P : state -> Prop.

(** The events [P] lets through. *)
Variable okEvent : event -> Prop.

Hypothesis P_frame :
  forall st mp ix,
    P st -> P (mkState mp ix (embeddingsGenerated st) (initialized st) (trace st)).

Hypothesis P_event :
  forall st ev,
    okEvent ev -> P st ->
    P (mkState (documentIndex st) (indexed st) (embeddingsGenerated st)
         (initialized st) (ev :: trace st)).

Hypothesis ok_indexing :
  forall ev, modelEvent ev = false -> okEvent ev.

Lemma preserves_emit (ev : event) : okEvent ev -> preserves P (emit ev).
Proof. intros Hev st H. unfold emit. simpl. now apply P_event. Qed.

Lemma preserves_await {A : Type} (ev : event) (a : answer A) :
  okEvent ev -> preserves P (await ev a).
Proof.
  intro Hev. unfold await. apply preserves_bind; [now apply preserves_emit |].
  intros _. destruct a; [apply preserves_ret | apply preserves_throw].
Qed.

Lemma preserves_setDocumentIndex (mp : JSMap.t) : preserves P (setDocumentIndex mp).
Proof. intros st H. unfold setDocumentIndex. simpl. now apply P_frame. Qed.

Lemma preserves_setIndexed (b : bool) : preserves P (setIndexed b).
Proof. intros st H. unfold setIndexed. simpl. now apply P_frame. Qed.

Lemma preserves_indexOne (w : World) (docPath : string) :
  preserves P (SearchEngine.indexOne w docPath).
Proof.
  unfold SearchEngine.indexOne. apply preserves_tryCatch.
  - apply preserves_bind; [apply preserves_await; now apply ok_indexing |].
    intro content. apply preserves_bind; [apply preserves_await; now apply ok_indexing |].
    intro parsedDoc. apply preserves_bind; [apply preserves_read |].
    intro mp. apply preserves_setDocumentIndex.
  - intro e. apply preserves_emit. now apply ok_indexing.
Qed.

Lemma preserves_indexDocuments (w : World) :
  preserves P (SearchEngine.indexDocuments w).
Proof.
  unfold SearchEngine.indexDocuments.
  apply preserves_bind; [apply preserves_setDocumentIndex | intros _].
  apply preserves_bind; [apply preserves_await; now apply ok_indexing | intro allDocs].
  apply preserves_bind; [| intros _; apply preserves_setIndexed].
  apply preserves_forEach. intro x. apply preserves_indexOne.
Qed.

Variable w : World.

Hypothesis P_initialize : preserves P (EmbeddingService.initialize w).

Hypothesis P_generateEmbedding :
  forall text, preserves P (EmbeddingService.generateEmbedding w text).

Hypothesis ok_console : forall text e, okEvent (ConsoleError text e).

Hypothesis P_flag :
  forall st eg,
    P st ->
    P (mkState (documentIndex st) (indexed st) eg (initialized st) (trace st)).

Lemma preserves_embedEach (passed rest : JSMap.t) :
  preserves P (SearchEngine.embedEach w passed rest).
Proof.
  revert passed. induction rest as [| [key d] rest IH]; intro passed; simpl.
  - apply preserves_ret.
  - apply preserves_bind; [apply P_generateEmbedding | intro embedding].
    apply preserves_bind; [apply preserves_setDocumentIndex | intros _].
    apply IH.
Qed.

Lemma preserves_generateEmbeddings :
  preserves P (SearchEngine.generateEmbeddings w).
Proof.
  unfold SearchEngine.generateEmbeddings.
  apply preserves_bind; [apply preserves_read | intro done].
  destruct done; [apply preserves_ret |].
  apply preserves_tryCatch.
  - apply preserves_bind; [apply P_initialize | intros _].
    apply preserves_bind; [apply preserves_read | intro mp].
    apply preserves_bind; [apply preserves_embedEach | intros _].
    intros st H. unfold setEmbeddingsGenerated. simpl. now apply P_flag.
  - intro e. apply preserves_bind; [apply preserves_emit, ok_console | intros _].
    apply preserves_throw.
Qed.

(** Every call of a public method keeps such a property. *)
Lemma preserves_after_trace (c : call) (st : state) : P st -> P (stateAfter w c st).
Proof.
  apply preserves_after.
  - apply preserves_indexDocuments.
  - apply preserves_generateEmbeddings.
  - apply P_generateEmbedding.
Qed.

End TraceProperties.

Lemma substring_length_le (s : string) (n m : nat) :
  (length (substring n m s) <= m)%nat.
Proof.
  revert n m. induction s as [| c s IH]; intros [| n] [| m]; simpl; try lia.
  - specialize (IH 0%nat m). lia.
  - apply (IH n 0%nat).
  - apply (IH n (S m)).
Qed.

Lemma slice_length_le (s : string) (n : nat) : (length (JS.slice s 0 n) <= n)%nat.
Proof. unfold JS.slice. rewrite Nat.sub_0_r. apply substring_length_le. Qed.

Lemma modelInputsBounded_event (st : state) (ev : event) :
  (forall text, ev = CallRunPipeline text -> (length text <= 2000)%nat) ->
  modelInputsBounded st ->
  modelInputsBounded
    (mkState (documentIndex st) (indexed st) (embeddingsGenerated st)
       (initialized st) (ev :: trace st)).
Proof.
  intros Hev H text [-> | Hin]; [now apply Hev | now apply H].
Qed.

Lemma modelInputsBounded_initialize (w : World) :
  preserves modelInputsBounded (EmbeddingService.initialize w).
Proof.
  intros st H. unfold EmbeddingService.initialize. run.
  destruct (initialized st); [exact H |].
  destruct (loadPipeline w) as [[] | e]; simpl;
    intros text Hin; simpl in Hin;
    repeat (destruct Hin as [Hin | Hin]; [discriminate |]); now apply H.
Qed.

Lemma modelInputsBounded_generateEmbedding (w : World) (text : string) :
  preserves modelInputsBounded (EmbeddingService.generateEmbedding w text).
Proof.
  unfold EmbeddingService.generateEmbedding.
  apply (preserves_bind modelInputsBounded); [intros st H; exact H | intro b].
  apply (preserves_bind modelInputsBounded).
  - destruct b; [intros st H; exact H | apply modelInputsBounded_initialize].
  - intros _. intros st H. unfold tryCatch, await, bind, emit, ret, throw. simpl.
    assert (Hb : modelInputsBounded
                   (mkState (documentIndex st) (indexed st) (embeddingsGenerated st)
                      (initialized st)
                      (CallRunPipeline (JS.slice text 0 2000) :: trace st))).
    { apply modelInputsBounded_event; [| exact H].
      intros t Ht. injection Ht as <-. apply slice_length_le. }
    destruct (runPipeline w (JS.slice text 0 2000)) as [v | e]; simpl; [exact Hb |].
    intros t [F | Hin]; [discriminate | now apply Hb].
Qed.

(** X8. No text of more than 2000 characters ever reaches the model: in
    every state that calls of the engine's methods lead to, each recorded
    call of the model has a text of at most 2000 characters. *)
Theorem X8_model_inputs_bounded (st : state) (text : string) :
  reachable st -> In (CallRunPipeline text) (trace st) -> (length text <= 2000)%nat.
Proof.
  intro H. revert text. change (modelInputsBounded st).
  induction H as [| w c st _ IH]; [intros text [] |].
  apply (preserves_after_trace modelInputsBounded
           (fun ev => forall t, ev = CallRunPipeline t -> (length t <= 2000)%nat)).
  - intros s mp ix Hs. exact Hs.
  - intros s ev Hev Hs. now apply modelInputsBounded_event.
  - intros ev Hev t ->. discriminate.
  - apply modelInputsBounded_initialize.
  - apply modelInputsBounded_generateEmbedding.
  - intros t e u F. discriminate.
  - intros s eg Hs. exact Hs.
  - exact IH.
Qed.

Lemma X8_model_inputs_bounded_witness :
  reachable (stateAfter (Example.corpus [1; 0]) (SearchFor "state" None) newEngine)
  /\ In (CallRunPipeline "state")
       (trace (stateAfter (Example.corpus [1; 0]) (SearchFor "state" None) newEngine))
  /\ (length "state" <= 2000)%nat.
Proof.
  assert (Hr : reachable
                 (stateAfter (Example.corpus [1; 0]) (SearchFor "state" None) newEngine))
    by (constructor; constructor).
  assert (Hin : In (CallRunPipeline "state")
                  (trace (stateAfter (Example.corpus [1; 0]) (SearchFor "state" None)
                            newEngine)))
    by (vm_compute; left; reflexivity).
  split; [exact Hr |]. split; [exact Hin |].
  exact (X8_model_inputs_bounded _ _ Hr Hin).
Defined.

(** X9. Once the model is loaded it is never loaded again: from a state in
    which the service is initialized, a call of any method of the engine,
    in any world, leaves the service initialized and the number of loads
    on the trace as it was. *)
Theorem X9_model_loaded_once (w : World) (c : call) (st : state) :
  initialized st = true ->
  initialized (stateAfter w c st) = true /\ loads (stateAfter w c st) = loads st.
Proof.
  intro Hi.
  apply (preserves_after_trace
           (fun s => initialized s = true /\ loads s = loads st)
           (fun ev => ev <> CallLoadPipeline)).
  - intros s mp ix Hs. exact Hs.
  - intros s ev Hev [Hs1 Hs2]. split; [exact Hs1 |].
    unfold loads in *. simpl. destruct ev; try exact Hs2. congruence.
  - intros ev Hev ->. discriminate.
  - intros s [Hs1 Hs2]. now rewrite (initialize_done w s Hs1).
  - intros text s [Hs1 Hs2]. unfold EmbeddingService.generateEmbedding. run.
    rewrite Hs1.
    destruct (runPipeline w (JS.slice text 0 2000)); simpl; now split.
  - intros text e. discriminate.
  - intros s eg Hs. exact Hs.
  - now split.
Qed.

Lemma X9_model_loaded_once_witness :
  initialized Example.embedded = true
  /\ initialized (stateAfter (Example.corpus [1; 0]) (SearchFor "state" None) Example.embedded)
     = true
  /\ loads (stateAfter (Example.corpus [1; 0]) (SearchFor "state" None) Example.embedded)
     = loads Example.embedded.
Proof.
  split; [reflexivity |].
  apply (X9_model_loaded_once (Example.corpus [1; 0]) (SearchFor "state" None)
           Example.embedded).
  reflexivity.
Defined.

(** X10. The keyword mode and the look-ups never touch the model: a call
    other than the embedding pass and a search in the hybrid mode leaves
    the events of the model and the flags of the embeddings as they were,
    whether or not it has to build the index first. *)
Theorem X10_keyword_mode_leaves_model (w : World) (c : call) (st : state) :
  usesModel c = false ->
  modelEvents (stateAfter w c st) = modelEvents st
  /\ initialized (stateAfter w c st) = initialized st
  /\ embeddingsGenerated (stateAfter w c st) = embeddingsGenerated st.
Proof.
  intro Hc.
  set (P := fun s => modelEvents s = modelEvents st
                     /\ initialized s = initialized st
                     /\ embeddingsGenerated s = embeddingsGenerated st).
  assert (Hframe : forall s mp ix,
             P s -> P (mkState mp ix (embeddingsGenerated s) (initialized s) (trace s))).
  { intros s mp ix Hs. exact Hs. }
  assert (Hevent : forall s ev,
             modelEvent ev = false -> P s ->
             P (mkState (documentIndex s) (indexed s) (embeddingsGenerated s)
                  (initialized s) (ev :: trace s))).
  { intros s ev Hev (Hs1 & Hs2 & Hs3). split; [| split; assumption].
    unfold modelEvents in *. simpl. now rewrite Hev. }
  assert (H0 : P st) by (repeat split).
  assert (Hindex : forall s, P s -> indexed s = false ->
                    P (snd (SearchEngine.indexDocuments w s))).
  { intros s Hs _.
    exact (preserves_indexDocuments P _ Hframe Hevent (fun ev H => H) w s Hs). }
  destruct c; simpl in Hc |- *; try discriminate.
  - exact (preserves_indexDocuments P _ Hframe Hevent (fun ev H => H) w st H0).
  - exact (preserves_search_keyword P w Hindex query options Hc st H0).
  - exact (preserves_getDocByPath P w Hindex p st H0).
  - exact H0.
  - exact (preserves_getDocsBySection P w Hindex sectionName st H0).
Qed.

Lemma X10_keyword_mode_leaves_model_witness :
  modelEvents
    (stateAfter (Example.corpus [1; 0])
       (SearchFor "state" (Example.options None (Some false))) newEngine)
  = modelEvents newEngine.
Proof.
  apply (X10_keyword_mode_leaves_model (Example.corpus [1; 0])
           (SearchFor "state" (Example.options None (Some false))) newEngine).
  reflexivity.
Defined.

(** * The index: its keys, and what a search does to it *)

Lemma sameButEmbedding_refl (d : ParsedDoc) : sameButEmbedding d d.
Proof. repeat split. Qed.

Lemma sameButEmbedding_trans (a b c : ParsedDoc) :
  sameButEmbedding a b -> sameButEmbedding b c -> sameButEmbedding a c.
Proof.
  intros (H1 & H2 & H3 & H4 & H5) (K1 & K2 & K3 & K4 & K5).
  repeat split; congruence.
Qed.

Lemma sameIndex_refl (mp : JSMap.t) : sameIndex mp mp.
Proof.
  induction mp as [| kd mp IH]; constructor; [| exact IH].
  split; [reflexivity | apply sameButEmbedding_refl].
Qed.

Lemma sameIndex_trans (a b c : JSMap.t) :
  sameIndex a b -> sameIndex b c -> sameIndex a c.
Proof.
  intro H. revert c. induction H as [| x y a b [Hk Hd] _ IH]; intros c Hc.
  - inversion Hc. constructor.
  - inversion Hc as [| y' z b' c' [Hk' Hd'] Hrest]; subst. constructor.
    + split; [congruence | eapply sameButEmbedding_trans; eassumption].
    + now apply IH.
Qed.

Lemma sameIndex_setEmbedding (passed rest : JSMap.t) (key : string) (d : ParsedDoc)
    (v : list Q) :
  sameIndex (passed ++ (key, d) :: rest) ((passed ++ [(key, setEmbedding d v)]) ++ rest).
Proof.
  rewrite <- app_assoc. simpl. induction passed as [| kd passed IH]; simpl.
  - constructor; [| apply sameIndex_refl]. split; [reflexivity |]. repeat split.
  - constructor; [| exact IH]. split; [reflexivity | apply sameButEmbedding_refl].
Qed.

Lemma sameIndex_keys (mp mp' : JSMap.t) :
  sameIndex mp mp' -> map fst mp = map fst mp'.
Proof.
  induction 1 as [| x y a b [Hk _] _ IH]; simpl; [reflexivity | now rewrite Hk, IH].
Qed.

Lemma sameIndex_wellKeyed (mp mp' : JSMap.t) :
  sameIndex mp mp' -> wellKeyed mp -> wellKeyed mp'.
Proof.
  intros H [Hn Hk]. split.
  - now rewrite <- (sameIndex_keys mp mp' H).
  - clear Hn. induction H as [| x y a b [Hxy (Hp & _)] _ IH]; [constructor |].
    inversion Hk as [| ? ? Hx Ha]; subst. constructor; [congruence | now apply IH].
Qed.

(** What the operations of the model leave alone. *)
Lemma initialize_fields (w : World) (st : state) :
  documentIndex (snd (EmbeddingService.initialize w st)) = documentIndex st
  /\ indexed (snd (EmbeddingService.initialize w st)) = indexed st
  /\ embeddingsGenerated (snd (EmbeddingService.initialize w st))
     = embeddingsGenerated st.
Proof.
  unfold EmbeddingService.initialize. run.
  destruct (initialized st); [repeat split |].
  destruct (loadPipeline w) as [[] | e]; repeat split.
Qed.

Lemma generateEmbedding_fields (w : World) (text : string) (st : state) :
  documentIndex (snd (EmbeddingService.generateEmbedding w text st)) = documentIndex st
  /\ indexed (snd (EmbeddingService.generateEmbedding w text st)) = indexed st
  /\ embeddingsGenerated (snd (EmbeddingService.generateEmbedding w text st))
     = embeddingsGenerated st.
Proof.
  unfold EmbeddingService.generateEmbedding. run.
  destruct (initialized st) eqn:Ei.
  - destruct (runPipeline w (JS.slice text 0 2000)); repeat split.
  - pose proof (initialize_fields w st) as (H1 & H2 & H3).
    destruct (EmbeddingService.initialize w st) as [[[] | e |] st1]; simpl in *;
      [| repeat split; assumption ..].
    destruct (runPipeline w (JS.slice text 0 2000)); simpl;
      repeat split; assumption.
Qed.

Section EmbeddingPass.

Variable w : World.
Variable base : JSMap.t.
Variable ix : bool.

Lemma kept_generateEmbedding (text : string) :
  preserves (keepsRecords base ix) (EmbeddingService.generateEmbedding w text).
Proof.
  intros st [H1 H2]. pose proof (generateEmbedding_fields w text st) as (K1 & K2 & _).
  split; congruence.
Qed.

Lemma kept_initialize : preserves (keepsRecords base ix) (EmbeddingService.initialize w).
Proof.
  intros st [H1 H2]. pose proof (initialize_fields w st) as (K1 & K2 & _).
  split; congruence.
Qed.

Lemma kept_embedEach (rest passed : JSMap.t) :
  sameIndex base (passed ++ rest) ->
  preserves (keepsRecords base ix) (SearchEngine.embedEach w passed rest).
Proof.
  revert passed. induction rest as [| [key d] rest IH]; intros passed Hb; simpl.
  - apply preserves_ret.
  - apply preserves_bind; [apply kept_generateEmbedding | intro v].
    assert (Hb' : sameIndex base ((passed ++ [(key, setEmbedding d v)]) ++ rest)).
    { eapply sameIndex_trans; [exact Hb | apply sameIndex_setEmbedding]. }
    apply preserves_bind; [| intros _; now apply IH].
    intros st [H1 H2]. split; [exact H1 |]. simpl.
    rewrite <- app_assoc in Hb'. exact Hb'.
Qed.

Lemma kept_generateEmbeddings : preserves (keepsRecords base ix) (SearchEngine.generateEmbeddings w).
Proof.
  unfold SearchEngine.generateEmbeddings.
  apply preserves_bind; [apply preserves_read | intro done].
  destruct done; [apply preserves_ret |].
  apply preserves_tryCatch.
  - apply preserves_bind; [apply kept_initialize | intros _].
    intros st [H1 H2]. unfold bind at 1. unfold read at 1.
    pose proof (kept_embedEach (documentIndex st) [] H2 st (conj H1 H2)) as H.
    unfold bind.
    destruct (SearchEngine.embedEach w [] (documentIndex st) st) as [[[] | e |] st1];
      simpl in *; exact H.
  - intro e. apply preserves_bind; [| intros _; apply preserves_throw].
    intros st H. exact H.
Qed.

End EmbeddingPass.

Lemma set_keys_In (k x : string) (v : ParsedDoc) (mp : JSMap.t) :
  In x (map fst (JSMap.set k v mp)) <-> x = k \/ In x (map fst mp).
Proof.
  induction mp as [| [k0 v0] mp IH]; simpl.
  - intuition.
  - destruct (k0 =? k)%string eqn:E; simpl.
    + apply String.eqb_eq in E. subst. intuition.
    + rewrite IH. intuition.
Qed.

Lemma set_keys_NoDup (k : string) (v : ParsedDoc) (mp : JSMap.t) :
  NoDup (map fst mp) -> NoDup (map fst (JSMap.set k v mp)).
Proof.
  induction mp as [| [k0 v0] mp IH]; simpl; intro H.
  - constructor; [intros [] | constructor].
  - inversion H as [| ? ? Hnin Hrest]; subst.
    destruct (k0 =? k)%string eqn:E; simpl.
    + constructor; assumption.
    + constructor; [| now apply IH].
      rewrite set_keys_In. intros [-> | Hin]; [| contradiction].
      rewrite String.eqb_refl in E. discriminate.
Qed.

Lemma set_Forall (Q : string * ParsedDoc -> Prop) (k : string) (v : ParsedDoc)
    (mp : JSMap.t) :
  (forall k0, Q (k0, v)) -> Forall Q mp -> Forall Q (JSMap.set k v mp).
Proof.
  intros Hv. induction mp as [| [k0 v0] mp IH]; simpl; intro H.
  - constructor; [apply Hv | constructor].
  - inversion H as [| ? ? H0 Hrest]; subst.
    destruct (k0 =? k)%string eqn:E.
    + constructor; [apply Hv | assumption].
    + constructor; [assumption | now apply IH].
Qed.

Lemma set_wellKeyed (d : ParsedDoc) (mp : JSMap.t) :
  wellKeyed mp -> wellKeyed (JSMap.set (path d) d mp).
Proof.
  intros [Hn Hk]. split; [now apply set_keys_NoDup |].
  clear Hn. induction mp as [| [k0 v0] mp IH]; simpl.
  - constructor; [reflexivity | constructor].
  - inversion Hk as [| ? ? H0 Hrest]; subst.
    destruct (k0 =? path d)%string eqn:E.
    + apply String.eqb_eq in E. constructor; [exact E | assumption].
    + constructor; [assumption | now apply IH].
Qed.

Lemma rebuilt_wellKeyed (w : World) (ids : list string) (mp : JSMap.t) :
  wellKeyed mp -> wellKeyed (fold_left (Spec.insertDoc w) ids mp).
Proof.
  revert mp. induction ids as [| id ids IH]; intros mp H; simpl; [exact H |].
  apply IH. unfold Spec.insertDoc.
  destruct (Spec.fetchParse w id); [now apply set_wellKeyed | exact H].
Qed.

(** The index a rebuild leaves, whatever the listing answers. *)
Lemma indexDocuments_index (w : World) (st : state) :
  documentIndex (snd (SearchEngine.indexDocuments w st))
  = match getAllDocs w with
    | Resolved ids => Spec.rebuilt w ids
    | Rejected _ => []
    end.
Proof.
  destruct (getAllDocs w) as [ids | e] eqn:E.
  - now rewrite (indexDocuments_run w st ids E).
  - unfold SearchEngine.indexDocuments. run. now rewrite E.
Qed.

Lemma wellKeyed_nil : wellKeyed [].
Proof. split; constructor. Qed.

Lemma indexDocuments_wellKeyed (w : World) (st : state) :
  wellKeyed (documentIndex (snd (SearchEngine.indexDocuments w st))).
Proof.
  rewrite indexDocuments_index. destruct (getAllDocs w); [| apply wellKeyed_nil].
  apply rebuilt_wellKeyed, wellKeyed_nil.
Qed.

Lemma reachable_wellKeyed (st : state) : reachable st -> wellKeyed (documentIndex st).
Proof.
  induction 1 as [| w c st _ IH]; [apply wellKeyed_nil |].
  apply (preserves_after (fun s => wellKeyed (documentIndex s))); [| | | exact IH].
  - intros s _. apply indexDocuments_wellKeyed.
  - intros s Hs.
    destruct (kept_generateEmbeddings w (documentIndex s) (indexed s) s) as [_ H].
    + split; [reflexivity | apply sameIndex_refl].
    + exact (sameIndex_wellKeyed _ _ H Hs).
  - intros text s Hs. pose proof (generateEmbedding_fields w text s) as (H & _).
    now rewrite H.
Qed.

Lemma get_In (k : string) (d : ParsedDoc) (mp : JSMap.t) :
  JSMap.get k mp = Some d -> In (k, d) mp.
Proof.
  induction mp as [| [k0 v0] mp IH]; simpl; [discriminate |].
  destruct (k0 =? k)%string eqn:E.
  - apply String.eqb_eq in E. intro H. injection H as ->. subst. now left.
  - intro H. right. now apply IH.
Qed.

Lemma In_get (k : string) (d : ParsedDoc) (mp : JSMap.t) :
  NoDup (map fst mp) -> In (k, d) mp -> JSMap.get k mp = Some d.
Proof.
  induction mp as [| [k0 v0] mp IH]; simpl; intros Hn Hin; [contradiction |].
  inversion Hn as [| ? ? Hnin Hrest]; subst.
  destruct Hin as [Heq | Hin].
  - injection Heq as -> ->. now rewrite String.eqb_refl.
  - destruct (k0 =? k)%string eqn:E; [| now apply IH].
    apply String.eqb_eq in E. subst. exfalso. apply Hnin.
    apply in_map_iff. exists (k, d). split; [reflexivity | assumption].
Qed.

Lemma wellKeyed_paths (mp : JSMap.t) :
  wellKeyed mp -> map path (JSMap.values mp) = map fst mp.
Proof.
  intros [_ Hk]. unfold JSMap.values. rewrite map_map.
  induction Hk as [| kd mp H _ IH]; simpl; [reflexivity | now rewrite H, IH].
Qed.

Lemma wellKeyed_get (mp : JSMap.t) (k : string) (d : ParsedDoc) :
  wellKeyed mp ->
  (JSMap.get k mp = Some d <-> In d (JSMap.values mp) /\ path d = k).
Proof.
  intros [Hn Hk]. split.
  - intro H. apply get_In in H. split.
    + unfold JSMap.values. apply in_map_iff. exists (k, d). now split.
    + rewrite Forall_forall in Hk. symmetry. exact (Hk _ H).
  - intros [Hin Hp]. unfold JSMap.values in Hin. apply in_map_iff in Hin.
    destruct Hin as ([k' d'] & Hd & Hin). simpl in Hd. subst d'.
    rewrite Forall_forall in Hk. pose proof (Hk _ Hin) as Hk'. simpl in Hk'.
    apply In_get; [assumption |]. congruence.
Qed.

(** X11. In every state that calls of the engine's methods lead to, no two
    records of the index have the same path, and a look-up under a key finds
    the record with that path: [documentIndex.get(k)] is the record [d]
    exactly when [d] is in the index and its path is [k]. *)
Theorem X11_index_keyed_by_path (st : state) :
  reachable st ->
  NoDup (map path (JSMap.values (documentIndex st)))
  /\ forall k d,
       JSMap.get k (documentIndex st) = Some d
       <-> In d (JSMap.values (documentIndex st)) /\ path d = k.
Proof.
  intro H. apply reachable_wellKeyed in H. split.
  - rewrite (wellKeyed_paths _ H). apply H.
  - intros k d. now apply wellKeyed_get.
Qed.

Lemma X11_index_keyed_by_path_witness :
  reachable Example.built
  /\ NoDup (map path (JSMap.values (documentIndex Example.built)))
  /\ JSMap.get "learn/a" (documentIndex Example.built) = Some Example.docA.
Proof.
  assert (Hr : reachable Example.built).
  { apply (reachable_call Example.failingOnB IndexDocuments newEngine). constructor. }
  destruct (X11_index_keyed_by_path Example.built Hr) as [Hn Hget].
  split; [exact Hr |]. split; [exact Hn |].
  apply Hget. split; [left; reflexivity | reflexivity].
Defined.

(** X12. [getDocByPath] on an engine in any such state: the record it
    returns has the path asked for, with one [.md] at its end left out, and
    it returns [null] only when the index, built first if it was not,
    holds no record of that path. *)
Theorem X12_getDocByPath_finds_path (w : World) (st st' : state) (p : string)
    (found : option ParsedDoc) :
  reachable st ->
  SearchEngine.getDocByPath w p st = (Ok found, st') ->
  match found with
  | Some d => In d (JSMap.values (documentIndex st')) /\ path d = JS.stripMd p
  | None =>
      forall d, In d (JSMap.values (documentIndex st')) -> path d <> JS.stripMd p
  end.
Proof.
  intros Hr Hrun.
  assert (Hr' : reachable st').
  { replace st' with (stateAfter w (GetDocByPath p) st);
      [now constructor | simpl; now rewrite Hrun]. }
  apply reachable_wellKeyed in Hr'.
  assert (Hget : found = JSMap.get (JS.stripMd p) (documentIndex st')).
  { revert Hrun. unfold SearchEngine.getDocByPath.
    unfold bind at 1. unfold read at 1. unfold bind at 1.
    destruct ((if indexed st then ret tt else SearchEngine.indexDocuments w) st)
      as [[[] | e |] st1]; try discriminate.
    run. intro H. injection H as <- <-. reflexivity. }
  destruct found as [d |].
  - symmetry in Hget. now apply (wellKeyed_get _ _ _ Hr') in Hget.
  - intros d Hin Hp.
    assert (H : JSMap.get (JS.stripMd p) (documentIndex st') = Some d)
      by (apply (wellKeyed_get _ _ _ Hr'); now split).
    congruence.
Qed.

Lemma X12_getDocByPath_finds_path_witness :
  reachable newEngine
  /\ SearchEngine.getDocByPath (Example.corpus [1; 0]) "learn/b.md" newEngine
     = (Ok (Some Example.docB), snd lookupB)
  /\ path Example.docB = "learn/b".
Proof.
  assert (Hrun : SearchEngine.getDocByPath (Example.corpus [1; 0]) "learn/b.md" newEngine
                 = (Ok (Some Example.docB), snd lookupB))
    by (vm_compute; reflexivity).
  split; [constructor |]. split; [exact Hrun |].
  exact (proj2 (X12_getDocByPath_finds_path (Example.corpus [1; 0]) newEngine
                  (snd lookupB) "learn/b.md" (Some Example.docB) reachable_new Hrun)).
Defined.

Lemma NoDup_firstn {A : Type} (n : nat) (l : list A) : NoDup l -> NoDup (firstn n l).
Proof.
  intro H. rewrite <- (firstn_skipn n l) in H. now apply NoDup_app_remove_r in H.
Qed.

Lemma NoDup_filter_map {A B : Type} (f : A -> B) (keep : A -> bool) (l : list A) :
  NoDup (map f l) -> NoDup (map f (filter keep l)).
Proof.
  induction l as [| x l IH]; simpl; intro H; [constructor |].
  inversion H as [| ? ? Hnin Hrest]; subst.
  destruct (keep x); simpl; [| now apply IH].
  constructor; [| now apply IH].
  intro Hin. apply Hnin. apply in_map_iff in Hin. destruct Hin as (y & Hy & Hin).
  apply filter_In in Hin. apply in_map_iff. exists y. tauto.
Qed.

(** Entries that give at most one result for a record, and that of the
    record itself, give no path twice. *)
Lemma flat_map_paths (entry : ParsedDoc -> list SearchResult) (l : list ParsedDoc) :
  (forall d, entry d = [] \/ exists r, entry d = [r] /\ doc r = d) ->
  NoDup (map path l) ->
  NoDup (map (fun r => path (doc r)) (flat_map entry l)).
Proof.
  intro He. induction l as [| d l IH]; simpl; intro H; [constructor |].
  inversion H as [| ? ? Hnin Hrest]; subst.
  destruct (He d) as [-> | (r & -> & Hr)]; simpl; [now apply IH |].
  constructor; [| now apply IH].
  rewrite Hr. intro Hin. apply Hnin.
  apply in_map_iff in Hin. destruct Hin as (r' & Hp & Hin).
  apply in_flat_map in Hin. destruct Hin as (d' & Hd' & Hin).
  destruct (He d') as [E | (r'' & E & Hr'')]; rewrite E in Hin; [contradiction |].
  destruct Hin as [<- | []]. apply in_map_iff. exists d'. split; [congruence | assumption].
Qed.

Lemma hybridEntry_single (w : World) (qe : list Q) (terms : list string) (d : ParsedDoc) :
  Spec.hybridEntry w qe terms d = []
  \/ exists r, Spec.hybridEntry w qe terms d = [r] /\ doc r = d.
Proof.
  unfold Spec.hybridEntry.
  destruct (SearchEngine.scoreDocument d terms); [| now left ..].
  destruct (embedding d); [| now left].
  destruct (Qle_bool _ _); [right; eexists; split; reflexivity | now left].
Qed.

Lemma keywordEntry_single (f : option string) (terms : list string) (ms : Q)
    (d : ParsedDoc) :
  Spec.keywordEntry f terms ms d = []
  \/ exists r, Spec.keywordEntry f terms ms d = [r] /\ doc r = d.
Proof.
  unfold Spec.keywordEntry.
  destruct (SearchEngine.filteredOut f d); [now left |].
  destruct (SearchEngine.scoreDocument d terms); [| now left ..].
  destruct (Qle_bool _ _); [right; eexists; split; reflexivity | now left].
Qed.

Lemma qualifying_paths (w : World) (query : string) (options : option SearchOptions.t)
    (mp : JSMap.t) :
  NoDup (map path (JSMap.values mp)) ->
  NoDup (map (fun r => path (doc r)) (Spec.qualifying w query options mp)).
Proof.
  intro H. unfold Spec.qualifying.
  destruct (SearchEngine.useSemanticSearchOf options).
  - destruct (runPipeline w (JS.slice query 0 2000)); [| constructor].
    apply flat_map_paths; [intro d; apply hybridEntry_single |].
    unfold SearchEngine.candidates. now apply NoDup_filter_map.
  - apply flat_map_paths; [intro d; apply keywordEntry_single | exact H].
Qed.

Lemma search_state_reachable (w : World) (query : string)
    (options : option SearchOptions.t) (st st' : state)
    (o : outcome (list SearchResult)) :
  reachable st -> SearchEngine.search w query options st = (o, st') -> reachable st'.
Proof.
  intros Hr Hrun.
  replace st' with (stateAfter w (SearchFor query options) st);
    [now constructor | simpl; now rewrite Hrun].
Qed.

(** X13. A search never returns a document twice: on an engine in any state
    that calls of its methods lead to, the paths of the records of the
    results are pairwise distinct, in either mode. *)
Theorem X13_search_no_document_twice (w : World) (query : string)
    (options : option SearchOptions.t) (st st' : state)
    (results : list SearchResult) :
  reachable st ->
  SearchEngine.search w query options st = (Ok results, st') ->
  NoDup (map (fun r => path (doc r)) results).
Proof.
  intros Hr Hrun.
  pose proof (search_state_reachable _ _ _ _ _ _ Hr Hrun) as Hr'.
  apply reachable_wellKeyed in Hr'.
  assert (Hn : NoDup (map path (JSMap.values (documentIndex st')))).
  { rewrite (wellKeyed_paths _ Hr'). apply Hr'. }
  destruct (search_qualifying w query options st st' results Hrun)
    as [[_ ->] | (_ & -> & _)]; [constructor |].
  destruct (arraySlice0_firstn
              (JS.sort SearchEngine.byScoreDescending
                 (Spec.qualifying w query options (documentIndex st')))
              (SearchEngine.effectiveLimit options)) as (n & ->).
  rewrite <- firstn_map. apply NoDup_firstn.
  eapply Permutation_NoDup.
  - apply Permutation_map, Permutation_sym, sort_perm.
  - now apply qualifying_paths.
Qed.

Lemma X13_search_no_document_twice_witness :
  reachable newEngine
  /\ SearchEngine.search (Example.corpus [1; 0]) "state" None newEngine
     = (Ok (Example.resultsOf Example.hybridDefault), snd Example.hybridDefault)
  /\ NoDup (map (fun r => path (doc r)) (Example.resultsOf Example.hybridDefault)).
Proof.
  assert (Hrun : SearchEngine.search (Example.corpus [1; 0]) "state" None newEngine
                 = (Ok (Example.resultsOf Example.hybridDefault),
                    snd Example.hybridDefault))
    by (vm_compute; reflexivity).
  split; [constructor |]. split; [exact Hrun |].
  exact (X13_search_no_document_twice (Example.corpus [1; 0]) "state" None newEngine
           (snd Example.hybridDefault) (Example.resultsOf Example.hybridDefault)
           reachable_new Hrun).
Defined.

(** X14. Nothing but a rebuild adds, removes, reorders or rewrites records:
    on an indexed engine every other call, whether it returns or throws,
    leaves an index with the same keys in the same order whose records
    differ from the ones before at most in their embeddings, and leaves the
    engine indexed. *)
Theorem X14_only_rebuild_changes_records (w : World) (c : call) (st : state) :
  indexed st = true -> c <> IndexDocuments ->
  sameIndex (documentIndex st) (documentIndex (stateAfter w c st))
  /\ indexed (stateAfter w c st) = true.
Proof.
  intros Hi Hc.
  destruct (preserves_lookups (keepsRecords (documentIndex st) true) w)
    with (c := c) (st := st) as [H1 H2].
  - intros s [Hs _] F. congruence.
  - apply kept_generateEmbeddings.
  - intro text. apply kept_generateEmbedding.
  - exact Hc.
  - split; [exact Hi | apply sameIndex_refl].
  - now split.
Qed.

Lemma X14_only_rebuild_changes_records_witness :
  indexed Example.built = true
  /\ SearchFor "state" None <> IndexDocuments
  /\ sameIndex (documentIndex Example.built)
       (documentIndex
          (stateAfter (Example.corpus [1; 0]) (SearchFor "state" None) Example.built)).
Proof.
  split; [reflexivity |]. split; [discriminate |].
  apply (X14_only_rebuild_changes_records (Example.corpus [1; 0])
           (SearchFor "state" None) Example.built); [reflexivity | discriminate].
Defined.

(** * [searchEngine.ts]: rebuilds, failures and the two modes *)

Lemma insertDoc_Forall (Q : ParsedDoc -> Prop) (w : World) (ids : list string)
    (mp : JSMap.t) :
  (forall id d, Spec.fetchParse w id = Resolved d -> Q d) ->
  Forall Q (JSMap.values mp) ->
  Forall Q (JSMap.values (fold_left (Spec.insertDoc w) ids mp)).
Proof.
  intro Hq. revert mp. induction ids as [| id ids IH]; intros mp H; simpl; [exact H |].
  apply IH. unfold Spec.insertDoc. destruct (Spec.fetchParse w id) as [d | e] eqn:E;
    [| exact H].
  unfold JSMap.values in *. rewrite Forall_map in *.
  apply set_Forall; [intro k0; exact (Hq id d E) | exact H].
Qed.

Lemma candidates_none (mp : JSMap.t) (f : option string) :
  Forall (fun d => embedding d = None) (JSMap.values mp) ->
  SearchEngine.candidates mp f = [].
Proof.
  unfold SearchEngine.candidates. induction 1 as [| d l Hd _ IH]; simpl; [reflexivity |].
  rewrite Hd. destruct (SearchEngine.filteredOut f d); exact IH.
Qed.

Lemma arraySlice0_nil {A : Type} (q : Q) : JS.arraySlice0 (@nil A) q = [].
Proof. destruct (arraySlice0_firstn (@nil A) q) as (n & ->). apply firstn_nil. Qed.

(** X15. A rebuild does not reset the flag of the embedding pass.  After a
    completed pass and a rebuild with a parser that gives records without
    embeddings, as [parseMarkdown] does, a search in the hybrid mode skips
    the pass, asks the model for the query alone and returns no result at
    all, whatever the query. *)
Theorem X15_rebuild_leaves_hybrid_search_empty (w w' : World) (st : state)
    (ids : list string) (query : string) (options : option SearchOptions.t)
    (qe : list Q) :
  embeddingsGenerated st = true ->
  initialized st = true ->
  getAllDocs w = Resolved ids ->
  (forall raw id d, parseMarkdown w raw id = Resolved d -> embedding d = None) ->
  JS.truthy (JS.trim query) = true ->
  SearchEngine.useSemanticSearchOf options = true ->
  runPipeline w' (JS.slice query 0 2000) = Resolved qe ->
  let rebuiltEngine := snd (SearchEngine.indexDocuments w st) in
  embeddingsGenerated rebuiltEngine = true
  /\ Forall (fun d => embedding d = None) (JSMap.values (documentIndex rebuiltEngine))
  /\ SearchEngine.search w' query options rebuiltEngine
     = (Ok [], withTrace rebuiltEngine [CallRunPipeline (JS.slice query 0 2000)]).
Proof.
  intros Hg Hi Hl Hp Hq Hs He rebuiltEngine.
  assert (Hnone : Forall (fun d => embedding d = None)
                    (JSMap.values (documentIndex rebuiltEngine))).
  { unfold rebuiltEngine. rewrite (indexDocuments_run w st ids Hl). simpl.
    apply insertDoc_Forall; [| constructor].
    intros id d. unfold Spec.fetchParse. destruct (readDoc w id); [apply Hp | discriminate]. }
  assert (Hst : indexed rebuiltEngine = true /\ embeddingsGenerated rebuiltEngine = true
                /\ initialized rebuiltEngine = true).
  { unfold rebuiltEngine. rewrite (indexDocuments_run w st ids Hl). simpl. auto. }
  destruct Hst as (Hx & Hg' & Hi').
  split; [exact Hg' |]. split; [exact Hnone |].
  clearbody rebuiltEngine.
  unfold SearchEngine.search. unfold bind at 1. unfold read at 1. rewrite Hx.
  unfold bind at 1. unfold ret at 1. rewrite Hq, Hs. cbn [negb].
  unfold SearchEngine.semanticSearch. unfold bind at 1. unfold read at 1. rewrite Hg'.
  unfold bind at 1. unfold ret at 1.
  unfold bind at 1.
  rewrite (generateEmbedding_resolved w' rebuiltEngine query qe Hi' He).
  unfold bind at 1. unfold read at 1. cbn [documentIndex withTrace].
  rewrite (candidates_none _ _ Hnone). cbn [SearchEngine.hybridLoop].
  unfold bind, liftOutcome, ret. cbn [JS.sort fold_right].
  now rewrite arraySlice0_nil.
Qed.

Lemma X15_rebuild_leaves_hybrid_search_empty_witness :
  embeddingsGenerated Example.embedded = true
  /\ SearchEngine.search (Example.corpus [1; 0]) "state" None
       (snd (SearchEngine.indexDocuments (Example.corpus [1; 0]) Example.embedded))
     = (Ok [],
        withTrace (snd (SearchEngine.indexDocuments (Example.corpus [1; 0]) Example.embedded))
          [CallRunPipeline (JS.slice "state" 0 2000)]).
Proof.
  split; [reflexivity |].
  apply (X15_rebuild_leaves_hybrid_search_empty (Example.corpus [1; 0])
           (Example.corpus [1; 0]) Example.embedded ["learn/a.md"; "learn/b.md"]
           "state" None [1; 0]); try reflexivity.
  intros raw id d. simpl. unfold Example.parse.
  destruct (id =? "learn/a.md")%string; [intro H; injection H as <-; reflexivity |].
  destruct (id =? "learn/b.md")%string; [intro H; injection H as <-; reflexivity |].
  discriminate.
Defined.

(** X16. When the listing of the corpus fails, a rebuild throws the error
    of the listing after it has emptied the index, and leaves the flag
    [indexed] as it was.  An engine that was indexed is then indexed and
    empty: a search in the keyword mode returns no result and no error,
    and [getDocByPath] returns [null], for every query and path. *)
Theorem X16_failed_listing_empties_index (w : World) (st : state) (e : error) :
  getAllDocs w = Rejected e ->
  let emptied :=
    mkState [] (indexed st) (embeddingsGenerated st) (initialized st)
      (CallGetAllDocs :: trace st) in
  SearchEngine.indexDocuments w st = (Throw e, emptied)
  /\ (indexed st = true ->
      forall w' query options p,
        SearchEngine.useSemanticSearchOf options = false ->
        SearchEngine.search w' query options emptied = (Ok [], emptied)
        /\ SearchEngine.getDocByPath w' p emptied = (Ok None, emptied)).
Proof.
  intros Hl emptied. split.
  - unfold SearchEngine.indexDocuments. run. now rewrite Hl.
  - intros Hi w' query options p Hk. split.
    + unfold SearchEngine.search. unfold bind at 1. unfold read at 1.
      cbn [indexed emptied]. rewrite Hi. unfold bind at 1. unfold ret at 1.
      destruct (negb (JS.truthy (JS.trim query))); [reflexivity |].
      rewrite Hk. unfold SearchEngine.keywordSearch. run.
      now rewrite arraySlice0_nil.
    + unfold SearchEngine.getDocByPath. unfold bind at 1. unfold read at 1.
      cbn [indexed emptied]. rewrite Hi. reflexivity.
Qed.

Lemma X16_failed_listing_empties_index_witness :
  SearchEngine.indexDocuments
    (mkWorld (Rejected (Error "no disk")) (fun id => Resolved id) Example.parse
       (Resolved tt) (fun _ => Resolved [1; 0]) Example.sqrtExact)
    Example.built
  = (Throw (Error "no disk"),
     mkState [] true false false (CallGetAllDocs :: trace Example.built)).
Proof.
  apply (X16_failed_listing_empties_index
           (mkWorld (Rejected (Error "no disk")) (fun id => Resolved id) Example.parse
              (Resolved tt) (fun _ => Resolved [1; 0]) Example.sqrtExact)
           Example.built (Error "no disk")).
  reflexivity.
Defined.

(** X17. The hybrid mode does not fall back on the keyword mode: when the
    model cannot be loaded, a search in the hybrid mode for a query that is
    not blank throws [Embedding initialization failed: ...] with the
    message of the loader, whether or not the embedding pass is marked as
    done. *)
Theorem X17_hybrid_search_needs_model (w : World) (st : state) (query : string)
    (options : option SearchOptions.t) (e : error) :
  indexed st = true \/ (exists ids, getAllDocs w = Resolved ids) ->
  JS.truthy (JS.trim query) = true ->
  SearchEngine.useSemanticSearchOf options = true ->
  initialized st = false ->
  loadPipeline w = Rejected e ->
  fst (SearchEngine.search w query options st)
  = Throw (Error ("Embedding initialization failed: " ++ message e)).
Proof.
  intros Hx Hq Hs Hi Hl.
  assert (H1 : exists st1,
             (if indexed st then ret tt else SearchEngine.indexDocuments w) st
             = (Ok tt, st1)
             /\ initialized st1 = false).
  { destruct (indexed st) eqn:Ex.
    - exists st. now split.
    - destruct Hx as [Hx | [ids Hids]]; [discriminate |].
      rewrite (indexDocuments_run w st ids Hids). eexists. split; [reflexivity |].
      exact Hi. }
  destruct H1 as (st1 & Hrun & Hi1).
  unfold SearchEngine.search. unfold bind at 1. unfold read at 1.
  unfold bind at 1. rewrite Hrun. rewrite Hq, Hs. cbn [negb].
  unfold SearchEngine.semanticSearch. unfold bind at 1. unfold read at 1.
  destruct (embeddingsGenerated st1) eqn:Eg.
  - unfold bind at 1. unfold ret at 1. unfold bind at 1.
    unfold EmbeddingService.generateEmbedding. unfold bind at 1. unfold read at 1.
    rewrite Hi1. unfold bind at 1. rewrite (initialize_fails w st1 e Hi1 Hl).
    reflexivity.
  - unfold bind at 1.
    destruct (generateEmbeddings_init_fails w st1 e Eg Hi1 Hl) as (st2 & -> & _).
    reflexivity.
Qed.

Lemma X17_hybrid_search_needs_model_witness :
  fst (SearchEngine.search
         (mkWorld (Resolved ["learn/a.md"]) (fun id => Resolved id) Example.parse
            (Rejected (Error "offline")) (fun _ => Resolved [1; 0]) Example.sqrtExact)
         "state" None newEngine)
  = Throw (Error "Embedding initialization failed: offline").
Proof.
  apply (X17_hybrid_search_needs_model
           (mkWorld (Resolved ["learn/a.md"]) (fun id => Resolved id) Example.parse
              (Rejected (Error "offline")) (fun _ => Resolved [1; 0]) Example.sqrtExact)
           newEngine "state" None (Error "offline")); try reflexivity.
  right. eexists. reflexivity.
Defined.

Lemma getDocsBySection_run (w : World) (st st' : state) (name : string) :
  (if indexed st then ret tt else SearchEngine.indexDocuments w) st = (Ok tt, st') ->
  SearchEngine.getDocsBySection w name st
  = (Ok (filter
           (fun d => (JS.toLowerCase (section d) =? JS.toLowerCase name)%string)
           (JSMap.values (documentIndex st'))), st').
Proof.
  intro Hrun. unfold SearchEngine.getDocsBySection.
  unfold bind at 1. unfold read at 1. unfold bind at 1. rewrite Hrun. reflexivity.
Qed.

Lemma truthy_toLowerCase (s : string) : JS.truthy (JS.toLowerCase s) = JS.truthy s.
Proof. now destruct s. Qed.

Lemma qualifying_In (w : World) (query : string) (options : option SearchOptions.t)
    (mp : JSMap.t) (r : SearchResult) :
  In r (Spec.qualifying w query options mp) ->
  In (doc r) (JSMap.values mp)
  /\ SearchEngine.filteredOut (SearchEngine.sectionFilterOf options) (doc r) = false.
Proof.
  unfold Spec.qualifying. destruct (SearchEngine.useSemanticSearchOf options).
  - destruct (runPipeline w (JS.slice query 0 2000)) as [qe |]; [| contradiction].
    intro H. apply in_flat_map in H. destruct H as (d & Hd & Hr).
    destruct (hybridEntry_single w qe (SearchEngine.queryTermsOf query) d)
      as [E | (r' & E & Hr')]; rewrite E in Hr; [contradiction |].
    destruct Hr as [<- | []]. rewrite Hr'.
    unfold SearchEngine.candidates in Hd. apply filter_In in Hd.
    destruct Hd as [Hin Hf]. split; [exact Hin |].
    destruct (SearchEngine.filteredOut _ d); [discriminate | reflexivity].
  - intro H. apply in_flat_map in H. destruct H as (d & Hd & Hr).
    unfold Spec.keywordEntry in Hr.
    destruct (SearchEngine.filteredOut _ d) eqn:Ef; [contradiction |].
    destruct (SearchEngine.scoreDocument d _); try contradiction.
    destruct (Qle_bool _ _); [| contradiction].
    destruct Hr as [<- | []]. simpl. now split.
Qed.

(** X18. A search returns records of the index only, and with a section
    asked for only records of that section, letter case apart, in either
    mode.  (An empty section is no filter.) *)
Theorem X18_search_within_section (w : World) (query : string)
    (options : option SearchOptions.t) (st st' : state)
    (results : list SearchResult) (r : SearchResult) :
  SearchEngine.search w query options st = (Ok results, st') ->
  In r results ->
  In (doc r) (JSMap.values (documentIndex st'))
  /\ forall o s,
       options = Some o -> SearchOptions.section o = Some s -> s <> "" ->
       JS.toLowerCase (section (doc r)) = JS.toLowerCase s.
Proof.
  intros Hrun Hr.
  destruct (search_qualifying w query options st st' results Hrun)
    as [[_ ->] | (_ & -> & _)]; [contradiction |].
  apply arraySlice0_In in Hr. apply sort_In in Hr. apply qualifying_In in Hr.
  destruct Hr as [Hin Hf]. split; [exact Hin |].
  intros o s -> Hs Hne. unfold SearchEngine.sectionFilterOf in Hf. rewrite Hs in Hf.
  simpl in Hf. rewrite truthy_toLowerCase in Hf.
  destruct s as [| c s]; [congruence |]. simpl JS.truthy in Hf. simpl andb in Hf.
  apply negb_false_iff in Hf. now apply String.eqb_eq in Hf.
Qed.

Lemma X18_search_within_section_witness :
  SearchEngine.search (Example.corpus [1; 0]) "state"
    (Some (SearchOptions.make (Some "LEARN") None None (Some false))) newEngine
  = (Ok (Example.resultsOf keywordInSection), snd keywordInSection)
  /\ In (mkSearchResult Example.docA (2 # 2) "useState stores state")
       (Example.resultsOf keywordInSection)
  /\ JS.toLowerCase (section Example.docA) = JS.toLowerCase "LEARN".
Proof.
  assert (Hrun : SearchEngine.search (Example.corpus [1; 0]) "state"
                   (Some (SearchOptions.make (Some "LEARN") None None (Some false)))
                   newEngine
                 = (Ok (Example.resultsOf keywordInSection), snd keywordInSection))
    by (vm_compute; reflexivity).
  assert (Hin : In (mkSearchResult Example.docA (2 # 2) "useState stores state")
                  (Example.resultsOf keywordInSection))
    by (vm_compute; left; reflexivity).
  split; [exact Hrun |]. split; [exact Hin |].
  destruct (X18_search_within_section _ _ _ _ _ _ _ Hrun Hin) as [_ H].
  apply (H _ "LEARN" eq_refl eq_refl). discriminate.
Defined.

(** In a loop of the keyword mode that returns, every record that is not
    filtered out has a score. *)
Lemma keywordLoop_scores (docs : list ParsedDoc) (f : option string)
    (terms : list string) (ms : Q) (acc all : list SearchResult) :
  SearchEngine.keywordLoop docs f terms ms acc = Ok all ->
  Forall
    (fun d => SearchEngine.filteredOut f d = false ->
              exists sc, SearchEngine.scoreDocument d terms = Ok sc)
    docs.
Proof.
  revert acc. induction docs as [| d docs IH]; intros acc H; [constructor |].
  simpl in H. destruct (SearchEngine.filteredOut f d) eqn:Ef.
  - constructor; [intro F; congruence | eapply IH; eassumption].
  - destruct (SearchEngine.scoreDocument d terms) as [sc | e |] eqn:Es;
      try discriminate.
    constructor; [intros _; now exists sc |].
    destruct (Qle_bool ms sc); eapply IH; eassumption.
Qed.

Lemma keywordResult_scored (terms : list string) (d : ParsedDoc) (sc : Q) :
  SearchEngine.scoreDocument d terms = Ok sc ->
  keywordResult terms d = mkSearchResult d sc (SearchEngine.generateSnippet d terms).
Proof. intro H. unfold keywordResult, keywordScoreOf. now rewrite H. Qed.

(** The loop of the keyword mode, when it returns, has pushed the result of
    every qualifying record, in the order of the records. *)
Lemma keywordLoop_qualifying (docs : list ParsedDoc) (f : option string)
    (terms : list string) (ms : Q) (acc all : list SearchResult) :
  SearchEngine.keywordLoop docs f terms ms acc = Ok all ->
  all = acc ++ map (keywordResult terms) (filter (keywordQualifies f ms terms) docs).
Proof.
  revert acc. induction docs as [| d docs IH]; intros acc H; simpl in H.
  - injection H as <-. simpl. now rewrite app_nil_r.
  - cbn [filter]. unfold keywordQualifies at 1, keywordScoreOf at 1.
    destruct (SearchEngine.filteredOut f d).
    + simpl. now apply IH.
    + destruct (SearchEngine.scoreDocument d terms) as [sc | e |] eqn:Es;
        try discriminate.
      simpl. destruct (Qle_bool ms sc).
      * apply IH in H. rewrite H, <- app_assoc. simpl.
        now rewrite (keywordResult_scored terms d sc Es).
      * now apply IH.
Qed.

(** In a list in descending order, what comes first scores at least as much
    as what comes later. *)
Lemma descending_app (l1 l2 : list SearchResult) (x y : SearchResult) :
  descending (l1 ++ l2) -> In x l1 -> In y l2 -> score y <= score x.
Proof.
  unfold descending. induction l1 as [| z l1 IH]; intros Hs Hx Hy; [contradiction |].
  simpl in Hs. apply StronglySorted_inv in Hs. destruct Hs as [Hs Hz].
  destruct Hx as [-> | Hx]; [| now apply IH].
  rewrite Forall_forall in Hz. apply Hz. apply in_or_app. now right.
Qed.

(** X19. The keyword mode, record by record.  When a search in the keyword
    mode returns, every record of the index that passes the section filter
    has a keyword score, and the results are exactly the results of the
    qualifying records (those that pass the filter with a score of at least
    the minimum score), sorted by score and cut to the limit.  So the
    results are in descending order of score; each of them is a record of
    the index that passes the filter, with its own score, which reaches the
    minimum score, and its own snippet; a qualifying record that is not
    returned scores no more than any result that is; and none is left out
    when the qualifying records do not exceed the limit. *)
Theorem X19_keyword_mode_qualifying (w : World) (query : string)
    (options : option SearchOptions.t) (st st' : state)
    (results : list SearchResult) :
  SearchEngine.search w query options st = (Ok results, st') ->
  JS.truthy (JS.trim query) = true ->
  SearchEngine.useSemanticSearchOf options = false ->
  let terms := SearchEngine.queryTermsOf query in
  let records := JSMap.values (documentIndex st') in
  let sectionFilter := SearchEngine.sectionFilterOf options in
  let minScore := SearchEngine.minScoreOf options in
  let qualifying := filter (keywordQualifies sectionFilter minScore terms) records in
  (forall d,
     In d records -> SearchEngine.filteredOut sectionFilter d = false ->
     exists sc, SearchEngine.scoreDocument d terms = Ok sc)
  /\ results
     = JS.arraySlice0
         (JS.sort SearchEngine.byScoreDescending (map (keywordResult terms) qualifying))
         (SearchEngine.effectiveLimit options)
  /\ descending results
  /\ (forall r, In r results ->
        In (doc r) records
        /\ SearchEngine.filteredOut sectionFilter (doc r) = false
        /\ SearchEngine.scoreDocument (doc r) terms = Ok (score r)
        /\ minScore <= score r
        /\ snippet r = SearchEngine.generateSnippet (doc r) terms)
  /\ (forall d sc,
        In d records -> SearchEngine.filteredOut sectionFilter d = false ->
        SearchEngine.scoreDocument d terms = Ok sc -> minScore <= sc ->
        In (mkSearchResult d sc (SearchEngine.generateSnippet d terms)) results
        \/ forall r, In r results -> sc <= score r)
  /\ (inject_Z (Z.of_nat (List.length qualifying))
      <= SearchEngine.effectiveLimit options ->
      forall d sc,
        In d records -> SearchEngine.filteredOut sectionFilter d = false ->
        SearchEngine.scoreDocument d terms = Ok sc -> minScore <= sc ->
        In (mkSearchResult d sc (SearchEngine.generateSnippet d terms)) results).
Proof.
  intros Hrun Hq Hk terms records sectionFilter minScore qualifying.
  destruct (search_inv w query options st st' results Hrun)
    as [[F _] | (_ & all & Hres & Hloop)]; [congruence |].
  rewrite Hk in Hloop. fold terms records sectionFilter minScore in Hloop.
  pose proof (keywordLoop_scores _ _ _ _ _ _ Hloop) as Hscores.
  rewrite Forall_forall in Hscores.
  apply keywordLoop_qualifying in Hloop. simpl in Hloop. fold qualifying in Hloop.
  subst all.
  set (sorted := JS.sort SearchEngine.byScoreDescending
                   (map (keywordResult terms) qualifying)) in *.
  assert (Hsorted : descending sorted) by apply sort_descending.
  assert (Hqual : forall d sc,
             In d records -> SearchEngine.filteredOut sectionFilter d = false ->
             SearchEngine.scoreDocument d terms = Ok sc -> minScore <= sc ->
             In (mkSearchResult d sc (SearchEngine.generateSnippet d terms)) sorted).
  { intros d sc Hd Hf Hsc Hms. apply sort_In. apply in_map_iff. exists d. split.
    - unfold keywordResult, keywordScoreOf. now rewrite Hsc.
    - apply filter_In. split; [exact Hd |].
      unfold keywordQualifies, keywordScoreOf. rewrite Hf, Hsc. simpl.
      now apply Qle_bool_iff. }
  destruct (arraySlice0_firstn sorted (SearchEngine.effectiveLimit options))
    as [n Hn].
  split; [| split; [| split; [| split; [| split]]]].
  - intros d Hd Hf. now apply Hscores.
  - exact Hres.
  - rewrite Hres, Hn. now apply firstn_descending.
  - intros r Hr. rewrite Hres in Hr. apply arraySlice0_In in Hr. apply sort_In in Hr.
    apply in_map_iff in Hr. destruct Hr as (d & <- & Hd).
    apply filter_In in Hd. destruct Hd as [Hd Hqd].
    unfold keywordQualifies in Hqd. apply andb_true_iff in Hqd.
    destruct Hqd as [Hf Hms]. apply negb_true_iff in Hf.
    destruct (Hscores d Hd Hf) as [sc Hsc].
    unfold keywordResult, keywordScoreOf in *. rewrite Hsc in *. simpl.
    apply Qle_bool_iff in Hms. now repeat split.
  - intros d sc Hd Hf Hsc Hms. pose proof (Hqual d sc Hd Hf Hsc Hms) as Hin.
    rewrite <- (firstn_skipn n sorted) in Hin. apply in_app_or in Hin.
    destruct Hin as [Hin | Hin]; [left; now rewrite Hres, Hn |].
    right. intros r Hr. rewrite Hres, Hn in Hr.
    rewrite <- (firstn_skipn n sorted) in Hsorted.
    exact (descending_app _ _ r _ Hsorted Hr Hin).
  - intros Hfit d sc Hd Hf Hsc Hms. rewrite Hres, arraySlice0_all.
    + now apply Hqual.
    + unfold sorted. rewrite sort_length, length_map. exact Hfit.
Qed.

(** X19 on the keyword search of the small corpus: both records qualify
    with the score 1/2 + 1/2 and 1/2, and both are returned, the better one
    first. *)
Lemma X19_keyword_mode_qualifying_witness :
  SearchEngine.search (Example.corpus [1; 0]) "state"
    (Example.options None (Some false)) newEngine
  = (Ok (Example.resultsOf keywordDefault), snd keywordDefault)
  /\ descending (Example.resultsOf keywordDefault)
  /\ forall r, In r (Example.resultsOf keywordDefault) -> Config.minScore <= score r.
Proof.
  assert (Hrun : SearchEngine.search (Example.corpus [1; 0]) "state"
                   (Example.options None (Some false)) newEngine
                 = (Ok (Example.resultsOf keywordDefault), snd keywordDefault))
    by (vm_compute; reflexivity).
  split; [exact Hrun |].
  destruct (X19_keyword_mode_qualifying _ _ _ _ _ _ Hrun eq_refl eq_refl)
    as (_ & _ & Hd & H & _).
  split; [exact Hd |].
  intros r Hr. destruct (H r Hr) as (_ & _ & _ & Hms & _). exact Hms.
Defined.

(** X20. [getDocsBySection] lists the records of the index, built first if
    it was not, whose section is the one asked for, letter case apart: a
    record is listed exactly when it is in the index with such a section,
    so every record of the index is listed under its own section, and two
    names that differ in letter case only give the same list. *)
Theorem X20_getDocsBySection_lists_section (w : World) (st : state)
    (sectionName : string) :
  indexed st = true \/ (exists ids, getAllDocs w = Resolved ids) ->
  exists docs st',
    SearchEngine.getDocsBySection w sectionName st = (Ok docs, st')
    /\ (indexed st = true -> st' = st)
    /\ (forall d,
          In d docs
          <-> In d (JSMap.values (documentIndex st'))
              /\ JS.toLowerCase (section d) = JS.toLowerCase sectionName)
    /\ (forall other,
          JS.toLowerCase other = JS.toLowerCase sectionName ->
          SearchEngine.getDocsBySection w other st = (Ok docs, st'))
    /\ (forall d,
          In d (JSMap.values (documentIndex st')) ->
          exists listed,
            SearchEngine.getDocsBySection w (section d) st = (Ok listed, st')
            /\ In d listed).
Proof.
  intro H. destruct (ensureIndexed_run w st H) as (st' & Hrun & _ & Hsame).
  pose proof (fun name => getDocsBySection_run w st st' name Hrun) as Hget.
  eexists. exists st'. split; [apply Hget |]. split; [exact Hsame |].
  split; [| split].
  - intro d. rewrite filter_In, String.eqb_eq. reflexivity.
  - intros other Ho. rewrite Hget, Ho. reflexivity.
  - intros d Hd. eexists. split; [apply Hget |].
    apply filter_In. split; [exact Hd | apply String.eqb_refl].
Qed.

Lemma X20_getDocsBySection_lists_section_witness :
  exists docs st',
    SearchEngine.getDocsBySection (Example.corpus [1; 0]) "Learn" newEngine
    = (Ok docs, st')
    /\ SearchEngine.getDocsBySection (Example.corpus [1; 0]) "LEARN" newEngine
       = (Ok docs, st').
Proof.
  destruct (X20_getDocsBySection_lists_section (Example.corpus [1; 0]) newEngine
              "Learn") as (docs & st' & Hrun & _ & _ & Hcase & _).
  - right. eexists. reflexivity.
  - exists docs, st'. split; [exact Hrun |]. apply Hcase. reflexivity.
Defined.

Lemma window_length (body : string) (pos len : nat) :
  (length (Spec.window body pos len) <= len + 156)%nat.
Proof.
  unfold Spec.window. cbv zeta. rewrite !length_append. unfold JS.slice.
  pose proof (substring_length_le body (pos - 75)
                (Nat.min (length body) (pos + len + 75) - (pos - 75))) as Hs.
  assert (Hpre : (length (if (0 <? pos - 75)%nat then "..." else "") <= 3)%nat)
    by (destruct (0 <? pos - 75)%nat; simpl; lia).
  assert (Hpost : (length (if (Nat.min (length body) (pos + len + 75)
                               <? length body)%nat then "..." else "") <= 3)%nat)
    by (destruct (Nat.min (length body) (pos + len + 75) <? length body)%nat;
        simpl; lia).
  lia.
Qed.

Lemma trim_length (s : string) : (length (JS.trim s) <= length s)%nat.
Proof.
  unfold JS.trim. pose proof (trimEnd_length (JS.trimStart s)).
  pose proof (trimStart_length s). lia.
Qed.

Lemma longest_In (t : string) (terms : list string) :
  In t terms -> (length t <= longest terms)%nat.
Proof.
  induction terms as [| u terms IH]; simpl; [contradiction |].
  intros [-> | H]; [lia | specialize (IH H); lia].
Qed.

(** X21. A snippet is short, unless it is a description: the snippet of a
    record is its description, or it has at most 156 characters more than
    the longest of the terms (75 on each side of the match and two
    ellipses). *)
Theorem X21_generateSnippet_short (d : ParsedDoc) (terms : list string) :
  description (metadata d) = Some (SearchEngine.generateSnippet d terms)
  \/ (length (SearchEngine.generateSnippet d terms) <= longest terms + 156)%nat.
Proof.
  destruct (SearchEngine.firstMatch (plainText d) terms (-1) "") as [fmi mt] eqn:E.
  assert (Hm1 : (-1 <= -1)%Z) by lia.
  destruct (firstMatch_keeps (plainText d) terms (-1) "" fmi mt Hm1 E)
    as [(-> & -> & _) | (before & t & rest & p & Ht & _ & -> & -> & _)].
  - rewrite (generateSnippet_nomatch d terms "" E). unfold Spec.fallbackOrEmpty.
    assert (Hcut : (length (JS.slice (plainText d) 0 150 ++ "...")
                    <= longest terms + 156)%nat).
    { rewrite length_append. pose proof (slice_length_le (plainText d) 150).
      simpl length at 2. lia. }
    destruct (description (metadata d)) as [s |]; [| now right].
    destruct (JS.truthy s); [now left | now right].
  - right. rewrite (generateSnippet_match d terms p t E).
    pose proof (trim_length (Spec.window (plainText d) p (length t))).
    pose proof (window_length (plainText d) p (length t)).
    assert (Hin : In t terms) by (rewrite Ht; apply in_or_app; right; now left).
    pose proof (longest_In t terms Hin). lia.
Qed.

Lemma isWhitespace_lowerChar (c : ascii) :
  JS.isWhitespace (JS.lowerChar c) = JS.isWhitespace c.
Proof. destruct c as [[] [] [] [] [] [] [] []]; reflexivity. Qed.

Lemma splitSpaces_noWhitespace (s : string) :
  Forall (fun t => noWhitespace t = true) (JS.splitSpaces s).
Proof.
  induction s as [| c s IH]; simpl.
  - repeat constructor.
  - destruct (JS.isWhitespace c) eqn:Ec.
    + destruct (JS.startsWithSpace s); [exact IH | constructor; [reflexivity | exact IH]].
    + destruct (JS.splitSpaces s) as [| t rest].
      * constructor; [simpl; now rewrite Ec | constructor].
      * inversion IH; subst. constructor; [simpl; now rewrite Ec | assumption].
Qed.

(** The pieces of a text are all empty exactly when the text is white. *)
Lemma splitSpaces_blank (s : string) :
  filter JS.truthy (JS.splitSpaces s) = [] <-> JS.trimStart s = "".
Proof.
  induction s as [| c s IH]; simpl.
  - tauto.
  - destruct (JS.isWhitespace c) eqn:Ec.
    + destruct (JS.startsWithSpace s); [exact IH | simpl; exact IH].
    + split; [| discriminate].
      destruct (JS.splitSpaces s) as [| t rest]; simpl; discriminate.
Qed.

Lemma trimEnd_empty (s : string) : JS.trimEnd s = "" -> JS.trimStart s = "".
Proof.
  induction s as [| c s IH]; simpl; [reflexivity |].
  destruct (JS.trimEnd s) eqn:E.
  - destruct (JS.isWhitespace c); [intros _; now apply IH | discriminate].
  - discriminate.
Qed.

Lemma trim_blank (s : string) : JS.truthy (JS.trim s) = false <-> JS.trimStart s = "".
Proof.
  unfold JS.trim. split.
  - intro H. destruct (JS.trimEnd (JS.trimStart s)) eqn:E; [| discriminate].
    apply trimEnd_empty in E.
    assert (Hidem : forall u, JS.trimStart (JS.trimStart u) = JS.trimStart u).
    { induction u as [| c u IHu]; simpl; [reflexivity |].
      destruct (JS.isWhitespace c) eqn:Ec; [exact IHu | simpl; now rewrite Ec]. }
    now rewrite Hidem in E.
  - intros ->. reflexivity.
Qed.

Lemma trimStart_toLowerCase (s : string) :
  JS.trimStart (JS.toLowerCase s) = JS.toLowerCase (JS.trimStart s).
Proof.
  induction s as [| c s IH]; simpl; [reflexivity |].
  rewrite isWhitespace_lowerChar. destruct (JS.isWhitespace c); [exact IH | reflexivity].
Qed.

(** X22. The terms of a query are never empty, hold no whitespace and are
    in lower case; and a query has no term at all exactly when [search]
    takes it for empty, that is when its trimmed text is empty. *)
Theorem X22_queryTerms_shape (query : string) :
  Forall
    (fun t => JS.truthy t = true /\ noWhitespace t = true /\ JS.toLowerCase t = t)
    (SearchEngine.queryTermsOf query)
  /\ (SearchEngine.queryTermsOf query = [] <-> JS.truthy (JS.trim query) = false).
Proof.
  split.
  - pose proof (queryTermsOf_lower query) as Hlow.
    unfold SearchEngine.queryTermsOf in *.
    pose proof (splitSpaces_noWhitespace (JS.toLowerCase query)) as Hws.
    rewrite Forall_forall in *. intros t Ht. split; [| split].
    + now apply filter_In in Ht.
    + apply Hws. now apply filter_In in Ht.
    + now apply Hlow.
  - unfold SearchEngine.queryTermsOf. rewrite splitSpaces_blank, trim_blank.
    rewrite trimStart_toLowerCase. split.
    + intro H. destruct (JS.trimStart query); [reflexivity | discriminate].
    + intros ->. reflexivity.
Qed.

Lemma scoreTerms_grows (d : ParsedDoc) (tl pl pal : string) (terms : list string)
    (acc s : Q) :
  SearchEngine.scoreTerms d tl pl pal terms acc = Ok s -> acc <= s.
Proof.
  revert acc. induction terms as [| t terms IH]; intros acc H; simpl in H.
  - injection H as <-. apply Qle_refl.
  - destruct (RegExp.create t) as [regex | e |]; try discriminate.
    apply IH in H. revert H.
    set (n := inject_Z (Z.of_nat (List.length (RegExp.stringMatch pl regex)))).
    assert (Hn : 0 <= n).
    { unfold n. change 0 with (inject_Z 0). rewrite <- Zle_Qle. lia. }
    destruct (JS.includes tl t); destruct (JS.includes pal t);
      destruct (RegExp.stringMatch pl regex) eqn:Em;
      destruct (description (metadata d)) as [ds |];
      try destruct (JS.includes (JS.toLowerCase ds) t);
      intro H; lra.
Qed.

Lemma scoreDocument_nonneg (d : ParsedDoc) (terms : list string) (sc : Q) :
  SearchEngine.scoreDocument d terms = Ok sc -> 0 <= sc.
Proof. unfold SearchEngine.scoreDocument. apply scoreTerms_grows. Qed.

(** X23. Scores have a floor.  A keyword score is never negative, so every
    result of the hybrid mode has a combined score of at least 0.21, the
    weight 0.7 of the similarity times its floor 0.3. *)
Theorem X23_hybrid_score_floor (w : World) (query : string)
    (options : option SearchOptions.t) (st st' : state)
    (results : list SearchResult) :
  SearchEngine.search w query options st = (Ok results, st') ->
  SearchEngine.useSemanticSearchOf options = true ->
  (forall d terms sc, SearchEngine.scoreDocument d terms = Ok sc -> 0 <= sc)
  /\ forall r, In r results -> (21 # 100) <= score r.
Proof.
  intros Hrun Hs. split; [exact scoreDocument_nonneg |]. intros r Hr.
  destruct (search_qualifying w query options st st' results Hrun)
    as [[_ ->] | (_ & -> & _)]; [contradiction |].
  apply arraySlice0_In in Hr. apply sort_In in Hr.
  unfold Spec.qualifying in Hr. rewrite Hs in Hr.
  destruct (runPipeline w (JS.slice query 0 2000)) as [qe |]; [| contradiction].
  apply in_flat_map in Hr. destruct Hr as (d & _ & Hr).
  apply hybridEntry_In in Hr.
  destruct Hr as (_ & kw & e & Hkw & _ & Hsim & ->).
  apply scoreDocument_nonneg in Hkw. unfold Spec.hybridScore.
  assert (0 <= kw / 100) by (apply Qle_shift_div_l; lra). lra.
Qed.

Lemma X23_hybrid_score_floor_witness :
  SearchEngine.search (Example.corpus [1; 0]) "state" None newEngine
  = (Ok (Example.resultsOf Example.hybridDefault), snd Example.hybridDefault)
  /\ forall r, In r (Example.resultsOf Example.hybridDefault) -> (21 # 100) <= score r.
Proof.
  assert (Hrun : SearchEngine.search (Example.corpus [1; 0]) "state" None newEngine
                 = (Ok (Example.resultsOf Example.hybridDefault),
                    snd Example.hybridDefault))
    by (vm_compute; reflexivity).
  split; [exact Hrun |].
  exact (proj2 (X23_hybrid_score_floor (Example.corpus [1; 0]) "state" None newEngine
                  (snd Example.hybridDefault)
                  (Example.resultsOf Example.hybridDefault) Hrun eq_refl)).
Defined.

(** * [markdownParser.ts] *)

Lemma allChars_substring (test : ascii -> bool) (s : string) (n m : nat) :
  allChars test s = true -> allChars test (substring n m s) = true.
Proof.
  revert n m. induction s as [| c s IH]; intros [| n] [| m] H; simpl in *;
    try reflexivity; apply andb_true_iff in H; destruct H as [Hc Hs].
  - rewrite Hc. now apply IH.
  - now apply IH.
  - now apply IH.
Qed.

Lemma allChars_stripMd (test : ascii -> bool) (s : string) :
  allChars test s = true -> allChars test (JS.stripMd s) = true.
Proof.
  intro H. unfold JS.stripMd. destruct (JS.endsWith s ".md"); [| exact H].
  now apply allChars_substring.
Qed.

Lemma allChars_stripLeadingSlashes (test : ascii -> bool) (s : string) :
  allChars test s = true -> allChars test (MarkdownParser.stripLeadingSlashes s) = true.
Proof.
  induction s as [| c s IH]; simpl; [reflexivity |]. intro H.
  destruct (Ascii.eqb c "/"); [| exact H].
  apply andb_true_iff in H. now apply IH.
Qed.

Lemma replaceBackslashes_none (s : string) :
  allChars (fun c => negb (Ascii.eqb c "\")) (MarkdownParser.replaceBackslashes s) = true.
Proof.
  induction s as [| c s IH]; simpl; [reflexivity |]. rewrite IH, andb_true_r.
  destruct (Ascii.eqb c "\") eqn:E; [reflexivity | now rewrite E].
Qed.

Lemma normalizePath_no_backslash (p : string) :
  allChars (fun c => negb (Ascii.eqb c "\")) (MarkdownParser.normalizePath p) = true.
Proof.
  unfold MarkdownParser.normalizePath.
  apply allChars_stripMd, allChars_stripLeadingSlashes, replaceBackslashes_none.
Qed.

Lemma split_pieces (sep : ascii) (s : string) :
  Forall (fun t => allChars (fun c => negb (Ascii.eqb c sep)) t = true)
    (MarkdownParser.split sep s).
Proof.
  induction s as [| c s IH]; simpl.
  - repeat constructor.
  - destruct (Ascii.eqb c sep) eqn:E.
    + constructor; [reflexivity | exact IH].
    + destruct (MarkdownParser.split sep s) as [| t rest].
      * constructor; [simpl; now rewrite E | constructor].
      * inversion IH; subst. constructor; [simpl; now rewrite E | assumption].
Qed.

Lemma split_pieces_keep (test : ascii -> bool) (sep : ascii) (s : string) :
  allChars test s = true ->
  Forall (fun t => allChars test t = true) (MarkdownParser.split sep s).
Proof.
  induction s as [| c s IH]; simpl; intro H.
  - repeat constructor.
  - apply andb_true_iff in H. destruct H as [Hc Hs]. specialize (IH Hs).
    destruct (Ascii.eqb c sep).
    + constructor; [reflexivity | exact IH].
    + destruct (MarkdownParser.split sep s) as [| t rest].
      * constructor; [simpl; now rewrite Hc | constructor].
      * inversion IH; subst. constructor; [simpl; now rewrite Hc | assumption].
Qed.

Lemma split_nonempty (sep : ascii) (s : string) : MarkdownParser.split sep s <> [].
Proof.
  destruct s as [| c s]; simpl; [discriminate |].
  destruct (Ascii.eqb c sep); [discriminate |].
  destruct (MarkdownParser.split sep s); discriminate.
Qed.

(** The first piece of a text that begins with [s] and a separator. *)
Lemma split_first (sep : ascii) (s r : string) :
  allChars (fun c => negb (Ascii.eqb c sep)) s = true ->
  MarkdownParser.split sep (s ++ String sep r) = s :: MarkdownParser.split sep r.
Proof.
  induction s as [| c s IH]; simpl; intro H.
  - now rewrite Ascii.eqb_refl.
  - apply andb_true_iff in H. destruct H as [Hc Hs]. apply negb_true_iff in Hc.
    now rewrite Hc, (IH Hs).
Qed.

Lemma notSlash_split (s : string) :
  allChars notSlash s = true ->
  allChars (fun c => negb (Ascii.eqb c "/")) s = true
  /\ allChars (fun c => negb (Ascii.eqb c "\")) s = true.
Proof.
  induction s as [| c s IH]; simpl; [now split |]. intro H.
  apply andb_true_iff in H. destruct H as [Hc Hs]. destruct (IH Hs) as [H1 H2].
  unfold notSlash in Hc. apply andb_true_iff in Hc. destruct Hc as [Hc1 Hc2].
  now rewrite Hc1, Hc2, H1, H2.
Qed.

Lemma replaceBackslashes_id (s : string) :
  allChars (fun c => negb (Ascii.eqb c "\")) s = true ->
  MarkdownParser.replaceBackslashes s = s.
Proof.
  induction s as [| c s IH]; simpl; [reflexivity |]. intro H.
  apply andb_true_iff in H. destruct H as [Hc Hs]. apply negb_true_iff in Hc.
  now rewrite Hc, (IH Hs).
Qed.

Lemma replaceBackslashes_append (a b : string) :
  MarkdownParser.replaceBackslashes (a ++ b)
  = (MarkdownParser.replaceBackslashes a ++ MarkdownParser.replaceBackslashes b)%string.
Proof. induction a as [| c a IH]; simpl; [reflexivity | now rewrite IH]. Qed.

Lemma substring_append_prefix (a b : string) (n : nat) :
  substring 0 (length a + n) (a ++ b) = (a ++ substring 0 n b)%string.
Proof. induction a as [| c a IH]; simpl; [reflexivity | now rewrite IH]. Qed.

(** Cutting three characters off a text that ends in [.md] leaves a prefix
    that ends in a slash in place. *)
Lemma stripMd_prefix (s r : string) :
  exists r', JS.stripMd (s ++ String "/" r) = (s ++ String "/" r')%string.
Proof.
  unfold JS.stripMd. destruct (JS.endsWith (s ++ String "/" r) ".md") eqn:E;
    [| now exists r].
  unfold JS.endsWith in E. apply andb_true_iff in E. destruct E as [Hlen Hsuf].
  apply Nat.leb_le in Hlen. apply String.eqb_eq in Hsuf.
  rewrite length_append in *. cbn [length] in *.
  assert (Hr : (3 <= length r)%nat).
  { destruct (le_lt_dec 3 (length r)) as [| Hlt]; [assumption | exfalso].
    (* the slash would be one of the last three characters *)
    assert (Hget : get (length s) (s ++ String "/" r) = Some "/"%char).
    { clear. induction s as [| c s IH]; simpl; [reflexivity | exact IH]. }
    pose proof (substring_correct1 (s ++ String "/" r)
                  (length s + S (length r) - 3) 3) as Hsub.
    rewrite Hsuf in Hsub.
    assert (Hk : exists k, (k < 3)%nat
                           /\ (k + (length s + S (length r) - 3) = length s)%nat).
    { exists (length s - (length s + S (length r) - 3))%nat. lia. }
    destruct Hk as (k & Hk3 & Hk).
    specialize (Hsub k Hk3). rewrite Hk, Hget in Hsub.
    destruct k as [| [| [| k]]]; simpl in Hsub; discriminate. }
  exists (substring 0 (length r - 3) r).
  replace (length s + S (length r) - 3)%nat with (length s + S (length r - 3))%nat by lia.
  now rewrite substring_append_prefix.
Qed.

(** X24. The section of a path.  [extractSection] never returns an empty
    text nor one with a slash or a backslash; for a path that begins with a
    segment free of both and a slash it returns that segment, whatever
    follows; and it returns [unknown] when nothing is left of the path once
    it is normalized. *)
Theorem X24_extractSection_first_segment :
  (forall p,
     MarkdownParser.extractSection p <> ""
     /\ allChars notSlash (MarkdownParser.extractSection p) = true)
  /\ (forall s rest,
        s <> "" -> allChars notSlash s = true ->
        MarkdownParser.extractSection (s ++ String "/" rest) = s)
  /\ (forall p,
        MarkdownParser.normalizePath p = "" ->
        MarkdownParser.extractSection p = "unknown").
Proof.
  split; [| split].
  - intro p. unfold MarkdownParser.extractSection.
    pose proof (split_pieces "/" (MarkdownParser.normalizePath p)) as H1.
    pose proof (split_pieces_keep _ "/" _ (normalizePath_no_backslash p)) as H2.
    destruct (MarkdownParser.split "/" (MarkdownParser.normalizePath p)) as [| p0 rest];
      [split; [discriminate | reflexivity] |].
    inversion H1 as [| ? ? Ha _]; inversion H2 as [| ? ? Hb _]; subst.
    destruct p0 as [| c p0]; [split; [discriminate | reflexivity] |].
    split; [discriminate |]. simpl JS.truthy. cbv iota.
    clear - Ha Hb. revert Ha Hb. generalize (String c p0). intro t.
    induction t as [| x t IH]; simpl; [reflexivity |]. intros Ha Hb.
    apply andb_true_iff in Ha. apply andb_true_iff in Hb.
    destruct Ha as [Ha1 Ha2], Hb as [Hb1 Hb2].
    rewrite (IH Ha2 Hb2). unfold notSlash. now rewrite Ha1, Hb1.
  - intros s rest Hne Hs. destruct (notSlash_split s Hs) as [Hsl Hbs].
    unfold MarkdownParser.extractSection, MarkdownParser.normalizePath.
    change (String "/" rest) with ("/" ++ rest)%string.
    rewrite replaceBackslashes_append, (replaceBackslashes_id s Hbs).
    assert (Hlead : forall r, MarkdownParser.stripLeadingSlashes (s ++ r) = (s ++ r)%string).
    { intro r. destruct s as [| c s]; [congruence |]. simpl in *.
      apply andb_true_iff in Hsl. destruct Hsl as [Hc _]. apply negb_true_iff in Hc.
      now rewrite Hc. }
    rewrite Hlead. rewrite replaceBackslashes_append.
    change (MarkdownParser.replaceBackslashes "/") with "/".
    change ("/" ++ MarkdownParser.replaceBackslashes rest)%string
      with (String "/" (MarkdownParser.replaceBackslashes rest)).
    destruct (stripMd_prefix s (MarkdownParser.replaceBackslashes rest)) as (r' & ->).
    rewrite (split_first "/" s r' Hsl).
    destruct s; [congruence | reflexivity].
  - intros p Hp. unfold MarkdownParser.extractSection. now rewrite Hp.
Qed.

Lemma X24_extractSection_first_segment_witness :
  "learn" <> ""
  /\ allChars notSlash "learn" = true
  /\ MarkdownParser.extractSection ("learn" ++ String "/" "hooks/useState.md") = "learn".
Proof.
  split; [discriminate |]. split; [reflexivity |].
  apply (proj1 (proj2 X24_extractSection_first_segment)); [discriminate | reflexivity].
Defined.

Lemma parseMarkdown_fields (lib : MarkdownParser.Libraries) (raw p : string)
    (d : ParsedDoc) :
  MarkdownParser.parseMarkdown lib raw p = Resolved d ->
  path d = MarkdownParser.normalizePath p
  /\ section d = MarkdownParser.extractSection p
  /\ embedding d = None
  /\ exists data,
       MarkdownParser.matter lib raw = Resolved data
       /\ title (metadata d)
          = match MarkdownParser.Matter.title data with
            | Some t => t
            | None => MarkdownParser.extractTitleFromPath p
            end
       /\ description (metadata d) = MarkdownParser.Matter.description data
       /\ content d = MarkdownParser.Matter.content data
       /\ MarkdownParser.markdownToPlainText lib (MarkdownParser.Matter.content data)
          = Resolved (plainText d).
Proof.
  unfold MarkdownParser.parseMarkdown.
  destruct (MarkdownParser.matter lib raw) as [data | e]; [| discriminate].
  destruct (MarkdownParser.markdownToPlainText lib (MarkdownParser.Matter.content data))
    as [text | e] eqn:Et; [| discriminate].
  intro H. injection H as <-. simpl.
  split; [reflexivity |]. split; [reflexivity |]. split; [reflexivity |].
  exists data. split; [reflexivity |].
  split; [destruct (MarkdownParser.Matter.title data); reflexivity |].
  split; [reflexivity |]. split; [reflexivity | exact Et].
Qed.

Lemma stripLeadingSlashes_id (s : string) :
  match s with String "/" _ => False | _ => True end ->
  MarkdownParser.stripLeadingSlashes s = s.
Proof.
  destruct s as [| c s]; [reflexivity |]. simpl.
  destruct (Ascii.eqb c "/") eqn:E; [| reflexivity].
  apply Ascii.eqb_eq in E. subst. contradiction.
Qed.

(** X25. A document can be fetched under the path it is listed with.  In an
    engine built with [parseMarkdown], for a listed path without backslash
    and without a slash at its front whose document is read and parsed,
    [getDocByPath] of that very path returns a record, whose path is the
    listed one without its [.md] and whose section is [extractSection] of
    the listed path. *)
Theorem X25_listed_document_is_found (lib : MarkdownParser.Libraries) (w : World)
    (st : state) (ids : list string) (id : string) (d : ParsedDoc) :
  parseMarkdown w = MarkdownParser.parseMarkdown lib ->
  getAllDocs w = Resolved ids ->
  In id ids ->
  allChars (fun c => negb (Ascii.eqb c "\")) id = true ->
  match id with String "/" _ => False | _ => True end ->
  Spec.fetchParse w id = Resolved d ->
  exists found st',
    SearchEngine.getDocByPath w id (snd (SearchEngine.indexDocuments w st))
    = (Ok (Some found), st')
    /\ path found = JS.stripMd id
    /\ section found = MarkdownParser.extractSection id
    /\ embedding found = None.
Proof.
  intros Hparse Hl Hin Hbs Hlead Hd.
  assert (Hnorm : MarkdownParser.normalizePath id = JS.stripMd id).
  { unfold MarkdownParser.normalizePath.
    rewrite (replaceBackslashes_id id Hbs), stripLeadingSlashes_id; auto. }
  assert (Hd' : path d = JS.stripMd id).
  { unfold Spec.fetchParse in Hd. destruct (readDoc w id); [| discriminate].
    rewrite Hparse in Hd. apply parseMarkdown_fields in Hd.
    destruct Hd as (-> & _). exact Hnorm. }
  rewrite (indexDocuments_run w st ids Hl).
  set (st1 := mkState _ _ _ _ _).
  assert (Hget : JSMap.get (JS.stripMd id) (Spec.rebuilt w ids) <> None).
  { rewrite <- Hd'. now apply (rebuilt_has_key w ids [] id d). }
  destruct (JSMap.get (JS.stripMd id) (Spec.rebuilt w ids)) as [found |] eqn:Ef;
    [| congruence].
  exists found, st1. split.
  - unfold SearchEngine.getDocByPath. run. now rewrite Ef.
  - destruct (rebuilt_origin w ids [] _ _ Ef) as [F | (Hp & id' & _ & Hf)];
      [discriminate |].
    split; [exact Hp |].
    unfold Spec.fetchParse in Hf. destruct (readDoc w id'); [| discriminate].
    rewrite Hparse in Hf. apply parseMarkdown_fields in Hf.
    destruct Hf as (Hp' & Hs' & He' & _). split; [| exact He'].
    rewrite Hs'. unfold MarkdownParser.extractSection. cbv zeta.
    replace (MarkdownParser.normalizePath id') with (MarkdownParser.normalizePath id)
      by congruence.
    reflexivity.
Qed.

Lemma X25_listed_document_is_found_witness :
  exists found st',
    SearchEngine.getDocByPath (parsedWorld plainLibraries ["learn/hooks/useState.md"])
      "learn/hooks/useState.md"
      (snd (SearchEngine.indexDocuments
              (parsedWorld plainLibraries ["learn/hooks/useState.md"]) newEngine))
    = (Ok (Some found), st')
    /\ path found = "learn/hooks/useState"
    /\ section found = "learn"
    /\ embedding found = None.
Proof.
  destruct (X25_listed_document_is_found plainLibraries
              (parsedWorld plainLibraries ["learn/hooks/useState.md"]) newEngine
              ["learn/hooks/useState.md"] "learn/hooks/useState.md"
              (mkParsedDoc "learn/hooks/useState" "learn"
                 (mkDocMetadata "UseState" None) "learn/hooks/useState.md"
                 "learn/hooks/useState.md" None))
    as (found & st' & H);
    [reflexivity | reflexivity | left; reflexivity | reflexivity | exact I
    | reflexivity |].
  exists found, st'. exact H.
Defined.

Lemma collapse_startsWithSpace (s : string) :
  JS.startsWithSpace (MarkdownParser.collapseWhitespace s) = JS.startsWithSpace s.
Proof.
  induction s as [| c s IH]; simpl; [reflexivity |].
  destruct (JS.isWhitespace c) eqn:Ec.
  - destruct (JS.startsWithSpace s) eqn:Es; [now rewrite IH | reflexivity].
  - simpl. exact Ec.
Qed.

Lemma collapse_singleSpaced (s : string) :
  singleSpaced (MarkdownParser.collapseWhitespace s) = true.
Proof.
  induction s as [| c s IH]; simpl; [reflexivity |].
  destruct (JS.isWhitespace c) eqn:Ec.
  - destruct (JS.startsWithSpace s) eqn:Es; [exact IH |].
    simpl. rewrite collapse_startsWithSpace, Es, IH. reflexivity.
  - simpl. now rewrite Ec, IH.
Qed.

Lemma trimStart_singleSpaced (s : string) :
  singleSpaced s = true -> singleSpaced (JS.trimStart s) = true.
Proof.
  induction s as [| c s IH]; simpl; [reflexivity |]. intro H.
  destruct (JS.isWhitespace c) eqn:Ec; [| simpl; now rewrite Ec in *].
  apply andb_true_iff in H. now apply IH.
Qed.

Lemma trimEnd_startsWithSpace (s : string) :
  JS.startsWithSpace s = false -> JS.startsWithSpace (JS.trimEnd s) = false.
Proof.
  destruct s as [| c s]; simpl; [reflexivity |]. intro H.
  destruct (JS.trimEnd s); [rewrite H |]; simpl; exact H.
Qed.

Lemma trimEnd_singleSpaced (s : string) :
  singleSpaced s = true -> singleSpaced (JS.trimEnd s) = true.
Proof.
  induction s as [| c s IH]; simpl; [reflexivity |]. intro H.
  apply andb_true_iff in H. destruct H as [Hc Hs]. specialize (IH Hs).
  destruct (JS.trimEnd s) as [| c' t] eqn:Et.
  - destruct (JS.isWhitespace c) eqn:Ec; [reflexivity |]. simpl. now rewrite Ec.
  - change (singleSpaced (String c (String c' t)))
      with ((negb (JS.isWhitespace c)
             || (Ascii.eqb c " " && negb (JS.startsWithSpace (String c' t))))
            && singleSpaced (String c' t)).
    rewrite IH, andb_true_r.
    destruct (JS.isWhitespace c) eqn:Ec; [| reflexivity]. simpl in Hc |- *.
    apply andb_true_iff in Hc. destruct Hc as [Hsp Hnext]. rewrite Hsp. simpl.
    apply negb_true_iff in Hnext. apply trimEnd_startsWithSpace in Hnext.
    rewrite Et in Hnext. simpl in Hnext. now rewrite Hnext.
Qed.

Lemma trimEnd_idempotent (s : string) : JS.trimEnd (JS.trimEnd s) = JS.trimEnd s.
Proof.
  induction s as [| c s IH]; simpl; [reflexivity |].
  destruct (JS.trimEnd s) as [| c' t] eqn:Et.
  - destruct (JS.isWhitespace c) eqn:Ec; [reflexivity |]. simpl. now rewrite Ec.
  - cbn [JS.trimEnd] in *. rewrite IH. reflexivity.
Qed.

Lemma trimStart_fixed (s : string) :
  JS.startsWithSpace s = false -> JS.trimStart s = s.
Proof. destruct s as [| c s]; simpl; [reflexivity | now intros ->]. Qed.

Lemma trimStart_startsWithSpace (s : string) :
  JS.startsWithSpace (JS.trimStart s) = false.
Proof.
  induction s as [| c s IH]; simpl; [reflexivity |].
  destruct (JS.isWhitespace c) eqn:Ec; [exact IH | exact Ec].
Qed.

Lemma trim_trimmed (s : string) : Spec.trimmed (JS.trim s).
Proof.
  unfold Spec.trimmed, JS.trim. split; [| apply trimEnd_idempotent].
  apply trimStart_fixed, trimEnd_startsWithSpace, trimStart_startsWithSpace.
Qed.

Lemma collapse_fixed (s : string) :
  singleSpaced s = true -> MarkdownParser.collapseWhitespace s = s.
Proof.
  induction s as [| c s IH]; simpl; [reflexivity |]. intro H.
  apply andb_true_iff in H. destruct H as [Hc Hs]. rewrite (IH Hs).
  destruct (JS.isWhitespace c) eqn:Ec; [| reflexivity]. simpl in Hc.
  apply andb_true_iff in Hc. destruct Hc as [Hsp Hnext].
  apply negb_true_iff in Hnext. rewrite Hnext.
  apply Ascii.eqb_eq in Hsp. now subst.
Qed.

(** X26. The plain text of the parser is normalized: whatever the remark
    pipeline returns, the text [markdownToPlainText] resolves to has no
    whitespace at either end and no whitespace but single spaces between
    its words, and normalizing it again changes nothing. *)
Theorem X26_plainText_normalized (lib : MarkdownParser.Libraries)
    (markdown text : string) :
  MarkdownParser.markdownToPlainText lib markdown = Resolved text ->
  Spec.trimmed text
  /\ singleSpaced text = true
  /\ JS.trim (MarkdownParser.collapseWhitespace text) = text.
Proof.
  unfold MarkdownParser.markdownToPlainText.
  destruct (MarkdownParser.stripMarkdown lib markdown) as [result | e];
    [| discriminate].
  intro H. injection H as <-.
  assert (Hs : singleSpaced (JS.trim (MarkdownParser.collapseWhitespace result)) = true).
  { unfold JS.trim. apply trimEnd_singleSpaced, trimStart_singleSpaced,
      collapse_singleSpaced. }
  pose proof (trim_trimmed (MarkdownParser.collapseWhitespace result)) as Ht.
  split; [exact Ht |]. split; [exact Hs |].
  rewrite (collapse_fixed _ Hs). destruct Ht as [H1 H2].
  unfold JS.trim at 1. now rewrite H1, H2.
Qed.

Lemma X26_plainText_normalized_witness :
  MarkdownParser.markdownToPlainText plainLibraries "  a   b  " = Resolved "a b"
  /\ Spec.trimmed "a b"
  /\ singleSpaced "a b" = true.
Proof.
  split; [reflexivity |].
  destruct (X26_plainText_normalized plainLibraries "  a   b  " "a b" eq_refl)
    as (H1 & H2 & _).
  now split.
Defined.

Lemma lowerChar_upperChar (c : ascii) : JS.lowerChar (JS.upperChar c) = JS.lowerChar c.
Proof. destruct c as [[] [] [] [] [] [] [] []]; reflexivity. Qed.

Lemma toLowerCase_append (a b : string) :
  JS.toLowerCase (a ++ b) = (JS.toLowerCase a ++ JS.toLowerCase b)%string.
Proof. induction a as [| c a IH]; simpl; [reflexivity | now rewrite IH]. Qed.

Lemma toLowerCase_capitalize (word : string) :
  JS.toLowerCase (MarkdownParser.capitalize word) = JS.toLowerCase word.
Proof. destruct word; simpl; [reflexivity | now rewrite lowerChar_upperChar]. Qed.

Lemma concat_capitalized (l : list string) :
  JS.toLowerCase (concat " " (map MarkdownParser.capitalize l))
  = JS.toLowerCase (concat " " l).
Proof.
  induction l as [| x l IH]; [reflexivity |].
  destruct l as [| y l]; [apply toLowerCase_capitalize |].
  change (concat " " (map MarkdownParser.capitalize (x :: y :: l)))
    with (MarkdownParser.capitalize x
          ++ " " ++ concat " " (map MarkdownParser.capitalize (y :: l)))%string.
  change (concat " " (x :: y :: l)) with (x ++ " " ++ concat " " (y :: l))%string.
  now rewrite !toLowerCase_append, IH, toLowerCase_capitalize.
Qed.

Lemma concat_split (sep : ascii) (s : string) :
  concat (String sep "") (MarkdownParser.split sep s) = s.
Proof.
  induction s as [| c s IH]; [reflexivity |]. simpl MarkdownParser.split.
  pose proof (split_nonempty sep s) as Hne.
  destruct (Ascii.eqb c sep) eqn:E.
  - apply Ascii.eqb_eq in E. subst c.
    destruct (MarkdownParser.split sep s) as [| t rest]; [congruence |].
    change (concat (String sep "") ("" :: t :: rest))
      with ("" ++ String sep "" ++ concat (String sep "") (t :: rest))%string.
    now rewrite IH.
  - destruct (MarkdownParser.split sep s) as [| t rest]; [congruence |].
    destruct rest as [| u rest].
    + simpl in *. now rewrite IH.
    + change (concat (String sep "") (String c t :: u :: rest))
        with (String c (t ++ String sep "" ++ concat (String sep "") (u :: rest)))%string.
      now rewrite <- IH.
Qed.

Lemma replaceDashes_length (s : string) :
  length (MarkdownParser.replaceDashes s) = length s.
Proof. induction s as [| c s IH]; simpl; [reflexivity | now rewrite IH]. Qed.

(** The title made from a path has the letters of the name of the file,
    with a space for each dash and underscore. *)
Lemma extractTitleFromPath_letters (p : string) :
  exists filename,
    filename <> ""
    /\ (filename = last (MarkdownParser.split "/" (MarkdownParser.normalizePath p)) ""
        \/ filename = "Untitled")
    /\ JS.toLowerCase (MarkdownParser.extractTitleFromPath p)
       = JS.toLowerCase (MarkdownParser.replaceDashes filename).
Proof.
  unfold MarkdownParser.extractTitleFromPath. cbv zeta.
  set (l := last (MarkdownParser.split "/" (MarkdownParser.normalizePath p)) "").
  exists (if JS.truthy l then l else "Untitled"). split; [| split].
  - destruct l; simpl; discriminate.
  - destruct l; simpl; [now right | now left].
  - rewrite concat_capitalized. now rewrite (concat_split " ").
Qed.

Lemma extractTitleFromPath_nonempty (p : string) :
  MarkdownParser.extractTitleFromPath p <> "".
Proof.
  destruct (extractTitleFromPath_letters p) as (filename & Hne & _ & H).
  intro F. rewrite F in H. apply (f_equal length) in H.
  rewrite !toLowerCase_length, replaceDashes_length in H. simpl in H.
  destruct filename; [congruence | discriminate].
Qed.

(** X27. The title of a parsed record.  It is the title of the front matter
    when the front matter has one, even an empty one, since the data of the
    front matter are spread over the title made from the path; otherwise it
    is made from the path, has the letters of the name of the file with a
    space for each dash and underscore, and is not empty.  So the title is
    empty exactly when the front matter gives an empty title. *)
Theorem X27_parsed_record_title (lib : MarkdownParser.Libraries) (raw p : string)
    (d : ParsedDoc) (data : MarkdownParser.Matter.t) :
  MarkdownParser.parseMarkdown lib raw p = Resolved d ->
  MarkdownParser.matter lib raw = Resolved data ->
  title (metadata d)
  = match MarkdownParser.Matter.title data with
    | Some t => t
    | None => MarkdownParser.extractTitleFromPath p
    end
  /\ (title (metadata d) = "" <-> MarkdownParser.Matter.title data = Some "")
  /\ exists filename,
       filename <> ""
       /\ (filename = last (MarkdownParser.split "/" (MarkdownParser.normalizePath p)) ""
           \/ filename = "Untitled")
       /\ JS.toLowerCase (MarkdownParser.extractTitleFromPath p)
          = JS.toLowerCase (MarkdownParser.replaceDashes filename).
Proof.
  intros Hparse Hdata. apply parseMarkdown_fields in Hparse.
  destruct Hparse as (_ & _ & _ & data' & Hdata' & Htitle & _).
  assert (data' = data) by congruence. subst data'.
  split; [exact Htitle |]. split; [| apply extractTitleFromPath_letters].
  rewrite Htitle. destruct (MarkdownParser.Matter.title data) as [t |].
  - split; [now intros -> | intro H; now injection H].
  - split; [intro H; now apply extractTitleFromPath_nonempty in H | discriminate].
Qed.

Lemma X27_parsed_record_title_witness :
  title (metadata
           (mkParsedDoc "learn/use-effect" "learn" (mkDocMetadata "Use Effect" None)
              "text" "text" None))
  = MarkdownParser.extractTitleFromPath "learn/use-effect.md".
Proof.
  apply (X27_parsed_record_title plainLibraries "text" "learn/use-effect.md"
           (mkParsedDoc "learn/use-effect" "learn" (mkDocMetadata "Use Effect" None)
              "text" "text" None)
           (MarkdownParser.Matter.make None None "text")); reflexivity.
Defined.

(** * [docsManager.ts]: the cache of the listings *)

Lemma cacheGet_set_same (key : string) (v : list string) (c : DocsManager.Cache) :
  DocsManager.cacheGet key (DocsManager.cacheSet key v c) = Some v.
Proof.
  induction c as [| [k v0] c IH]; simpl.
  - now rewrite String.eqb_refl.
  - destruct (k =? key)%string eqn:E; simpl; now rewrite E.
Qed.

Lemma cacheGet_set_other (key key' : string) (v : list string) (c : DocsManager.Cache) :
  key' <> key ->
  DocsManager.cacheGet key' (DocsManager.cacheSet key v c) = DocsManager.cacheGet key' c.
Proof.
  intro Hne. induction c as [| [k v0] c IH]; simpl.
  - destruct (key =? key')%string eqn:E; [| reflexivity].
    apply String.eqb_eq in E. congruence.
  - destruct (k =? key)%string eqn:E; simpl.
    + apply String.eqb_eq in E. subst k.
      destruct (key =? key')%string eqn:E'; [| reflexivity].
      apply String.eqb_eq in E'. congruence.
    + destruct (k =? key')%string; [reflexivity | exact IH].
Qed.

Lemma getDocsInSection_keeps_all (d : DocsManager.Disk) (section : string)
    (c : DocsManager.Cache) :
  DocsManager.cacheGet "all" (snd (DocsManager.getDocsInSection d section c))
  = DocsManager.cacheGet "all" c.
Proof.
  unfold DocsManager.getDocsInSection.
  destruct (DocsManager.cacheGet ("section:" ++ section) c); [reflexivity |].
  destruct (negb (DocsManager.accessible d section)); [reflexivity |].
  destruct (DocsManager.globSection d section); [| reflexivity].
  simpl. apply cacheGet_set_other. discriminate.
Qed.

Lemma getAllDocs_cached (d : DocsManager.Disk) (c : DocsManager.Cache)
    (files : list string) :
  DocsManager.cacheGet "all" c = Some files ->
  DocsManager.getAllDocs d c = (Resolved files, c).
Proof. intro H. unfold DocsManager.getAllDocs. now rewrite H. Qed.

(** X28. The listing of the corpus is cached.  Once [getAllDocs] has
    resolved, every later call resolves to the same list without a look at
    the disk, whatever the disk holds by then, and leaves the cache as it
    is; listing a section in between changes nothing of this.  Only a call
    that finds no cached list asks the disk. *)
Theorem X28_getAllDocs_cached (d : DocsManager.Disk) (fileCache fileCache' : DocsManager.Cache)
    (files : list string) :
  DocsManager.getAllDocs d fileCache = (Resolved files, fileCache') ->
  (forall d', DocsManager.getAllDocs d' fileCache' = (Resolved files, fileCache'))
  /\ (forall d' d'' section,
        let listed := snd (DocsManager.getDocsInSection d' section fileCache') in
        DocsManager.getAllDocs d'' listed = (Resolved files, listed))
  /\ (DocsManager.cacheGet "all" fileCache = None ->
      DocsManager.globAll d = Resolved files).
Proof.
  intro H.
  assert (Hc : DocsManager.cacheGet "all" fileCache' = Some files).
  { revert H. unfold DocsManager.getAllDocs.
    destruct (DocsManager.cacheGet "all" fileCache) as [cached |] eqn:E.
    - intro H. injection H as <- <-. exact E.
    - destruct (DocsManager.globAll d) as [fs | e]; [| discriminate].
      intro H. injection H as <- <-. apply cacheGet_set_same. }
  split; [| split].
  - intro d'. now apply getAllDocs_cached.
  - intros d' d'' section listed. apply getAllDocs_cached.
    unfold listed. now rewrite getDocsInSection_keeps_all.
  - intro Hnone. revert H. unfold DocsManager.getAllDocs. rewrite Hnone.
    destruct (DocsManager.globAll d) as [fs | e]; [| discriminate].
    intro H. now injection H as <- _.
Qed.

Lemma X28_getAllDocs_cached_witness :
  DocsManager.getAllDocs (cloneWith ["learn/a.md"] "c1" "c1") []
  = (Resolved ["learn/a.md"], [("all", ["learn/a.md"])])
  /\ DocsManager.getAllDocs (cloneWith ["learn/a.md"; "learn/b.md"] "c2" "c2")
       [("all", ["learn/a.md"])]
     = (Resolved ["learn/a.md"], [("all", ["learn/a.md"])]).
Proof.
  split; [reflexivity |].
  apply (X28_getAllDocs_cached (cloneWith ["learn/a.md"] "c1" "c1") []
           [("all", ["learn/a.md"])] ["learn/a.md"]).
  reflexivity.
Defined.

(** X29. A pull that moves [HEAD] empties the cache of the listings, and
    nothing else does.  When [updateRepo] resolves, the clone exists, the
    answer tells whether the commit after the pull differs from the one
    before, and the cache is emptied in that case, so that the next
    [getAllDocs] lists the disk again, and left as it was otherwise, so that
    a cached list goes on being served.  When [updateRepo] rejects, the
    cache is left as it was; without a clone the error is [Repository not
    cloned. Call initialize() first.] *)
Theorem X29_updateRepo_invalidates_cache (d : DocsManager.Disk)
    (fileCache fileCache' : DocsManager.Cache) (r : answer bool) :
  DocsManager.updateRepo d fileCache = (r, fileCache') ->
  match r with
  | Resolved updated =>
      DocsManager.gitDirAccessible d = true
      /\ (exists beforeHash afterHash,
            DocsManager.revparseHead d = Resolved beforeHash
            /\ DocsManager.revparseHeadAfterPull d = Resolved afterHash
            /\ updated = negb (beforeHash =? afterHash)%string)
      /\ fileCache' = (if updated then [] else fileCache)
      /\ (updated = true ->
          forall d', fst (DocsManager.getAllDocs d' fileCache') = DocsManager.globAll d')
      /\ (updated = false ->
          forall d' files,
            DocsManager.cacheGet "all" fileCache = Some files ->
            DocsManager.getAllDocs d' fileCache' = (Resolved files, fileCache'))
  | Rejected e =>
      fileCache' = fileCache
      /\ (DocsManager.gitDirAccessible d = false ->
          e = Error "Repository not cloned. Call initialize() first.")
  end.
Proof.
  unfold DocsManager.updateRepo, DocsManager.checkRepoExists.
  destruct (DocsManager.gitDirAccessible d) eqn:Eg; simpl.
  - destruct (DocsManager.revparseHead d) as [beforeHash | e].
    + destruct (DocsManager.pull d) as [[] | e].
      * destruct (DocsManager.revparseHeadAfterPull d) as [afterHash | e].
        -- destruct (beforeHash =? afterHash)%string eqn:E; simpl;
             intro H; injection H as <- <-.
           ++ split; [reflexivity |].
              split; [exists beforeHash, afterHash; now rewrite E |].
              split; [reflexivity |]. split; [discriminate |].
              intros _ d' files Hc. now apply getAllDocs_cached.
           ++ split; [reflexivity |].
              split; [exists beforeHash, afterHash; now rewrite E |].
              split; [reflexivity |]. split; [| discriminate].
              intros _ d'. unfold DocsManager.getAllDocs. simpl.
              destruct (DocsManager.globAll d'); reflexivity.
        -- intro H. injection H as <- <-. split; [reflexivity | discriminate].
      * intro H. injection H as <- <-. split; [reflexivity | discriminate].
    + intro H. injection H as <- <-. split; [reflexivity | discriminate].
  - intro H. injection H as <- <-. split; reflexivity.
Qed.

Lemma X29_updateRepo_invalidates_cache_witness :
  DocsManager.updateRepo (cloneWith ["learn/a.md"] "c1" "c2") [("all", ["old.md"])]
  = (Resolved true, [])
  /\ forall d', fst (DocsManager.getAllDocs d' []) = DocsManager.globAll d'.
Proof.
  split; [reflexivity |].
  exact (proj1 (proj2 (proj2 (proj2
           (X29_updateRepo_invalidates_cache
              (cloneWith ["learn/a.md"] "c1" "c2") [("all", ["old.md"])] []
              (Resolved true) eq_refl)))) eq_refl).
Defined.

(** * [index.ts]: reading a resource *)

Lemma prefix_append (a b : string) : prefix a (a ++ b) = true.
Proof. apply prefix_correct, substring_append_take. Qed.

Lemma prefix_split (a s : string) :
  prefix a s = true -> s = (a ++ substring (length a) (length s - length a) s)%string.
Proof.
  intro H. apply prefix_correct in H.
  pose proof (substring_split s (length a)) as Hs. now rewrite H in Hs.
Qed.

(** The texts the pattern of the handler accepts. *)
Lemma matchResourceUri_spec (uri rest : string) :
  Server.matchResourceUri uri = Some rest
  <-> uri = ("react-docs://" ++ rest)%string
      /\ rest <> "" /\ Server.noLineTerminator rest = true.
Proof.
  unfold Server.matchResourceUri. split.
  - destruct (prefix "react-docs://" uri) eqn:Ep; [| discriminate].
    apply prefix_split in Ep. change (length "react-docs://") with 13%nat in Ep.
    destruct (JS.truthy (substring 13 (length uri - 13) uri)) eqn:Et; [| discriminate].
    destruct (Server.noLineTerminator (substring 13 (length uri - 13) uri)) eqn:En;
      [| discriminate].
    simpl. intro H. injection H as <-. split; [exact Ep |]. split; [| exact En].
    intro F. rewrite F in Et. discriminate.
  - intros (-> & Hne & Hn). rewrite prefix_append.
    assert (Hsub : substring 13 (length ("react-docs://" ++ rest) - 13)
                     ("react-docs://" ++ rest) = rest).
    { rewrite length_append. change (length "react-docs://") with 13%nat.
      replace (13 + length rest - 13)%nat with (length rest) by lia.
      pose proof (substring_append_skip "react-docs://" rest (length rest)) as Hk.
      change (length "react-docs://") with 13%nat in Hk.
      rewrite Hk. apply substring_all. }
    rewrite Hsub, Hn. destruct rest; [congruence | reflexivity].
Qed.

(** X30. The resources of the server.  A URI is accepted exactly when it is
    [react-docs://] followed by a text that is not empty and holds no line
    break; any other URI is refused with [Invalid resource URI: ...] before
    the engine is touched.  For an accepted URI the index is built if it
    was not; the text [learn], [reference], [blog] or [community], in
    exactly this spelling, gives the list of the records of that section,
    one line for each in the order of the index, and any other text is
    looked up as the path of a document, which is returned with its title
    and content or refused with [Document not found: ...]. *)
Theorem X30_readResource_dispatch (w : World) (st : state) (uri : string) :
  indexed st = true \/ (exists ids, getAllDocs w = Resolved ids) ->
  (forall rest,
     Server.matchResourceUri uri = Some rest
     <-> uri = ("react-docs://" ++ rest)%string
         /\ rest <> "" /\ Server.noLineTerminator rest = true)
  /\ match Server.matchResourceUri uri with
     | None =>
         Server.readResource w uri st
         = (Throw (Error ("Invalid resource URI: " ++ uri)), st)
     | Some resourcePath =>
         exists st',
           (if indexed st then ret tt else SearchEngine.indexDocuments w) st
           = (Ok tt, st')
           /\ if existsb (String.eqb resourcePath)
                   ["learn"; "reference"; "blog"; "community"]
              then
                Server.readResource w uri st
                = (Ok [Server.mkContents uri "text/plain"
                         ("# " ++ resourcePath ++ " Documentation" ++ Server.newline
                          ++ Server.newline ++ "Available documents:"
                          ++ Server.newline ++ Server.newline
                          ++ concat Server.newline
                               (map Server.docLine
                                  (filter
                                     (fun d =>
                                        (JS.toLowerCase (section d) =? resourcePath)%string)
                                     (JSMap.values (documentIndex st')))))],
                   st')
              else
                match JSMap.get (JS.stripMd resourcePath) (documentIndex st') with
                | Some d =>
                    Server.readResource w uri st
                    = (Ok [Server.mkContents uri "text/markdown"
                             ("# " ++ title (metadata d) ++ Server.newline
                              ++ Server.newline ++ content d)],
                       st')
                | None =>
                    Server.readResource w uri st
                    = (Throw (Error ("Document not found: " ++ resourcePath)), st')
                end
     end.
Proof.
  intro H. split; [intro rest; apply matchResourceUri_spec |].
  unfold Server.readResource.
  destruct (Server.matchResourceUri uri) as [resourcePath |]; [| reflexivity].
  destruct (ensureIndexed_run w st H) as (st' & Hrun & _).
  exists st'. split; [exact Hrun |].
  unfold Server.isSection. change Config.sections
    with ["learn"; "reference"; "blog"; "community"].
  destruct (existsb (String.eqb resourcePath) ["learn"; "reference"; "blog"; "community"])
    eqn:Es.
  - assert (Hlow : JS.toLowerCase resourcePath = resourcePath).
    { simpl in Es. repeat (apply orb_true_iff in Es; destruct Es as [Es | Es]);
        try discriminate; apply String.eqb_eq in Es; subst; reflexivity. }
    unfold bind. rewrite (getDocsBySection_run w st st' resourcePath Hrun), Hlow.
    reflexivity.
  - destruct (getDocByPath_run w st resourcePath H) as (st2 & Hget & Hrun2).
    rewrite Hrun in Hrun2. injection Hrun2 as <-.
    unfold bind. rewrite Hget.
    destruct (JSMap.get (JS.stripMd resourcePath) (documentIndex st')); reflexivity.
Qed.

Lemma X30_readResource_dispatch_witness :
  Server.readResource (Example.corpus [1; 0]) "react-docs://learn/a.md" Example.built
  = (Ok [Server.mkContents "react-docs://learn/a.md" "text/markdown"
           ("# " ++ "Hooks Guide" ++ Server.newline ++ Server.newline ++ "")],
     Example.built)
  /\ Server.readResource (Example.corpus [1; 0]) "docs://learn" Example.built
     = (Throw (Error "Invalid resource URI: docs://learn"), Example.built).
Proof.
  split.
  - destruct (X30_readResource_dispatch (Example.corpus [1; 0]) Example.built
                "react-docs://learn/a.md") as [_ (st' & Hrun & H)].
    + left. reflexivity.
    + injection Hrun as <-. exact H.
  - destruct (X30_readResource_dispatch (Example.corpus [1; 0]) Example.built
                "docs://learn") as [_ H].
    + left. reflexivity.
    + exact H.
Defined.

